(** * linkedin-cli: OAuth credential store, callback listener and API client

    A shallow embedding of [src/lib/oauth.ts] and [src/lib/client.ts] and
    of the parts of the JavaScript runtime they rest on (values, JSON,
    the file system calls, the HTTP exchange), followed by the properties
    of the specification.

    Conventions of the model.
    - A JavaScript string is a [string]: the sequence of its UTF-8 bytes.
    - A JavaScript number is an integer of [Z], a decimal fraction, or
      one of NaN, Infinity and -Infinity. A finite number is exact: the
      rounding of doubles, and with it the overflow of a long numeral to
      Infinity, is outside the model, and minus zero is zero.
    - An exception is a [Throw] of the [Result] type; [await] is sequencing
      in the [Call] monad, whose state is the list of HTTP exchanges made
      so far. *)

From Stdlib Require Import ZArith String Ascii List Lia.
From Stdlib Require Import Strings.Byte.
From stdpp Require Import gmap strings.

Open Scope string_scope.
Open Scope Z_scope.
Open Scope list_scope.

#[global] Set Warnings "-register-all".

(** ** Characters that a string literal of this file cannot hold *)

Definition DQUOTE : ascii := "034"%char.
Definition BACKSLASH : ascii := "092"%char.
Definition LF : ascii := "010"%char.

(** ** Values, exceptions *)

(** The numbers that are no finite value. *)
Inductive nonfinite : Type := NaN | Infinity | NegInfinity.

#[global] Instance nonfinite_eq_dec : EqDecision nonfinite.
Proof. solve_decision. Defined.

(** [VNum n] is the integer [n]; [VDec m e] is the number [m / 10^e],
    which is no integer: 10 does not divide [m]; [VNonFinite x] is NaN,
    Infinity or -Infinity. *)
Inductive jsval : Type :=
| VUndefined
| VNull
| VBool (b : bool)
| VNum (n : Z)
| VDec (m : Z) (e : positive)
| VNonFinite (x : nonfinite)
| VStr (s : string)
| VArr (elems : list jsval)
| VObj (props : list (string * jsval)).

(** What a [throw] carries: [new Error(message)], or one of the runtime's
    own exceptions; a failed file system call is known by its code. *)
Inductive JsError : Type :=
| Error (message : string)
| TypeError
| SyntaxError
| SystemError (code : string).

Inductive Result (A : Type) : Type :=
| Ok (a : A)
| Throw (e : JsError).
Arguments Ok {A} a.
Arguments Throw {A} e.

Definition isOk {A} (r : Result A) : bool :=
  match r with Ok _ => true | Throw _ => false end.

(** [jsval] is nested through [list]: its induction principle is stated
    with [Forall] over the elements and the property values. *)
Section jsval_induction.
Variable P : jsval → Prop.
Hypothesis Hundef : P VUndefined.
Hypothesis Hnull : P VNull.
Hypothesis Hbool : ∀ b, P (VBool b).
Hypothesis Hnum : ∀ n, P (VNum n).
Hypothesis Hdec : ∀ m e, P (VDec m e).
Hypothesis Hnonfinite : ∀ x, P (VNonFinite x).
Hypothesis Hstr : ∀ s, P (VStr s).
Hypothesis Harr : ∀ xs, Forall P xs → P (VArr xs).
Hypothesis Hobj : ∀ kvs, Forall (λ kv, P kv.2) kvs → P (VObj kvs).

Fixpoint jsval_rect' (v : jsval) : P v :=
  match v with
  | VUndefined => Hundef
  | VNull => Hnull
  | VBool b => Hbool b
  | VNum n => Hnum n
  | VDec m e => Hdec m e
  | VNonFinite x => Hnonfinite x
  | VStr s => Hstr s
  | VArr xs =>
      Harr xs ((fix go (l : list jsval) : Forall P l :=
                  match l with
                  | [] => Forall_nil_2 P
                  | x :: l' => Forall_cons_2 P x l' (jsval_rect' x) (go l')
                  end) xs)
  | VObj kvs =>
      Hobj kvs ((fix go (l : list (string * jsval)) : Forall (λ kv, P kv.2) l :=
                   match l with
                   | [] => Forall_nil_2 _
                   | kv :: l' => Forall_cons_2 (λ kv, P kv.2) kv l' (jsval_rect' kv.2) (go l')
                   end) kvs)
  end.
End jsval_induction.

(** ** Strings *)

(** [Array.prototype.join]. *)
Fixpoint join (sep : string) (parts : list string) : string :=
  match parts with
  | [] => ""
  | [p] => p
  | p :: rest => p +:+ sep +:+ join sep rest
  end.

(** [String.prototype.startsWith]. *)
Definition startsWith (s pre : string) : bool := String.prefix pre s.

(** [String.prototype.slice(n)] for [0 <= n]. *)
Fixpoint slice (n : nat) (s : string) : string :=
  match n, s with
  | O, _ => s
  | S n', String _ s' => slice n' s'
  | S _, EmptyString => EmptyString
  end.

(** ** Numbers as decimal text: [Number.prototype.toString]

    An integer is written with all its digits; the engine does so up to
    21 digits, which no number of the program comes near. *)

Definition digit_char (d : N) : ascii := ascii_of_N (48 + d).

Fixpoint N_digits (fuel : nat) (n : N) (acc : string) : string :=
  match fuel with
  | O => acc
  | S fuel' =>
      let acc' := String (digit_char (n mod 10)) acc in
      if (n <? 10)%N then acc' else N_digits fuel' (n / 10) acc'
  end.

Definition N_toString (n : N) : string := N_digits (S (N.to_nat (N.log2 n))) n "".

Definition Number_toString (n : Z) : string :=
  match n with
  | Z0 => "0"
  | Zpos p => N_toString (Npos p)
  | Zneg p => String "-" (N_toString (Npos p))
  end.

(** A number that is no integer. With [k] digits and the decimal point
    [n = k - e] places after the first of them, the text is plain for
    [-6 < n <= 21] and has an exponent otherwise. *)
Fixpoint insert_point (n : nat) (s : string) : string :=
  match n, s with
  | O, _ => String "." s
  | S n', String c s' => String c (insert_point n' s')
  | S _, EmptyString => "."
  end.

Fixpoint zeros (n : nat) : string :=
  match n with
  | O => ""
  | S n' => String "0" (zeros n')
  end.

Definition Dec_digits (s : N) (e : positive) : string :=
  match N_toString s with
  | EmptyString => "0"
  | String d tail =>
      let n := Z.of_nat (S (String.length tail)) - Zpos e in
      if (0 <? n) && (n <=? 21) then String d (insert_point (Z.to_nat (n - 1)) tail)
      else if (-6 <? n) && (n <=? 0) then
        String "0" (String "." (zeros (Z.to_nat (- n)) +:+ String d tail))
      else
        String d ((if String.eqb tail "" then "" else String "." tail)
                  +:+ String "e" ((if 0 <=? n - 1 then "+" else "-")
                                  +:+ Number_toString (Z.abs (n - 1))))
  end.

Definition Dec_toString (m : Z) (e : positive) : string :=
  match m with
  | Z0 => "0"
  | Zpos p => Dec_digits (Npos p) e
  | Zneg p => String "-" (Dec_digits (Npos p) e)
  end.

Definition nonfinite_toString (x : nonfinite) : string :=
  match x with
  | NaN => "NaN"
  | Infinity => "Infinity"
  | NegInfinity => "-Infinity"
  end.

(** ** Truthiness, property reads, conversion to a string *)

(** [ToBoolean]: what [if (v)], [!v] and [v || w] test. *)
Definition truthy (v : jsval) : bool :=
  match v with
  | VUndefined | VNull => false
  | VBool b => b
  | VNum n => negb (n =? 0)
  | VDec _ _ => true
  | VNonFinite NaN => false
  | VNonFinite _ => true
  | VStr s => negb (String.eqb s "")
  | VArr _ | VObj _ => true
  end.

(** [a || b]. *)
Definition js_or (a b : jsval) : jsval := if truthy a then a else b.

Fixpoint assoc_get (k : string) (kvs : list (string * jsval)) : option jsval :=
  match kvs with
  | [] => None
  | (k', v) :: rest => if String.eqb k k' then Some v else assoc_get k rest
  end.

(** [v.k] and [v[k]] for the keys the program reads ([message], [value],
    [uploadMechanism], [uploadUrl], [asset], [sub], [elements]): a read
    on [undefined] or [null] throws a TypeError, a key an object does not
    own reads as [undefined]. Members inherited from a prototype are not
    modelled. *)
Definition get (v : jsval) (k : string) : Result jsval :=
  match v with
  | VUndefined | VNull => Throw TypeError
  | VObj kvs => Ok (default VUndefined (assoc_get k kvs))
  | _ => Ok VUndefined
  end.

Definition has_own (k : string) (v : jsval) : bool :=
  match v with
  | VObj kvs => bool_decide (is_Some (assoc_get k kvs))
  | _ => false
  end.

(** [ToString], as a template literal applies it. An array is joined by
    commas, with [null] and [undefined] elements as empty strings; a plain
    object gives [[object Object]] unless it owns a [toString] property,
    which then is no function and the conversion throws. *)
Fixpoint ToString (v : jsval) : Result string :=
  match v with
  | VUndefined => Ok "undefined"
  | VNull => Ok "null"
  | VBool true => Ok "true"
  | VBool false => Ok "false"
  | VNum n => Ok (Number_toString n)
  | VDec m e => Ok (Dec_toString m e)
  | VNonFinite x => Ok (nonfinite_toString x)
  | VStr s => Ok s
  | VArr xs =>
      (fix go (l : list jsval) (first : bool) : Result string :=
         match l with
         | [] => Ok ""
         | x :: l' =>
             match (match x with
                    | VUndefined | VNull => Ok ""
                    | _ => ToString x
                    end) with
             | Throw e => Throw e
             | Ok sx =>
                 match go l' false with
                 | Throw e => Throw e
                 | Ok sl => Ok ((if first then "" else ",") +:+ sx +:+ sl)
                 end
             end
         end) xs true
  | VObj kvs =>
      match assoc_get "toString" kvs with
      | Some _ => Throw TypeError
      | None => Ok "[object Object]"
      end
  end.

(** ** Arithmetic on numbers

    The value of a field or variable of type [number], where the program
    computes with it: an integer, or a value that is not finite. *)
Inductive number : Type :=
| Int (n : Z)
| NotFinite (x : nonfinite).

Coercion Int : Z >-> number.

Definition Number_value (a : number) : jsval :=
  match a with
  | Int n => VNum n
  | NotFinite x => VNonFinite x
  end.

(** [-a], [a + b], [a - b] and [a * b]. *)
Definition Number_neg (a : number) : number :=
  match a with
  | Int n => Int (- n)
  | NotFinite NaN => NotFinite NaN
  | NotFinite Infinity => NotFinite NegInfinity
  | NotFinite NegInfinity => NotFinite Infinity
  end.

Definition Number_add (a b : number) : number :=
  match a, b with
  | Int x, Int y => Int (x + y)
  | NotFinite NaN, _ | _, NotFinite NaN => NotFinite NaN
  | NotFinite Infinity, NotFinite NegInfinity
  | NotFinite NegInfinity, NotFinite Infinity => NotFinite NaN
  | NotFinite x, _ => NotFinite x
  | _, NotFinite y => NotFinite y
  end.

Definition Number_sub (a b : number) : number := Number_add a (Number_neg b).

Definition Number_mul (a b : number) : number :=
  match a, b with
  | Int x, Int y => Int (x * y)
  | NotFinite NaN, _ | _, NotFinite NaN => NotFinite NaN
  | NotFinite x, Int y | Int y, NotFinite x =>
      if y =? 0 then NotFinite NaN
      else if 0 <? y then NotFinite x
      else Number_neg (NotFinite x)
  | NotFinite x, NotFinite y =>
      NotFinite (if bool_decide (x = y) then Infinity else NegInfinity)
  end.

(** [a <= b] and [a >= b]: false when either side is NaN. *)
Definition Number_leb (a b : number) : bool :=
  match a, b with
  | Int x, Int y => x <=? y
  | NotFinite NaN, _ | _, NotFinite NaN => false
  | NotFinite NegInfinity, _ | _, NotFinite Infinity => true
  | _, _ => false
  end.

Definition Number_geb (a b : number) : bool := Number_leb b a.

(** ** JSON: [JSON.stringify] and [JSON.parse] *)

Module JSON.

Definition hex_char (d : N) : ascii :=
  if (d <? 10)%N then ascii_of_N (48 + d) else ascii_of_N (87 + d).

(** QuoteJSONString, one character at a time. *)
Definition escape_char (c : ascii) : string :=
  let n := N_of_ascii c in
  if (n =? 34)%N then String BACKSLASH (String DQUOTE "")
  else if (n =? 92)%N then String BACKSLASH (String BACKSLASH "")
  else if (n =? 8)%N then String BACKSLASH "b"
  else if (n =? 12)%N then String BACKSLASH "f"
  else if (n =? 10)%N then String BACKSLASH "n"
  else if (n =? 13)%N then String BACKSLASH "r"
  else if (n =? 9)%N then String BACKSLASH "t"
  else if (n <? 32)%N then
    String BACKSLASH ("u00" +:+ String (hex_char (n / 16)) (String (hex_char (n mod 16)) ""))
  else String c "".

Fixpoint escape (s : string) : string :=
  match s with
  | EmptyString => ""
  | String c s' => escape_char c +:+ escape s'
  end.

Definition quote (s : string) : string :=
  String DQUOTE (escape s +:+ String DQUOTE "").

Definition is_compact (gap : string) : bool := String.eqb gap "".

(** SerializeJSONArray and SerializeJSONObject put their parts together
    the same way, between their own brackets. *)
Definition wrap (open close gap stepback indent : string) (partial : list string) : string :=
  match partial with
  | [] => open +:+ close
  | _ =>
      if is_compact gap then open +:+ join "," partial +:+ close
      else open +:+ String LF indent
             +:+ join ("," +:+ String LF indent) partial
             +:+ String LF stepback +:+ close
  end.

Definition member (gap key str : string) : string :=
  quote key +:+ ":" +:+ (if is_compact gap then "" else " ") +:+ str.

(** SerializeJSONProperty; [None] is its [undefined]. *)
Fixpoint serialize (gap indent : string) (v : jsval) : option string :=
  match v with
  | VUndefined => None
  | VNull => Some "null"
  | VBool b => Some (if b then "true" else "false")
  | VNum n => Some (Number_toString n)
  | VDec m e => Some (Dec_toString m e)
  | VNonFinite _ => Some "null"
  | VStr s => Some (quote s)
  | VArr xs =>
      let inner := indent +:+ gap in
      Some (wrap "[" "]" gap indent inner
              ((fix go (l : list jsval) : list string :=
                  match l with
                  | [] => []
                  | x :: l' => default "null" (serialize gap inner x) :: go l'
                  end) xs))
  | VObj kvs =>
      let inner := indent +:+ gap in
      Some (wrap "{" "}" gap indent inner
              ((fix go (l : list (string * jsval)) : list string :=
                  match l with
                  | [] => []
                  | (k, x) :: l' =>
                      match serialize gap inner x with
                      | Some str => member gap k str :: go l'
                      | None => go l'
                      end
                  end) kvs))
  end.

Fixpoint spaces (n : nat) : string :=
  match n with
  | O => ""
  | S n' => String " " (spaces n')
  end.

(** [JSON.stringify(value, null, space)] for [space <= 10];
    [JSON.stringify(value)] is [stringify 0 value]. *)
Definition stringify (space : nat) (v : jsval) : option string :=
  serialize (spaces space) "" v.

(** *** Parsing *)

Definition is_ws (c : ascii) : bool :=
  let n := N_of_ascii c in
  ((n =? 32) || (n =? 9) || (n =? 10) || (n =? 13))%N.

Fixpoint skip_ws (s : string) : string :=
  match s with
  | EmptyString => ""
  | String c s' => if is_ws c then skip_ws s' else s
  end.

Definition is_digit (c : ascii) : bool :=
  let n := N_of_ascii c in ((48 <=? n) && (n <=? 57))%N.

Definition hex_val (c : ascii) : option N :=
  let n := N_of_ascii c in
  if ((48 <=? n) && (n <=? 57))%N then Some (n - 48)%N
  else if ((97 <=? n) && (n <=? 102))%N then Some (n - 87)%N
  else if ((65 <=? n) && (n <=? 70))%N then Some (n - 55)%N
  else None.

Definition hex4 (a b c d : ascii) : option N :=
  match hex_val a, hex_val b, hex_val c, hex_val d with
  | Some x, Some y, Some z, Some w => Some (((x * 16 + y) * 16 + z) * 16 + w)%N
  | _, _, _, _ => None
  end.

(** The UTF-8 bytes of a code point (of a lone surrogate too, which
    takes the three-byte form). *)
Definition utf8 (cp : N) : string :=
  if (cp <? 128)%N then String (ascii_of_N cp) ""
  else if (cp <? 2048)%N then
    String (ascii_of_N (192 + cp / 64)) (String (ascii_of_N (128 + cp mod 64)) "")
  else if (cp <? 65536)%N then
    String (ascii_of_N (224 + cp / 4096))
      (String (ascii_of_N (128 + (cp / 64) mod 64))
         (String (ascii_of_N (128 + cp mod 64)) ""))
  else
    String (ascii_of_N (240 + cp / 262144))
      (String (ascii_of_N (128 + (cp / 4096) mod 64))
         (String (ascii_of_N (128 + (cp / 64) mod 64))
            (String (ascii_of_N (128 + cp mod 64)) ""))).

Definition simple_escape (e : ascii) : option ascii :=
  let n := N_of_ascii e in
  if (n =? 34)%N then Some DQUOTE
  else if (n =? 92)%N then Some BACKSLASH
  else if (n =? 47)%N then Some "/"%char
  else if (n =? 98)%N then Some "008"%char
  else if (n =? 102)%N then Some "012"%char
  else if (n =? 110)%N then Some LF
  else if (n =? 114)%N then Some "013"%char
  else if (n =? 116)%N then Some "009"%char
  else None.

Definition is_high_surrogate (cu : N) : bool := ((55296 <=? cu) && (cu <=? 56319))%N.
Definition is_low_surrogate (cu : N) : bool := ((56320 <=? cu) && (cu <=? 57343))%N.

(** The low half of a surrogate pair at the head of [s], with what
    follows its escape. *)
Definition low_surrogate (s : string) : option (N * string) :=
  match s with
  | String b (String u (String h1 (String h2 (String h3 (String h4 s'))))) =>
      if Ascii.eqb b BACKSLASH && Ascii.eqb u "u" then
        match hex4 h1 h2 h3 h4 with
        | Some lo => if is_low_surrogate lo then Some (lo, s') else None
        | None => None
        end
      else None
  | _ => None
  end.

(** The characters of a string literal, from after its opening quote:
    the string and what follows the closing quote. *)
Fixpoint parse_chars (s : string) : option (string * string) :=
  match s with
  | EmptyString => None
  | String c s1 =>
      if Ascii.eqb c DQUOTE then Some ("", s1)
      else if Ascii.eqb c BACKSLASH then
        match s1 with
        | EmptyString => None
        | String e s2 =>
            match simple_escape e with
            | Some ch =>
                match parse_chars s2 with
                | Some (str, rest) => Some (String ch str, rest)
                | None => None
                end
            | None =>
                if Ascii.eqb e "u" then
                  match s2 with
                  | String h1 (String h2 (String h3 (String h4 s3))) =>
                      match hex4 h1 h2 h3 h4 with
                      | None => None
                      | Some cu =>
                          match
                            (if is_high_surrogate cu then
                               match s3 with
                               | String b (String u (String l1 (String l2 (String l3 (String l4 s4))))) =>
                                   match low_surrogate s3 with
                                   | Some (lo, _) =>
                                       Some (65536 + (cu - 55296) * 1024 + (lo - 56320), parse_chars s4)%N
                                   | None => None
                                   end
                               | _ => None
                               end
                             else None)
                          with
                          | Some (cp, tail) =>
                              match tail with
                              | Some (str, rest) => Some (utf8 cp +:+ str, rest)
                              | None => None
                              end
                          | None =>
                              match parse_chars s3 with
                              | Some (str, rest) => Some (utf8 cu +:+ str, rest)
                              | None => None
                              end
                          end
                      end
                  | _ => None
                  end
                else None
            end
        end
      else if (N_of_ascii c <? 32)%N then None
      else
        match parse_chars s1 with
        | Some (str, rest) => Some (String c str, rest)
        | None => None
        end
  end.

Fixpoint parse_digits (acc : N) (s : string) : N * string :=
  match s with
  | EmptyString => (acc, "")
  | String c s' =>
      if is_digit c then parse_digits (acc * 10 + (N_of_ascii c - 48))%N s'
      else (acc, s)
  end.

(** [int] of the JSON grammar: a lone 0, or digits with no leading 0. *)
Definition parse_int (s : string) : option (N * string) :=
  match s with
  | EmptyString => None
  | String c s' =>
      if Ascii.eqb c "0" then Some (0%N, s')
      else if is_digit c then Some (parse_digits 0 s)
      else None
  end.

(** A fraction or an exponent would start here. *)
Definition integer_ends (s : string) : bool :=
  match s with
  | EmptyString => true
  | String c _ => negb (Ascii.eqb c "." || Ascii.eqb c "e" || Ascii.eqb c "E")
  end.

(** [frac] of the grammar, after an integer part [n]: nothing, or a point
    and one digit at least. The digits are read on to [n]; their number is
    given with the result. *)
Definition parse_frac (n : N) (s : string) : option (N * nat * string) :=
  match s with
  | EmptyString => Some (n, O, s)
  | String c s1 =>
      if Ascii.eqb c "." then
        match s1 with
        | EmptyString => None
        | String d _ =>
            if is_digit d then
              let '(m, r) := parse_digits n s1 in
              Some (m, (String.length s1 - String.length r)%nat, r)
            else None
        end
      else Some (n, O, s)
  end.

(** [exp] of the grammar: nothing, or [e] or [E], a sign or none, and one
    digit at least. *)
Definition parse_exp (s : string) : option (Z * string) :=
  match s with
  | EmptyString => Some (0, s)
  | String c s1 =>
      if Ascii.eqb c "e" || Ascii.eqb c "E" then
        let '(negative, s2) :=
          match s1 with
          | EmptyString => (false, s1)
          | String sign s2 =>
              if Ascii.eqb sign "-" then (true, s2)
              else if Ascii.eqb sign "+" then (false, s2)
              else (false, s1)
          end in
        match s2 with
        | EmptyString => None
        | String d _ =>
            if is_digit d then
              let '(x, r) := parse_digits 0 s2 in
              Some (if negative then - Z.of_N x else Z.of_N x, r)
            else None
        end
      else Some (0, s)
  end.

(** [m / 10^e] without the zeros [m] ends with, as far as [e] goes. *)
Fixpoint strip_zeros (fuel : nat) (m : N) (e : Z) : N * Z :=
  match fuel with
  | O => (m, e)
  | S fuel' =>
      if (0 <? e) && (m mod 10 =? 0)%N then strip_zeros fuel' (m / 10)%N (e - 1)
      else (m, e)
  end.

(** The number [m * 10^scale], with its sign. *)
Definition decimal (negative : bool) (m : N) (scale : Z) : jsval :=
  let signed (n : Z) := if negative then - n else n in
  if (m =? 0)%N then VNum 0
  else if 0 <=? scale then VNum (signed (Z.of_N m * 10 ^ scale))
  else
    let '(m', e) := strip_zeros (S (N.to_nat (N.log2 m))) m (- scale) in
    match e with
    | Zpos e' => VDec (signed (Z.of_N m')) e'
    | _ => VNum (signed (Z.of_N m'))
    end.

(** A number that goes on after its integer part. *)
Definition parse_decimal (negative : bool) (n : N) (s : string) : option (jsval * string) :=
  match parse_frac n s with
  | Some (m, k, r) =>
      match parse_exp r with
      | Some (x, r') => Some (decimal negative m (x - Z.of_nat k), r')
      | None => None
      end
  | None => None
  end.

Definition parse_number (s : string) : option (jsval * string) :=
  match s with
  | EmptyString => None
  | String c s' =>
      if Ascii.eqb c "-" then
        match parse_int s' with
        | Some (n, rest) =>
            if integer_ends rest then Some (VNum (- Z.of_N n), rest)
            else parse_decimal true n rest
        | None => None
        end
      else
        match parse_int s with
        | Some (n, rest) =>
            if integer_ends rest then Some (VNum (Z.of_N n), rest)
            else parse_decimal false n rest
        | None => None
        end
  end.

(** A literal name ([null], [true], [false]) at the head of [s]. *)
Fixpoint expect (lit s : string) : option string :=
  match lit, s with
  | EmptyString, _ => Some s
  | String a lit', String b s' => if Ascii.eqb a b then expect lit' s' else None
  | String _ _, EmptyString => None
  end.

(** CreateDataProperty during the parse: a repeated key keeps its
    place and takes the later value. *)
Fixpoint obj_set (k : string) (v : jsval) (kvs : list (string * jsval)) : list (string * jsval) :=
  match kvs with
  | [] => [(k, v)]
  | (k', v') :: rest =>
      if String.eqb k k' then (k, v) :: rest else (k', v') :: obj_set k v rest
  end.

Definition obj_of_members (ms : list (string * jsval)) : list (string * jsval) :=
  fold_left (λ acc kv, obj_set kv.1 kv.2 acc) ms [].

(** The recursive descent; [fuel] bounds the nesting and the number of
    elements, and [parse] below gives as much as any text can use. *)
Fixpoint parse_value (fuel : nat) (s : string) : option (jsval * string) :=
  match fuel with
  | O => None
  | S fuel' =>
      match skip_ws s with
      | EmptyString => None
      | String c s' =>
          if Ascii.eqb c "{" then
            match skip_ws s' with
            | String c' r =>
                if Ascii.eqb c' "}" then Some (VObj [], r)
                else
                  match parse_members fuel' s' with
                  | Some (ms, r') => Some (VObj (obj_of_members ms), r')
                  | None => None
                  end
            | EmptyString => None
            end
          else if Ascii.eqb c "[" then
            match skip_ws s' with
            | String c' r =>
                if Ascii.eqb c' "]" then Some (VArr [], r)
                else
                  match parse_elements fuel' s' with
                  | Some (xs, r') => Some (VArr xs, r')
                  | None => None
                  end
            | EmptyString => None
            end
          else if Ascii.eqb c DQUOTE then
            match parse_chars s' with
            | Some (str, r) => Some (VStr str, r)
            | None => None
            end
          else if Ascii.eqb c "n" then
            match expect "ull" s' with Some r => Some (VNull, r) | None => None end
          else if Ascii.eqb c "t" then
            match expect "rue" s' with Some r => Some (VBool true, r) | None => None end
          else if Ascii.eqb c "f" then
            match expect "alse" s' with Some r => Some (VBool false, r) | None => None end
          else parse_number (String c s')
      end
  end
with parse_elements (fuel : nat) (s : string) : option (list jsval * string) :=
  match fuel with
  | O => None
  | S fuel' =>
      match parse_value fuel' s with
      | None => None
      | Some (v, r) =>
          match skip_ws r with
          | EmptyString => None
          | String c r' =>
              if Ascii.eqb c "," then
                match parse_elements fuel' r' with
                | Some (vs, r'') => Some (v :: vs, r'')
                | None => None
                end
              else if Ascii.eqb c "]" then Some ([v], r')
              else None
          end
      end
  end
with parse_members (fuel : nat) (s : string) : option (list (string * jsval) * string) :=
  match fuel with
  | O => None
  | S fuel' =>
      match skip_ws s with
      | EmptyString => None
      | String q s1 =>
          if Ascii.eqb q DQUOTE then
            match parse_chars s1 with
            | None => None
            | Some (k, r) =>
                match skip_ws r with
                | EmptyString => None
                | String colon r1 =>
                    if Ascii.eqb colon ":" then
                      match parse_value fuel' r1 with
                      | None => None
                      | Some (v, r2) =>
                          match skip_ws r2 with
                          | EmptyString => None
                          | String c r3 =>
                              if Ascii.eqb c "," then
                                match parse_members fuel' r3 with
                                | Some (ms, r4) => Some ((k, v) :: ms, r4)
                                | None => None
                                end
                              else if Ascii.eqb c "}" then Some ([(k, v)], r3)
                              else None
                          end
                      end
                    else None
                end
            end
          else None
      end
  end.

(** [JSON.parse(text)]; [None] is its SyntaxError. *)
Definition parse (text : string) : option jsval :=
  match parse_value (S (String.length text)) text with
  | Some (v, rest) => if String.eqb (skip_ws rest) "" then Some v else None
  | None => None
  end.

(** *** What a serialized value reads back as *)

(** The value a JSON text stands for: a property whose value is
    [undefined] is left out, an [undefined] element is [null], and so is
    a number that is not finite. *)
Fixpoint clean (v : jsval) : jsval :=
  match v with
  | VArr xs =>
      VArr ((fix go (l : list jsval) : list jsval :=
               match l with
               | [] => []
               | x :: l' => (match x with VUndefined => VNull | _ => clean x end) :: go l'
               end) xs)
  | VObj kvs =>
      VObj ((fix go (l : list (string * jsval)) : list (string * jsval) :=
               match l with
               | [] => []
               | (k, x) :: l' =>
                   match x with
                   | VUndefined => go l'
                   | _ => (k, clean x) :: go l'
                   end
               end) kvs)
  | VNonFinite _ => VNull
  | _ => v
  end.

Fixpoint has_key (k : string) (kvs : list (string * jsval)) : bool :=
  match kvs with
  | [] => false
  | (k', _) :: rest => String.eqb k k' || has_key k rest
  end.

Fixpoint keys_distinct (kvs : list (string * jsval)) : bool :=
  match kvs with
  | [] => true
  | (k, _) :: rest => negb (has_key k rest) && keys_distinct rest
  end.

(** The values whose round trip is proved below: no object of the value
    lists a key twice, as holds of every object the runtime builds, and
    its numbers are integers or not finite. *)
Fixpoint plain (v : jsval) : bool :=
  match v with
  | VArr xs =>
      (fix go (l : list jsval) : bool :=
         match l with
         | [] => true
         | x :: l' => plain x && go l'
         end) xs
  | VObj kvs =>
      keys_distinct kvs
      && (fix go (l : list (string * jsval)) : bool :=
            match l with
            | [] => true
            | (_, x) :: l' => plain x && go l'
            end) kvs
  | VDec _ _ => false
  | _ => true
  end.

Fixpoint blank (s : string) : bool :=
  match s with
  | EmptyString => true
  | String c s' => is_ws c && blank s'
  end.

End JSON.

(** ** Dates

    [new Date(text).getTime()] is a number of milliseconds, or NaN when
    the text is no date; [None] stands for NaN. Which texts an engine
    accepts beyond the ISO format is left to it, so the functions of
    [oauth.ts] take the conversion as a parameter. [Date_parse_iso] is the
    conversion on the one format the program writes itself
    ([toISOString]: YYYY-MM-DDTHH:mm:ss.sssZ). *)

Definition digit_val (c : ascii) : option Z :=
  if JSON.is_digit c then Some (Z.of_N (N_of_ascii c) - 48) else None.

Fixpoint digits_val (acc : Z) (cs : list ascii) : option Z :=
  match cs with
  | [] => Some acc
  | c :: cs' =>
      match digit_val c with
      | Some d => digits_val (acc * 10 + d) cs'
      | None => None
      end
  end.

Definition is_leap (y : Z) : bool :=
  ((y mod 4 =? 0) && negb (y mod 100 =? 0)) || (y mod 400 =? 0).

Definition days_in_month (y m : Z) : Z :=
  if m =? 2 then (if is_leap y then 29 else 28)
  else if (m =? 4) || (m =? 6) || (m =? 9) || (m =? 11) then 30
  else 31.

(** Days from 1970-01-01 to the given civil date. *)
Definition days_from_civil (y m d : Z) : Z :=
  let y' := if m <=? 2 then y - 1 else y in
  let era := y' / 400 in
  let yoe := y' - era * 400 in
  let mp := (m + 9) mod 12 in
  let doy := (153 * mp + 2) / 5 + d - 1 in
  let doe := yoe * 365 + yoe / 4 - yoe / 100 + doy in
  era * 146097 + doe - 719468.

Definition Date_parse_iso (text : string) : option Z :=
  match list_ascii_of_string text with
  | [y1; y2; y3; y4; d1; m1; m2; d2; a1; a2; t; h1; h2; c1; n1; n2; c2; s1; s2; p; f1; f2; f3; z] =>
      if Ascii.eqb d1 "-" && Ascii.eqb d2 "-" && Ascii.eqb t "T" && Ascii.eqb c1 ":"
         && Ascii.eqb c2 ":" && Ascii.eqb p "." && Ascii.eqb z "Z"
      then
        match digits_val 0 [y1; y2; y3; y4], digits_val 0 [m1; m2], digits_val 0 [a1; a2],
              digits_val 0 [h1; h2], digits_val 0 [n1; n2], digits_val 0 [s1; s2],
              digits_val 0 [f1; f2; f3] with
        | Some y, Some m, Some d, Some hh, Some mm, Some ss, Some ms =>
            if (1 <=? m) && (m <=? 12) && (1 <=? d) && (d <=? days_in_month y m)
               && (hh <? 24) && (mm <? 60) && (ss <? 60)
            then Some ((((days_from_civil y m d * 24 + hh) * 60 + mm) * 60 + ss) * 1000 + ms)
            else None
        | _, _, _, _, _, _, _ => None
        end
      else None
  | _ => None
  end.

(** * [src/lib/types.ts] *)

Record OAuthTokens : Type := {
  access_token : string;
  expires_in : number;
  refresh_token : option string;
  refresh_token_expires_in : option number;
  scope : string;
  token_type : string;
  created_at : string
}.

Inductive Visibility : Type := PUBLIC | CONNECTIONS.

Record CreatePostOptions : Type := {
  text : string;
  visibility : option Visibility;
  mediaUrls : option (list string);
  articleUrl : option string;
  articleTitle : option string;
  articleDescription : option string
}.

(** A field that may be absent, as the object holds it. *)
Definition optional {A} (inj : A → jsval) (o : option A) : jsval :=
  match o with Some a => inj a | None => VUndefined end.

(** The object a record of type [OAuthTokens] is at run time: an absent
    optional field is no property of it. *)
Definition OAuthTokens_object (t : OAuthTokens) : jsval :=
  VObj ([("access_token", VStr (access_token t));
         ("expires_in", Number_value (expires_in t))]
        ++ match refresh_token t with Some r => [("refresh_token", VStr r)] | None => [] end
        ++ match refresh_token_expires_in t with
           | Some n => [("refresh_token_expires_in", Number_value n)]
           | None => []
           end
        ++ [("scope", VStr (scope t));
            ("token_type", VStr (token_type t));
            ("created_at", VStr (created_at t))]).

Definition Visibility_string (v : Visibility) : string :=
  match v with PUBLIC => "PUBLIC" | CONNECTIONS => "CONNECTIONS" end.

(** * The file system below the home directory

    [fs.node] is the tree in which [path.join(homeDir, ...)] resolves;
    a path is the list of the names joined after [homeDir]. Permissions
    and device errors are outside the model: a call fails only where the
    shape of the tree makes it fail. *)

Module fs.

Inductive node : Type :=
| File (content : string)
| Dir (entries : gmap string node).

Definition path : Type := list string.

Fixpoint lookup (p : path) (n : node) : option node :=
  match p with
  | [] => Some n
  | name :: p' =>
      match n with
      | Dir m => match m !! name with Some child => lookup p' child | None => None end
      | File _ => None
      end
  end.

Definition existsSync (p : path) (root : node) : bool :=
  match lookup p root with Some _ => true | None => false end.

(** [fs.readFileSync(p, 'utf-8')]: ENOENT on a missing path, EISDIR on a
    directory. *)
Definition readFileSync (p : path) (root : node) : Result string :=
  match lookup p root with
  | Some (File content) => Ok content
  | Some (Dir _) => Throw (SystemError "EISDIR")
  | None => Throw (SystemError "ENOENT")
  end.

(** [fs.mkdirSync(p, { recursive: true })]: every missing directory on
    the way is made; a file on the way is an error. *)
Fixpoint mkdir (p : path) (n : node) : option node :=
  match n with
  | File _ => None
  | Dir m =>
      match p with
      | [] => Some n
      | name :: p' =>
          match mkdir p' (default (Dir ∅) (m !! name)) with
          | Some child => Some (Dir (<[name := child]> m))
          | None => None
          end
      end
  end.

Definition mkdirSync (p : path) (root : node) : Result node :=
  match mkdir p root with
  | Some root' => Ok root'
  | None => Throw (SystemError "EEXIST")
  end.

(** [fs.writeFileSync(p, data)]: the file is made or replaced; its
    directory must be there, and [p] itself must be no directory. *)
Fixpoint write (p : path) (data : string) (n : node) : option node :=
  match n with
  | File _ => None
  | Dir m =>
      match p with
      | [] => None
      | [name] =>
          match m !! name with
          | Some (Dir _) => None
          | _ => Some (Dir (<[name := File data]> m))
          end
      | name :: p' =>
          match m !! name with
          | Some child =>
              match write p' data child with
              | Some child' => Some (Dir (<[name := child']> m))
              | None => None
              end
          | None => None
          end
      end
  end.

Definition writeFileSync (p : path) (data : string) (root : node) : Result node :=
  match write p data root with
  | Some root' => Ok root'
  | None => Throw (SystemError "ENOENT")
  end.

(** [fs.unlinkSync(p)]. *)
Fixpoint unlink (p : path) (n : node) : option node :=
  match n with
  | File _ => None
  | Dir m =>
      match p with
      | [] => None
      | [name] =>
          match m !! name with
          | Some (File _) => Some (Dir (delete name m))
          | _ => None
          end
      | name :: p' =>
          match m !! name with
          | Some child =>
              match unlink p' child with
              | Some child' => Some (Dir (<[name := child']> m))
              | None => None
              end
          | None => None
          end
      end
  end.

End fs.

(** * [src/lib/oauth.ts] *)

(** ** The credential store *)

Definition clawdbotDir : fs.path := [".clawdbot"; "credentials"].
Definition moltbotDir : fs.path := [".moltbot"; "credentials"].

Definition getCredentialsDir (root : fs.node) : fs.path :=
  if fs.existsSync clawdbotDir root then clawdbotDir
  else if fs.existsSync moltbotDir root then moltbotDir
  else clawdbotDir.

Definition getCredentialsPath (root : fs.node) : fs.path :=
  let clawdbotPath := clawdbotDir ++ ["linkedin.json"] in
  let moltbotPath := moltbotDir ++ ["linkedin.json"] in
  if fs.existsSync clawdbotPath root then clawdbotPath
  else if fs.existsSync moltbotPath root then moltbotPath
  else clawdbotPath.

(** [saveTokens]: the file system after the call, or what it throws. *)
Definition saveTokens (tokens : OAuthTokens) (root : fs.node) : Result fs.node :=
  let credentialsDir := getCredentialsDir root in
  match (if negb (fs.existsSync credentialsDir root)
         then fs.mkdirSync credentialsDir root
         else Ok root) with
  | Throw e => Throw e
  | Ok root1 =>
      let credentialsPath := credentialsDir ++ ["linkedin.json"] in
      match JSON.stringify 2 (OAuthTokens_object tokens) with
      | Some data => fs.writeFileSync credentialsPath data root1
      | None => Throw TypeError
      end
  end.

(** [loadTokens]: the parsed content of the file, whatever value that
    is, or [null] when there is no file. *)
Definition loadTokens (root : fs.node) : Result jsval :=
  let clawdbotPath := clawdbotDir ++ ["linkedin.json"] in
  if fs.existsSync clawdbotPath root then
    match fs.readFileSync clawdbotPath root with
    | Throw e => Throw e
    | Ok content =>
        match JSON.parse content with
        | Some v => Ok v
        | None => Throw SyntaxError
        end
    end
  else
    let moltbotPath := moltbotDir ++ ["linkedin.json"] in
    if fs.existsSync moltbotPath root then
      match fs.readFileSync moltbotPath root with
      | Throw e => Throw e
      | Ok content =>
          match JSON.parse content with
          | Some v => Ok v
          | None => Throw SyntaxError
          end
      end
    else Ok VNull.

Definition deleteTokens (root : fs.node) : Result (bool * fs.node) :=
  let credentialsPath := getCredentialsPath root in
  if fs.existsSync credentialsPath root then
    match fs.unlink credentialsPath root with
    | Some root' => Ok (true, root')
    | None => Throw (SystemError "EISDIR")
    end
  else Ok (false, root).

(** ** Expiry *)

(** A time value as a number; [None] is NaN. *)
Definition Date_value (time : option Z) : number :=
  match time with
  | Some ms => Int ms
  | None => NotFinite NaN
  end.

Section Expiry.

(** [new Date(text).getTime()] of the engine; [None] is its NaN. *)
Variable Date_getTime : string → option Z.

(** [now] is [Date.now()]. A comparison with NaN is false. *)
Definition isTokenExpired (now : Z) (tokens : OAuthTokens) : bool :=
  let createdAt := Date_value (Date_getTime (created_at tokens)) in
  let expiresAt := Number_add createdAt (Number_mul (expires_in tokens) 1000) in
  Number_geb now (Number_sub expiresAt (5 * 60 * 1000)).

Definition isTokenExpiringSoon (now : Z) (tokens : OAuthTokens) : bool :=
  let createdAt := Date_value (Date_getTime (created_at tokens)) in
  let expiresAt := Number_add createdAt (Number_mul (expires_in tokens) 1000) in
  let sevenDaysFromNow := now + 7 * 24 * 60 * 60 * 1000 in
  Number_leb expiresAt sevenDaysFromNow.

End Expiry.

(** ** The CSRF state

    [crypto.randomBytes] draws from a source outside the program: a tape
    of bytes and a cursor on it. *)

Record Rng : Type := { tape : nat → byte; cursor : nat }.

Definition randomBytes (n : nat) (g : Rng) : list byte * Rng :=
  (map (tape g) (seq (cursor g) n), {| tape := tape g; cursor := (cursor g + n)%nat |}).

Definition base64url_alphabet : string :=
  "ABCDEFGHIJKLMNOPQRSTUVWXYZabcdefghijklmnopqrstuvwxyz0123456789-_".

Definition sextet_char (n : N) : ascii :=
  match String.get (N.to_nat n) base64url_alphabet with
  | Some c => c
  | None => "="%char
  end.

(** [Buffer.prototype.toString('base64url')]: three bytes give four
    characters, and the last one or two bytes two or three, unpadded. *)
Fixpoint base64url (buf : list byte) : string :=
  match buf with
  | [] => ""
  | [a] =>
      let a := Byte.to_N a in
      String (sextet_char (a / 4)) (String (sextet_char (a mod 4 * 16)) "")
  | [a; b] =>
      let a := Byte.to_N a in
      let b := Byte.to_N b in
      String (sextet_char (a / 4))
        (String (sextet_char (a mod 4 * 16 + b / 16))
           (String (sextet_char (b mod 16 * 4)) ""))
  | a :: b :: c :: rest =>
      let a := Byte.to_N a in
      let b := Byte.to_N b in
      let c := Byte.to_N c in
      String (sextet_char (a / 4))
        (String (sextet_char (a mod 4 * 16 + b / 16))
           (String (sextet_char (b mod 16 * 4 + c / 64))
              (String (sextet_char (c mod 64)) (base64url rest))))
  end%N.

Definition generateState (g : Rng) : string * Rng :=
  let '(buf, g') := randomBytes 32 g in (base64url buf, g').

(** A character that a URL carries unescaped: a letter, a digit, [-],
    [_], [.] or [~]. *)
Definition is_unreserved (c : ascii) : bool :=
  let n := N_of_ascii c in
  (((65 <=? n) && (n <=? 90)) || ((97 <=? n) && (n <=? 122)) || ((48 <=? n) && (n <=? 57))
   || (n =? 45) || (n =? 95) || (n =? 46) || (n =? 126))%N.

Fixpoint url_safe (s : string) : bool :=
  match s with
  | EmptyString => true
  | String c s' => is_unreserved c && url_safe s'
  end.

(** ** The callback listener *)

(** The parsed [new URL(req.url, base)]. *)
Record URL : Type := { pathname : string; searchParams : list (string * string) }.

(** [URLSearchParams.prototype.get]: the first value of the name. *)
Fixpoint searchParams_get (name : string) (params : list (string * string))
  : option string :=
  match params with
  | [] => None
  | (k, v) :: rest => if String.eqb k name then Some v else searchParams_get name rest
  end.

(** The promise [startCallbackServer] returns. *)
Inductive Promise : Type :=
| Pending
| Resolved (code : string)
| Rejected (reason : JsError).

(** What [res.writeHead] and [res.end] send. *)
Record Reply : Type := { reply_status : Z; reply_type : string; reply_body : string }.

(** The server of one login attempt: its promise, whether its socket
    listens, how often [server.close()] was called, when the timer set by
    [setTimeout] is due if it has not fired, the replies sent, and the
    exception that ended the process, if one left a handler uncaught. *)
Record Listener : Type := {
  promise : Promise;
  listening : bool;
  closeCalls : nat;
  timer : option Z;
  replies : list Reply;
  uncaught : option JsError
}.

(** A promise settles once; a later [resolve] or [reject] does nothing. *)
Definition resolve (code : string) (st : Listener) : Listener :=
  match promise st with
  | Pending =>
      {| promise := Resolved code; listening := listening st; closeCalls := closeCalls st;
         timer := timer st; replies := replies st; uncaught := uncaught st |}
  | _ => st
  end.

Definition reject (reason : JsError) (st : Listener) : Listener :=
  match promise st with
  | Pending =>
      {| promise := Rejected reason; listening := listening st; closeCalls := closeCalls st;
         timer := timer st; replies := replies st; uncaught := uncaught st |}
  | _ => st
  end.

(** [server.close()]: the socket stops listening; on a server that is
    closed already the call does nothing more. *)
Definition server_close (st : Listener) : Listener :=
  {| promise := promise st; listening := false; closeCalls := S (closeCalls st);
     timer := timer st; replies := replies st; uncaught := uncaught st |}.

Definition respond (status : Z) (type body : string) (st : Listener) : Listener :=
  {| promise := promise st; listening := listening st; closeCalls := closeCalls st;
     timer := timer st;
     replies :=
       replies st ++ [{| reply_status := status; reply_type := type; reply_body := body |}];
     uncaught := uncaught st |}.

Definition nonempty (o : option string) : bool :=
  match o with
  | Some s => negb (String.eqb s "")
  | None => false
  end.

Definition success_page : string :=
  "
          <html>
            <body style=" +:+ String DQUOTE "font-family: system-ui; padding: 40px; text-align: center;"
  +:+ String DQUOTE ">
              <h1>âœ… Authorization Successful</h1>
              <p>You can close this window and return to the CLI.</p>
            </body>
          </html>
        ".

(** The request handler given to [http.createServer], from its second
    statement on: [url] is what [new URL(...)] made of the request. *)
Definition onRequest (expectedState : string) (url : URL) (st : Listener) : Listener :=
  if String.eqb (pathname url) "/callback" then
    let code := searchParams_get "code" (searchParams url) in
    let state := searchParams_get "state" (searchParams url) in
    let error := searchParams_get "error" (searchParams url) in
    let errorDescription := searchParams_get "error_description" (searchParams url) in
    if nonempty error then
      let shown :=
        if nonempty errorDescription then default "" errorDescription else default "" error in
      reject (Error shown)
        (server_close
           (respond 400 "text/html"
              ("<html><body><h1>Authorization Failed</h1><p>" +:+ shown +:+ "</p></body></html>") st))
    else if negb (bool_decide (state = Some expectedState)) then
      reject (Error "Invalid state parameter")
        (server_close
           (respond 400 "text/html"
              "<html><body><h1>Invalid State</h1><p>CSRF validation failed.</p></body></html>" st))
    else if negb (nonempty code) then
      reject (Error "No authorization code received")
        (server_close
           (respond 400 "text/html"
              "<html><body><h1>No Code</h1><p>Authorization code not received.</p></body></html>" st))
    else
      resolve (default "" code) (server_close (respond 200 "text/html" success_page st))
  else
    respond 404 "text/plain" "Not found" st.

(** [server.on('error', ...)]. *)
Definition onError (err : JsError) (st : Listener) : Listener := reject err st.

(** The callback given to [setTimeout]; the timer is spent once it ran. *)
Definition onTimeout (st : Listener) : Listener :=
  let st' := reject (Error "Authorization timeout") (server_close st) in
  {| promise := promise st'; listening := listening st'; closeCalls := closeCalls st';
     timer := None; replies := replies st'; uncaught := uncaught st' |}.

(** [startCallbackServer(port, expectedState)], once the server listens:
    the promise is pending and the timer is set to five minutes. Nothing
    in the function clears the timer. *)
Definition startCallbackServer : Listener :=
  {| promise := Pending; listening := true; closeCalls := 0%nat;
     timer := Some (5 * 60 * 1000); replies := []; uncaught := None |}.

(** An exception that leaves a handler is caught by nothing in the
    program: the runtime ends the process, and its socket with it. The
    promise stays as it is, and a timer that is set never fires. *)
Definition exit_uncaught (e : JsError) (st : Listener) : Listener :=
  {| promise := promise st; listening := false; closeCalls := closeCalls st;
     timer := timer st; replies := replies st; uncaught := Some e |}.

(** The first statement of the request handler is
    [new URL(req.url || '', `http://localhost:${port}`)], outside any
    [try]: [parsed] is the URL it makes of the target of the request, or
    the TypeError it throws on a target that is no URL (as [//], which
    names no host). *)
Definition onIncoming (expectedState : string) (parsed : Result URL) (st : Listener)
  : Listener :=
  match parsed with
  | Ok url => onRequest expectedState url st
  | Throw e => exit_uncaught e st
  end.

(** What the event loop hands to the server, with the time in
    milliseconds since [startCallbackServer]: a request, given by what
    [new URL] makes of its target, or an error of the server. A request
    can still come after [server.close()], on a connection that was open
    before. *)
Inductive Event : Type :=
| Incoming (parsed : Result URL)
| ServerError (err : JsError).

(** A timer that is due runs before the event that arrives at or after
    its time. *)
Definition fire_due (now : Z) (st : Listener) : Listener :=
  match timer st with
  | Some due => if due <=? now then onTimeout st else st
  | None => st
  end.

(** Once the process has ended nothing is handled any more. *)
Definition deliver (expectedState : string) (st : Listener) (a : Z * Event) : Listener :=
  match uncaught st with
  | Some _ => st
  | None =>
      let st' := fire_due a.1 st in
      match a.2 with
      | Incoming parsed => onIncoming expectedState parsed st'
      | ServerError err => onError err st'
      end
  end.

(** The loop runs the arrivals in their order and then, if the process
    still runs, waits for the timer, if it is still set. *)
Definition idle (st : Listener) : Listener :=
  match uncaught st, timer st with
  | None, Some _ => onTimeout st
  | _, _ => st
  end.

Definition run_listener (expectedState : string) (arrivals : list (Z * Event)) : Listener :=
  idle (fold_left (deliver expectedState) arrivals startCallbackServer).

(** * [src/lib/client.ts] *)

(** ** The HTTP exchange *)

(** What [fetch(url, init)] is called with. *)
Record Request : Type := {
  url : string;
  method : option string;
  headers : list (string * string);
  body : option string
}.

Record Response : Type := { status : Z; statusText : string; responseText : string }.

(** [response.ok]. *)
Definition ok (r : Response) : bool := (200 <=? status r) && (status r <=? 299).

(** One call of [fetch] and how it settled: with a response, or rejected
    when the network failed. *)
Definition Exchange : Type := Request * Result Response.

(** The remote side: its answer to a request, given the exchanges before. *)
Definition Network : Type := list Exchange → Request → Result Response.

(** An asynchronous call: from the exchanges made so far to its result
    and the exchanges made when it settles. [await] is [≫=]. *)
Definition Call (A : Type) : Type := list Exchange → Result A * list Exchange.

#[global] Instance Call_ret : MRet Call := λ A a log, (Ok a, log).

#[global] Instance Call_bind : MBind Call := λ A B k m log,
  match m log with
  | (Ok a, log') => k a log'
  | (Throw e, log') => (Throw e, log')
  end.

Definition throw {A} (e : JsError) : Call A := λ log, (Throw e, log).

(** A synchronous step that may throw. *)
Definition lift {A} (r : Result A) : Call A := λ log, (r, log).

Definition fetch (net : Network) (req : Request) : Call Response :=
  λ log, let r := net log req in (r, log ++ [(req, r)]).

Definition API_BASE : string := "https://api.linkedin.com/v2".
Definition USERINFO_URL : string := "https://api.linkedin.com/v2/userinfo".

(** The second argument of [request]: a [RequestInit] with the two fields
    the client ever sets ([headers] is always left out). *)
Record RequestInit : Type := { init_method : option string; init_body : option string }.

Definition no_init : RequestInit := {| init_method := None; init_body := None |}.

Definition POST (data : option string) : RequestInit :=
  {| init_method := Some "POST"; init_body := data |}.

Definition isLocalPath (str : string) : bool :=
  startsWith str "/" || startsWith str "./" || startsWith str "../" || startsWith str "~".

Record LinkedInClient : Type := { tokens : OAuthTokens }.

Section Client.

(** The world of a client call: the network, the files that
    [fs.existsSync] and [fs.readFileSync] find under a path text,
    [process.env.HOME] and [path.join]. *)
Variable net : Network.
Variable existsSync : string → bool.
Variable readFileSync : string → Result string.
Variable HOME : option string.
Variable path_join : string → string → string.

(** [getImageBuffer]: the bytes of a local file or of a fetched URL. *)
Definition getImageBuffer (source : string) : Call string :=
  if isLocalPath source then
    let filePath :=
      if startsWith source "~"
      then path_join (default "" HOME) (slice 1 source)
      else source in
    if negb (existsSync filePath) then throw (Error ("File not found: " +:+ filePath))
    else lift (readFileSync filePath)
  else
    response ← fetch net {| url := source; method := None; headers := []; body := None |};
    if negb (ok response)
    then throw (Error ("Failed to fetch image: " +:+ statusText response))
    else mret (responseText response).

(** [LinkedInClient.request]. *)
Definition request (this : LinkedInClient) (endpoint : string) (options : RequestInit)
  : Call jsval :=
  let url := if startsWith endpoint "http" then endpoint else API_BASE +:+ endpoint in
  response ← fetch net
    {| url := url;
       method := init_method options;
       headers := [("Authorization", "Bearer " +:+ access_token (tokens this));
                   ("Content-Type", "application/json");
                   ("X-Restli-Protocol-Version", "2.0.0");
                   ("LinkedIn-Version", "202401")];
       body := init_body options |};
  if negb (ok response) then
    let errorText := responseText response in
    let error :=
      match JSON.parse errorText with
      | Some e => e
      | None => VObj [("status", VNum (status response)); ("message", VStr errorText)]
      end in
    message ← lift (get error "message");
    shown ← lift (ToString (js_or message (VStr errorText)));
    throw (Error ("LinkedIn API Error (" +:+ Number_toString (status response) +:+ "): " +:+ shown))
  else
    let text := responseText response in
    if String.eqb text "" then mret (VObj [])
    else
      match JSON.parse text with
      | Some v => mret v
      | None => throw SyntaxError
      end.

Definition getProfile (this : LinkedInClient) : Call jsval :=
  request this USERINFO_URL no_init.

Definition getMemberUrn (this : LinkedInClient) : Call string :=
  profile ← getProfile this;
  sub ← lift (get profile "sub");
  sub ← lift (ToString sub);
  mret ("urn:li:person:" +:+ sub).

Definition visibility_or_public (options : CreatePostOptions) : jsval :=
  VStr (match visibility options with Some v => Visibility_string v | None => "PUBLIC" end).

(** The payload of [createPost], as it stands when it is serialized. *)
Definition createPost_payload (authorUrn : string) (options : CreatePostOptions) : jsval :=
  let commentary := ("shareCommentary", VObj [("text", VStr (text options))]) in
  let shareContent :=
    if nonempty (articleUrl options) then
      VObj [commentary;
            ("shareMediaCategory", VStr "ARTICLE");
            ("media",
             VArr [VObj [("status", VStr "READY");
                         ("originalUrl", optional VStr (articleUrl options));
                         ("title",
                          if nonempty (articleTitle options)
                          then VObj [("text", optional VStr (articleTitle options))]
                          else VUndefined);
                         ("description",
                          if nonempty (articleDescription options)
                          then VObj [("text", optional VStr (articleDescription options))]
                          else VUndefined)]])]
    else
      VObj [commentary; ("shareMediaCategory", VStr "NONE")] in
  VObj [("author", VStr authorUrn);
        ("lifecycleState", VStr "PUBLISHED");
        ("visibility",
         VObj [("com.linkedin.ugc.MemberNetworkVisibility", visibility_or_public options)]);
        ("specificContent", VObj [("com.linkedin.ugc.ShareContent", shareContent)])].

Definition createPost (this : LinkedInClient) (options : CreatePostOptions) : Call jsval :=
  authorUrn ← getMemberUrn this;
  let payload := createPost_payload authorUrn options in
  request this "/ugcPosts" (POST (JSON.stringify 0 payload)).

Definition registerImageUpload (this : LinkedInClient) (ownerUrn : string) : Call jsval :=
  let payload :=
    VObj [("registerUploadRequest",
           VObj [("recipes", VArr [VStr "urn:li:digitalmediaRecipe:feedshare-image"]);
                 ("owner", VStr ownerUrn);
                 ("serviceRelationships",
                  VArr [VObj [("relationshipType", VStr "OWNER");
                              ("identifier", VStr "urn:li:userGeneratedContent")]])])] in
  request this "/assets?action=registerUpload" (POST (JSON.stringify 0 payload)).

(** The payload of the two image posts. *)
Definition image_payload (author : string) (options : CreatePostOptions) (asset : jsval) : jsval :=
  VObj [("author", VStr author);
        ("lifecycleState", VStr "PUBLISHED");
        ("visibility",
         VObj [("com.linkedin.ugc.MemberNetworkVisibility", visibility_or_public options)]);
        ("specificContent",
         VObj [("com.linkedin.ugc.ShareContent",
                VObj [("shareCommentary", VObj [("text", VStr (text options))]);
                      ("shareMediaCategory", VStr "IMAGE");
                      ("media", VArr [VObj [("status", VStr "READY"); ("media", asset)]])])])].

Definition createImagePost (this : LinkedInClient) (options : CreatePostOptions)
    (imageUrl : string) : Call jsval :=
  authorUrn ← getMemberUrn this;
  registerResponse ← registerImageUpload this authorUrn;
  value ← lift (get registerResponse "value");
  uploadMechanism ← lift (get value "uploadMechanism");
  httpRequest ← lift (get uploadMechanism "com.linkedin.digitalmedia.uploading.MediaUploadHttpRequest");
  uploadUrl ← lift (get httpRequest "uploadUrl");
  value' ← lift (get registerResponse "value");
  asset ← lift (get value' "asset");
  imageBuffer ← getImageBuffer imageUrl;
  target ← lift (ToString uploadUrl);
  uploadResponse ← fetch net
    {| url := target;
       method := Some "PUT";
       headers := [("Authorization", "Bearer " +:+ access_token (tokens this));
                   ("Content-Type", "application/octet-stream")];
       body := Some imageBuffer |};
  if negb (ok uploadResponse)
  then throw (Error ("Failed to upload image: " +:+ statusText uploadResponse))
  else
    request this "/ugcPosts" (POST (JSON.stringify 0 (image_payload authorUrn options asset))).

Definition createOrganizationPost_payload (organizationId : string)
    (options : CreatePostOptions) : jsval :=
  let orgUrn := "urn:li:organization:" +:+ organizationId in
  VObj [("author", VStr orgUrn);
        ("lifecycleState", VStr "PUBLISHED");
        ("visibility",
         VObj [("com.linkedin.ugc.MemberNetworkVisibility", visibility_or_public options)]);
        ("specificContent",
         VObj [("com.linkedin.ugc.ShareContent",
                VObj [("shareCommentary", VObj [("text", VStr (text options))]);
                      ("shareMediaCategory", VStr "NONE")])])].

Definition createOrganizationPost (this : LinkedInClient) (organizationId : string)
    (options : CreatePostOptions) : Call jsval :=
  request this "/ugcPosts"
    (POST (JSON.stringify 0 (createOrganizationPost_payload organizationId options))).

Definition createOrganizationImagePost (this : LinkedInClient) (organizationId : string)
    (options : CreatePostOptions) (imageUrl : string) : Call jsval :=
  let orgUrn := "urn:li:organization:" +:+ organizationId in
  registerResponse ← registerImageUpload this orgUrn;
  value ← lift (get registerResponse "value");
  uploadMechanism ← lift (get value "uploadMechanism");
  httpRequest ← lift (get uploadMechanism "com.linkedin.digitalmedia.uploading.MediaUploadHttpRequest");
  uploadUrl ← lift (get httpRequest "uploadUrl");
  value' ← lift (get registerResponse "value");
  asset ← lift (get value' "asset");
  imageBuffer ← getImageBuffer imageUrl;
  target ← lift (ToString uploadUrl);
  uploadResponse ← fetch net
    {| url := target;
       method := Some "PUT";
       headers := [("Authorization", "Bearer " +:+ access_token (tokens this));
                   ("Content-Type", "application/octet-stream")];
       body := Some imageBuffer |};
  if negb (ok uploadResponse)
  then throw (Error ("Failed to upload image: " +:+ statusText uploadResponse))
  else
    request this "/ugcPosts" (POST (JSON.stringify 0 (image_payload orgUrn options asset))).

End Client.

(** * Worlds of the examples *)

Definition hour_token (created : string) : OAuthTokens :=
  {| access_token := "test-token"; expires_in := 3600; refresh_token := None;
     refresh_token_expires_in := None; scope := "openid profile"; token_type := "Bearer";
     created_at := created |}.

(** Redirects that reach the listener of a login whose state is
    [s3cret]: a genuine one, one with a forged state, and one with a
    forged state that also reports an error. *)
Definition genuine_callback : URL :=
  {| pathname := "/callback"; searchParams := [("code", "abc"); ("state", "s3cret")] |}.

Definition forged_callback : URL :=
  {| pathname := "/callback"; searchParams := [("code", "abc"); ("state", "forged")] |}.

Definition denied_forged_callback : URL :=
  {| pathname := "/callback";
     searchParams := [("error", "access_denied"); ("state", "forged"); ("code", "abc")] |}.

Definition favicon_request : URL := {| pathname := "/favicon.ico"; searchParams := [] |}.

(** The request [GET //]: its target names no host, and [new URL]
    throws a TypeError on it. *)
Definition double_slash_request : Event := Incoming (Throw TypeError).

(** A random source that counts up from its cursor. *)
Definition counting_rng : Rng :=
  {| tape := λ i, default x00 (Byte.of_N (N.of_nat i mod 256)); cursor := 0%nat |}.

(** A client and the options of two posts: a plain one, and one that
    gives a title without a URL. *)
Definition test_client : LinkedInClient :=
  {| tokens := hour_token "2024-01-01T00:00:00.000Z" |}.

Definition plain_options : CreatePostOptions :=
  {| text := "hi"; visibility := None; mediaUrls := None; articleUrl := None;
     articleTitle := None; articleDescription := None |}.

Definition title_only_options : CreatePostOptions :=
  {| text := "hi"; visibility := None; mediaUrls := None; articleUrl := None;
     articleTitle := Some "T"; articleDescription := None |}.

Definition article_options : CreatePostOptions :=
  {| text := "hi"; visibility := Some CONNECTIONS; mediaUrls := None;
     articleUrl := Some "https://example.com/a"; articleTitle := Some "T";
     articleDescription := None |}.

Definition json_text (v : jsval) : string := default "" (JSON.stringify 0 v).

Definition respond_with (code : Z) (reason body : string) : Result Response :=
  Ok {| status := code; statusText := reason; responseText := body |}.

(** Remote sides that always answer the same: 200 with a body that is no
    JSON, 403 with a structured error, 500 with the JSON text [null]. *)
Definition net_plain_ok : Network := λ _ _, respond_with 200 "OK" "OK".

Definition net_forbidden : Network := λ _ _,
  respond_with 403 "Forbidden"
    (json_text (VObj [("status", VNum 403); ("message", VStr "Not enough permissions")])).

Definition net_null_error : Network := λ _ _, respond_with 500 "Internal Server Error" "null".

(** A remote side that serves the identity, the registration, the image
    and the publish endpoint, and answers the PUT with [put_status]. *)
Definition upstream (put_status : Z) : Network := λ _ req,
  if String.eqb (url req) USERINFO_URL then
    respond_with 200 "OK" (json_text (VObj [("sub", VStr "42"); ("name", VStr "Ada")]))
  else if String.eqb (url req) "https://api.linkedin.com/v2/assets?action=registerUpload" then
    respond_with 200 "OK"
      (json_text
         (VObj [("value",
                 VObj [("uploadMechanism",
                        VObj [("com.linkedin.digitalmedia.uploading.MediaUploadHttpRequest",
                               VObj [("uploadUrl", VStr "https://upload.example/1")])]);
                       ("asset", VStr "urn:li:digitalmediaAsset:1")])]))
  else if String.eqb (url req) "https://upload.example/1" then
    respond_with put_status "" ""
  else if String.eqb (url req) "https://api.linkedin.com/v2/ugcPosts" then
    respond_with 201 "Created" (json_text (VObj [("id", VStr "urn:li:share:9")]))
  else if String.eqb (url req) "https://img.example/cat.png" then
    respond_with 200 "OK" "PNG"
  else respond_with 404 "Not Found" "".

(** Local files: none but [/tmp/cat.png]. *)
Definition one_file_exists (p : string) : bool := String.eqb p "/tmp/cat.png".

Definition one_file_read (p : string) : Result string :=
  if String.eqb p "/tmp/cat.png" then Ok "PNG" else Throw (SystemError "ENOENT").

Definition join_slash (a b : string) : string := a +:+ b.

(** Home directories: an empty one, one with the legacy root only, one
    with both roots and a record in the primary one. *)
Definition empty_home : fs.node := fs.Dir ∅.

Definition legacy_home : fs.node :=
  fs.Dir {[ ".moltbot" := fs.Dir {[ "credentials" := fs.Dir ∅ ]} ]}.

Definition both_home : fs.node :=
  fs.Dir (<[ ".clawdbot" := fs.Dir {[ "credentials" := fs.Dir {[ "linkedin.json" := fs.File "{}" ]} ]} ]>
            {[ ".moltbot" := fs.Dir {[ "credentials" := fs.Dir ∅ ]} ]}).

(** A record whose lifetime is no finite number. *)
Definition endless_token : OAuthTokens :=
  {| access_token := "test-token"; expires_in := NotFinite Infinity; refresh_token := None;
     refresh_token_expires_in := None; scope := "openid profile"; token_type := "Bearer";
     created_at := "2024-01-01T00:00:00.000Z" |}.

Definition long_token : OAuthTokens :=
  {| access_token := "AQV" +:+ String DQUOTE (String BACKSLASH "x"); expires_in := 5184000;
     refresh_token := Some "AQX"; refresh_token_expires_in := Some (Int 31536000);
     scope := "openid profile w_member_social"; token_type := "Bearer";
     created_at := "2024-01-01T00:00:00.000Z" |}.

(** * The vocabulary of the properties *)

(** ** JSON texts *)

Definition not_digit_next (s : string) : bool :=
  match s with
  | EmptyString => true
  | String c _ => negb (JSON.is_digit c)
  end.

(** What may follow a serialized value: the end of the text, a comma, a
    closing bracket, or the line feed before one. *)
Definition delimited (s : string) : bool :=
  match s with
  | EmptyString => true
  | String c _ =>
      Ascii.eqb c "," || Ascii.eqb c "]" || Ascii.eqb c "}" || Ascii.eqb c LF
  end.

Definition elem_text (gap inner : string) (x : jsval) : string :=
  default "null" (JSON.serialize gap inner x).

Definition clean_elem (x : jsval) : jsval :=
  match x with VUndefined => VNull | _ => JSON.clean x end.

Definition is_undefined (x : jsval) : bool :=
  match x with VUndefined => true | _ => false end.

Definition kept (kvs : list (string * jsval)) : list (string * jsval) :=
  List.filter (λ kv, negb (is_undefined kv.2)) kvs.

Definition member_text (gap inner : string) (kv : string * jsval) : string :=
  JSON.member gap kv.1 (elem_text gap inner kv.2).

Definition clean_member (kv : string * jsval) : string * jsval := (kv.1, JSON.clean kv.2).

(** A line break and the indentation, or nothing in the compact form. *)
Definition brk (gap indent : string) : string :=
  if JSON.is_compact gap then "" else String LF indent.

(** The first character of a serialized value starts a value. *)
Definition opens_value (s : string) : bool :=
  match s with
  | EmptyString => false
  | String c _ => negb (JSON.is_ws c) && negb (Ascii.eqb c "]") && negb (Ascii.eqb c "}")
  end.

Definition reads_back (v : jsval) : Prop :=
  ∀ gap indent str rest fuel,
    JSON.blank gap = true → JSON.blank indent = true →
    JSON.plain v = true →
    JSON.serialize gap indent v = Some str →
    delimited rest = true →
    (String.length str ≤ fuel)%nat →
    JSON.parse_value fuel (str +:+ rest) = Some (JSON.clean v, rest).

(** ** The credential store *)

Definition is_finite (a : number) : bool :=
  match a with
  | Int _ => true
  | NotFinite _ => false
  end.

(** The numbers of a record are finite. *)
Definition finite_numbers (t : OAuthTokens) : bool :=
  is_finite (expires_in t)
  && match refresh_token_expires_in t with
     | Some n => is_finite n
     | None => true
     end.

(** A number as it comes back from its JSON text: [null] in the place of
    one that is not finite. *)
Definition Number_json (a : number) : jsval :=
  match a with
  | Int n => VNum n
  | NotFinite _ => VNull
  end.

(** The object of a record as it comes back from its JSON text. *)
Definition OAuthTokens_json (t : OAuthTokens) : jsval :=
  VObj ([("access_token", VStr (access_token t));
         ("expires_in", Number_json (expires_in t))]
        ++ match refresh_token t with Some r => [("refresh_token", VStr r)] | None => [] end
        ++ match refresh_token_expires_in t with
           | Some n => [("refresh_token_expires_in", Number_json n)]
           | None => []
           end
        ++ [("scope", VStr (scope t));
            ("token_type", VStr (token_type t));
            ("created_at", VStr (created_at t))]).

(** The credentials directory holds, or can take, a file of the name. *)
Definition can_hold (dir : fs.path) (root : fs.node) : Prop :=
  ∃ d, fs.lookup dir root = Some (fs.Dir d) ∧ ∀ e, d !! "linkedin.json" ≠ Some (fs.Dir e).

(** ** Runs of the callback listener *)

Definition is_callback (url : URL) : bool := String.eqb (pathname url) "/callback".

Definition counts_as_callback (a : Z * Event) : bool :=
  match a.2 with
  | Incoming (Ok url) => is_callback url
  | _ => false
  end.

Definition callbacks (arrivals : list (Z * Event)) : nat :=
  length (List.filter counts_as_callback arrivals).

(** The arrival is no request whose URL fails to parse. *)
Definition parses (a : Z * Event) : bool :=
  match a.2 with
  | Incoming (Throw _) => false
  | _ => true
  end.

(** Before its deadline an arrival is quiet when it is a request to
    another path than the callback's. *)
Definition quiet (a : Z * Event) : Prop :=
  a.1 < 5 * 60 * 1000 → ∃ url, a.2 = Incoming (Ok url) ∧ is_callback url = false.

(** The process runs, and the timer is set and [server.close()] was
    called [k] times, or it has fired: then the promise is settled, the
    socket is closed and [server.close()] was called once more. *)
Definition timer_state (k : nat) (st : Listener) : Prop :=
  uncaught st = None
  ∧ ((timer st = Some (5 * 60 * 1000) ∧ closeCalls st = k)
     ∨ (timer st = None ∧ closeCalls st = S k ∧ listening st = false
        ∧ promise st ≠ Pending)).

(** While only quiet arrivals come, the promise is pending with the timer
    set and the process running, or the timer has fired and rejected it. *)
Definition awaiting (st : Listener) : Prop :=
  (timer st = Some (5 * 60 * 1000) ∧ promise st = Pending ∧ uncaught st = None)
  ∨ promise st = Rejected (Error "Authorization timeout").

(** The socket is closed once the timer has fired or the process has
    ended. *)
Definition released (st : Listener) : Prop :=
  timer st = None ∨ uncaught st ≠ None → listening st = false.

(** The socket is closed once [server.close()] has been called. *)
Definition closed_by_call (st : Listener) : Prop :=
  closeCalls st ≠ 0%nat → listening st = false.

(** ** The random source *)

(** The source does not repeat itself at [g]: the 32 bytes it gives to
    the next call are not the 32 bytes it gives to the call after. A
    cryptographic source, as the one of [crypto.randomBytes], gives 256
    bits twice with a chance of 2^-256 only. *)
Definition fresh (g : Rng) : Prop :=
  (randomBytes 32 g).1 ≠ (randomBytes 32 (randomBytes 32 g).2).1.

(** ** The base64url alphabet *)

Definition sextet_value (c : ascii) : N :=
  let n := N_of_ascii c in
  (if (65 <=? n) && (n <=? 90) then n - 65
   else if (97 <=? n) && (n <=? 122) then n - 71
   else if (48 <=? n) && (n <=? 57) then n + 4
   else if n =? 45 then 62
   else 63)%N.

(** ** Requests and their outcome *)

(** The request that [request] sends. *)
Definition request_of (this : LinkedInClient) (endpoint : string) (options : RequestInit)
  : Request :=
  {| url := if startsWith endpoint "http" then endpoint else API_BASE +:+ endpoint;
     method := init_method options;
     headers := [("Authorization", "Bearer " +:+ access_token (tokens this));
                 ("Content-Type", "application/json");
                 ("X-Restli-Protocol-Version", "2.0.0");
                 ("LinkedIn-Version", "202401")];
     body := init_body options |}.

(** What [request] makes of a response. *)
Definition outcome_of (response : Response) : Result jsval :=
  if negb (ok response) then
    let errorText := responseText response in
    let error :=
      match JSON.parse errorText with
      | Some e => e
      | None => VObj [("status", VNum (status response)); ("message", VStr errorText)]
      end in
    match get error "message" with
    | Throw e => Throw e
    | Ok message =>
        match ToString (js_or message (VStr errorText)) with
        | Throw e => Throw e
        | Ok shown =>
            Throw (Error ("LinkedIn API Error (" +:+ Number_toString (status response)
                          +:+ "): " +:+ shown))
        end
    end
  else if String.eqb (responseText response) "" then Ok (VObj [])
  else
    match JSON.parse (responseText response) with
    | Some v => Ok v
    | None => Throw SyntaxError
    end.

(** The request of a post to the publish endpoint. *)
Definition publish_request (this : LinkedInClient) (data : string) : Request :=
  {| url := "https://api.linkedin.com/v2/ugcPosts";
     method := Some "POST";
     headers := [("Authorization", "Bearer " +:+ access_token (tokens this));
                 ("Content-Type", "application/json");
                 ("X-Restli-Protocol-Version", "2.0.0");
                 ("LinkedIn-Version", "202401")];
     body := Some data |}.

(** The media entry of a parsed share content, if it has one. *)
Definition media_entry (shareContent : jsval) : option jsval :=
  match get shareContent "media" with
  | Ok (VArr [entry]) => Some entry
  | _ => None
  end.

(** ** The phases of a pipeline *)

(** The phase an exchange belongs to, read off its request. *)
Inductive Phase : Type := Identity | Register | Source | Transfer | Publish | Other.

#[global] Instance Phase_eq_dec : EqDecision Phase.
Proof. solve_decision. Defined.

Definition phase (e : Exchange) : Phase :=
  match method e.1 with
  | None =>
      match headers e.1 with
      | [] => Source
      | _ => if String.eqb (url e.1) USERINFO_URL then Identity else Other
      end
  | Some m =>
      if String.eqb m "PUT" then Transfer
      else if String.eqb m "POST" then
        if String.eqb (url e.1) (API_BASE +:+ "/ugcPosts") then Publish
        else if String.eqb (url e.1) (API_BASE +:+ "/assets?action=registerUpload") then Register
        else Other
      else Other
  end.

(** The exchange got a response, and a 2xx one. *)
Definition succeeded (e : Exchange) : bool :=
  match e.2 with
  | Ok response => ok response
  | Throw _ => false
  end.

(** The exchanges of a pipeline in their order: with or without the
    identity lookup, with or without the fetch of a remote source. *)
Definition plan (with_identity : bool) (imageUrl : string) : list Phase :=
  (if with_identity then [Identity] else [])
  ++ [Register]
  ++ (if isLocalPath imageUrl then [] else [Source])
  ++ [Transfer; Publish].

(** The exchanges go through the phases of the plan one by one, and none
    is made after one that did not succeed. *)
Fixpoint follows (phases : list Phase) (new : list Exchange) : bool :=
  match new, phases with
  | [], _ => true
  | e :: rest, p :: phases' =>
      bool_decide (phase e = p)
      && match rest with
         | [] => true
         | _ => succeeded e && follows phases' rest
         end
  | _ :: _, [] => false
  end.

Definition source_request (source : string) : Request :=
  {| url := source; method := None; headers := []; body := None |}.

Definition upload_request (this : LinkedInClient) (target imageBuffer : string) : Request :=
  {| url := target;
     method := Some "PUT";
     headers := [("Authorization", "Bearer " +:+ access_token (tokens this));
                 ("Content-Type", "application/octet-stream")];
     body := Some imageBuffer |}.

Section Pipeline.

Variable net : Network.
Variable existsSync : string → bool.
Variable readFileSync : string → Result string.
Variable HOME : option string.
Variable path_join : string → string → string.

(** The file a local image source names, with [~] expanded. *)
Definition image_file (source : string) : string :=
  if startsWith source "~" then path_join (default "" HOME) (slice 1 source) else source.

(** A local source that cannot be read. *)
Definition source_unresolved (source : string) : Prop :=
  isLocalPath source = true
  ∧ (existsSync (image_file source) = false ∨ isOk (readFileSync (image_file source)) = false).

(** Steps 1 to 4, which the two image posts share. *)
Definition upload_steps (this : LinkedInClient) (ownerUrn : string)
    (options : CreatePostOptions) (imageUrl : string) : Call jsval :=
  registerResponse ← registerImageUpload net this ownerUrn;
  value ← lift (get registerResponse "value");
  uploadMechanism ← lift (get value "uploadMechanism");
  httpRequest ← lift (get uploadMechanism "com.linkedin.digitalmedia.uploading.MediaUploadHttpRequest");
  uploadUrl ← lift (get httpRequest "uploadUrl");
  value' ← lift (get registerResponse "value");
  asset ← lift (get value' "asset");
  imageBuffer ← getImageBuffer net existsSync readFileSync HOME path_join imageUrl;
  target ← lift (ToString uploadUrl);
  uploadResponse ← fetch net (upload_request this target imageBuffer);
  if negb (ok uploadResponse)
  then throw (Error ("Failed to upload image: " +:+ statusText uploadResponse))
  else
    request net this "/ugcPosts" (POST (JSON.stringify 0 (image_payload ownerUrn options asset))).

(** What C3 says of the exchanges [new] of one run of a pipeline. *)
Definition orderly (with_identity : bool) (imageUrl : string) (new : list Exchange) : Prop :=
  (* the exchanges are made in the order of the plan *)
  map phase new `prefix_of` plan with_identity imageUrl
  (* and only after the one before succeeded *)
  ∧ (∀ pre e post, new = pre ++ e :: post → post ≠ [] → succeeded e = true)
  (* a publish request is the last exchange, with all the others before it *)
  ∧ (∀ pre e post, new = pre ++ e :: post → phase e = Publish →
       post = []
       ∧ map phase pre ++ [Publish] = plan with_identity imageUrl
       ∧ Forall (λ x, succeeded x = true) pre)
  (* no publish request after a failed fetch of the image or a failed PUT *)
  ∧ (∀ e, e ∈ new → phase e = Source ∨ phase e = Transfer → succeeded e = false →
       ∀ e', e' ∈ new → phase e' ≠ Publish)
  (* nor when a local image cannot be read *)
  ∧ (source_unresolved imageUrl → ∀ e', e' ∈ new → phase e' ≠ Publish).

End Pipeline.

(** * [src/lib/oauth.ts]: the configuration, the authorization URL and the
    token endpoint *)

(** ** The runtime: [URLSearchParams], [split], [toISOString], spread *)

(** A string as the USVString that [URLSearchParams] takes: a lone
    surrogate, which the model holds in the three-byte form [utf8] gives
    it (ED A0..BF xx), becomes U+FFFD. *)
Fixpoint USVString (s : string) : string :=
  match s with
  | EmptyString => ""
  | String a s1 =>
      match s1 with
      | String b (String c rest) =>
          if ((N_of_ascii a =? 237) && (160 <=? N_of_ascii b) && (N_of_ascii b <=? 191))%N
          then String "239" (String "191" (String "189" (USVString rest)))
          else String a (USVString s1)
      | _ => String a (USVString s1)
      end
  end.

(** The bytes that the application/x-www-form-urlencoded serializer
    leaves as they are: the ASCII letters and digits, [*], [-], [.] and
    [_]. *)
Definition is_form_safe (c : ascii) : bool :=
  let n := N_of_ascii c in
  (((48 <=? n) && (n <=? 57)) || ((65 <=? n) && (n <=? 90)) || ((97 <=? n) && (n <=? 122))
   || (n =? 42) || (n =? 45) || (n =? 46) || (n =? 95))%N.

Definition upper_hex (d : N) : ascii :=
  if (d <? 10)%N then ascii_of_N (48 + d) else ascii_of_N (55 + d).

Definition percent (c : ascii) : string :=
  let n := N_of_ascii c in
  String "%" (String (upper_hex (n / 16)) (String (upper_hex (n mod 16)) "")).

Definition form_byte (c : ascii) : string :=
  if (N_of_ascii c =? 32)%N then "+"
  else if is_form_safe c then String c ""
  else percent c.

Fixpoint form_bytes (s : string) : string :=
  match s with
  | EmptyString => ""
  | String c s' => form_byte c +:+ form_bytes s'
  end.

Definition form_encode (s : string) : string := form_bytes (USVString s).

(** [new URLSearchParams(record).toString()], the record given as the
    list of its properties. *)
Definition URLSearchParams_toString (params : list (string * string)) : string :=
  join "&" (map (λ kv, form_encode kv.1 +:+ "=" +:+ form_encode kv.2) params).

(** [String.prototype.split] with a separator of one character. *)
Fixpoint String_split (sep : ascii) (s : string) : list string :=
  match s with
  | EmptyString => [""]
  | String c s' =>
      if Ascii.eqb c sep then "" :: String_split sep s'
      else
        match String_split sep s' with
        | p :: ps => String c p :: ps
        | [] => [String c ""]
        end
  end.

(** [Date.prototype.toISOString] of a valid date, from its time value in
    milliseconds. *)
Definition civil_from_days (days : Z) : Z * Z * Z :=
  let z := days + 719468 in
  let era := z / 146097 in
  let doe := z - era * 146097 in
  let yoe := (doe - doe / 1460 + doe / 36524 - doe / 146096) / 365 in
  let doy := doe - (365 * yoe + yoe / 4 - yoe / 100) in
  let mp := (5 * doy + 2) / 153 in
  let d := doy - (153 * mp + 2) / 5 + 1 in
  let m := if mp <? 10 then mp + 3 else mp - 9 in
  (yoe + era * 400 + (if m <=? 2 then 1 else 0), m, d).

(** The last [width] decimal digits of [n], with zeros before them. *)
Fixpoint pad (width : nat) (n : Z) : string :=
  match width with
  | O => ""
  | S w => pad w (n / 10) +:+ String (digit_char (Z.to_N (n mod 10))) ""
  end.

Definition Date_toISOString (t : Z) : string :=
  let '(y, m, d) := civil_from_days (t / 86400000) in
  let ms := t mod 86400000 in
  let year :=
    if (0 <=? y) && (y <=? 9999) then pad 4 y
    else if y <? 0 then String "-" (pad 6 (- y))
    else String "+" (pad 6 y) in
  year +:+ "-" +:+ pad 2 m +:+ "-" +:+ pad 2 d
  +:+ "T" +:+ pad 2 (ms / 3600000) +:+ ":" +:+ pad 2 (ms / 60000 mod 60)
  +:+ ":" +:+ pad 2 (ms / 1000 mod 60) +:+ "." +:+ pad 3 (ms mod 1000) +:+ "Z".

(** The UTF-16 code units of a string, each as the string of its own:
    a character outside the basic plane (four bytes) is two surrogates. *)
Fixpoint code_units (fuel : nat) (s : string) : list string :=
  match fuel with
  | O => []
  | S fuel' =>
      match s with
      | EmptyString => []
      | String a s1 =>
          let n := N_of_ascii a in
          if ((192 <=? n) && (n <? 224))%N then
            match s1 with
            | String b s2 => String a (String b "") :: code_units fuel' s2
            | EmptyString => [String a ""]
            end
          else if ((224 <=? n) && (n <? 240))%N then
            match s1 with
            | String b (String c s3) => String a (String b (String c "")) :: code_units fuel' s3
            | _ => String a s1 :: []
            end
          else if (240 <=? n)%N then
            match s1 with
            | String b (String c (String d s4)) =>
                let cp := ((n mod 8) * 262144 + (N_of_ascii b mod 64) * 4096
                           + (N_of_ascii c mod 64) * 64 + N_of_ascii d mod 64)%N in
                JSON.utf8 (55296 + (cp - 65536) / 1024)
                :: JSON.utf8 (56320 + (cp - 65536) mod 1024)
                :: code_units fuel' s4
            | _ => String a s1 :: []
            end
          else String a "" :: code_units fuel' s1
      end
  end.

Fixpoint indexed (i : N) (vs : list jsval) : list (string * jsval) :=
  match vs with
  | [] => []
  | v :: vs' => (N_toString i, v) :: indexed (i + 1) vs'
  end.

(** [{...v}]: the own enumerable properties of a value. An array and a
    string have one for each index; [null], [undefined], a number and a
    boolean have none. The properties of an object are taken in the
    order of its text (the engine moves keys that are array indices to
    the front; no property is added, lost or changed by that). *)
Definition spread (v : jsval) : list (string * jsval) :=
  match v with
  | VObj props => props
  | VArr elems => indexed 0 elems
  | VStr s => indexed 0 (map VStr (code_units (String.length s) s))
  | _ => []
  end.

(** ** The configuration *)

Record OAuthConfig : Type := {
  clientId : string;
  clientSecret : string;
  redirectUri : string;
  scopes : list string
}.

Definition AUTHORIZATION_URL : string := "https://www.linkedin.com/oauth/v2/authorization".
Definition TOKEN_URL : string := "https://www.linkedin.com/oauth/v2/accessToken".

Definition DEFAULT_SCOPES : list string :=
  ["openid"; "profile"; "email"; "w_member_social"; "r_organization_social";
   "w_organization_social"; "rw_organization_admin"].

(** [getOAuthConfig]; [env] is [process.env]. *)
Definition getOAuthConfig (env : string → option string) : Result OAuthConfig :=
  let clientId := env "LINKEDIN_CLIENT_ID" in
  let clientSecret := env "LINKEDIN_CLIENT_SECRET" in
  let port :=
    if nonempty (env "LINKEDIN_OAUTH_PORT") then default "" (env "LINKEDIN_OAUTH_PORT")
    else "4002" in
  let scopes :=
    match env "LINKEDIN_SCOPES" with
    | Some text => String_split "," text
    | None => DEFAULT_SCOPES
    end in
  if negb (nonempty clientId) || negb (nonempty clientSecret) then
    Throw (Error ("LinkedIn OAuth credentials not configured." +:+ String LF
                  "Set LINKEDIN_CLIENT_ID and LINKEDIN_CLIENT_SECRET environment variables."))
  else
    Ok {| clientId := default "" clientId;
          clientSecret := default "" clientSecret;
          redirectUri := "http://localhost:" +:+ port +:+ "/callback";
          scopes := scopes |}.

(** ** The authorization URL *)

Definition buildAuthorizationUrl (config : OAuthConfig) (state : string) : string :=
  let params :=
    URLSearchParams_toString
      [("response_type", "code");
       ("client_id", clientId config);
       ("redirect_uri", redirectUri config);
       ("state", state);
       ("scope", join " " (scopes config))] in
  AUTHORIZATION_URL +:+ "?" +:+ params.

(** ** The token endpoint *)

Section TokenEndpoint.

Variable net : Network.

(** The time value of the [new Date()] that stamps the tokens. *)
Variable now : Z.

Definition form_request (data : string) : Request :=
  {| url := TOKEN_URL;
     method := Some "POST";
     headers := [("Content-Type", "application/x-www-form-urlencoded")];
     body := Some data |}.

(** [response.json()]. *)
Definition Response_json (response : Response) : Result jsval :=
  match JSON.parse (responseText response) with
  | Some v => Ok v
  | None => Throw SyntaxError
  end.

Definition exchangeCodeForToken (code : string) (config : OAuthConfig) : Call jsval :=
  let params :=
    URLSearchParams_toString
      [("grant_type", "authorization_code");
       ("code", code);
       ("redirect_uri", redirectUri config);
       ("client_id", clientId config);
       ("client_secret", clientSecret config)] in
  response ← fetch net (form_request params);
  if negb (ok response)
  then throw (Error ("Token exchange failed: " +:+ responseText response))
  else
    tokenData ← lift (Response_json response);
    mret (VObj (JSON.obj_set "created_at" (VStr (Date_toISOString now)) (spread tokenData))).

Definition refreshAccessToken (refreshToken : string) (config : OAuthConfig) : Call jsval :=
  let params :=
    URLSearchParams_toString
      [("grant_type", "refresh_token");
       ("refresh_token", refreshToken);
       ("client_id", clientId config);
       ("client_secret", clientSecret config)] in
  response ← fetch net (form_request params);
  if negb (ok response)
  then throw (Error ("Token refresh failed: " +:+ responseText response))
  else
    tokenData ← lift (Response_json response);
    mret (VObj (JSON.obj_set "created_at" (VStr (Date_toISOString now)) (spread tokenData))).

End TokenEndpoint.

(** * [src/lib/client.ts]: listing and deleting *)

(** ** The runtime: [encodeURIComponent] *)

(** The characters [encodeURIComponent] leaves as they are: the ASCII
    letters and digits and [- _ . ! ~ * ' ( )]. *)
Definition is_uri_unreserved (c : ascii) : bool :=
  let n := N_of_ascii c in
  (((48 <=? n) && (n <=? 57)) || ((65 <=? n) && (n <=? 90)) || ((97 <=? n) && (n <=? 122))
   || (n =? 45) || (n =? 95) || (n =? 46) || (n =? 33) || (n =? 126) || (n =? 42)
   || (n =? 39) || (n =? 40) || (n =? 41))%N.

Fixpoint uri_bytes (s : string) : string :=
  match s with
  | EmptyString => ""
  | String c s' => (if is_uri_unreserved c then String c "" else percent c) +:+ uri_bytes s'
  end.

(** A lone surrogate, in the three-byte form the model gives it. *)
Fixpoint has_lone_surrogate (s : string) : bool :=
  match s with
  | EmptyString => false
  | String a s1 =>
      match s1 with
      | String b _ =>
          ((N_of_ascii a =? 237) && (160 <=? N_of_ascii b) && (N_of_ascii b <=? 191))%N
          || has_lone_surrogate s1
      | EmptyString => false
      end
  end.

(** [encodeURIComponent]; its URIError is known here by its message. *)
Definition encodeURIComponent (s : string) : Result string :=
  if has_lone_surrogate s then Throw (Error "URI malformed") else Ok (uri_bytes s).

(** ** Posts and organizations *)

Definition DELETE : RequestInit := {| init_method := Some "DELETE"; init_body := None |}.

Section ClientMore.

Variable net : Network.

(** [getPosts(count)]; [None] is the call without an argument, which
    asks for ten. *)
Definition getPosts (this : LinkedInClient) (count : option Z) : Call jsval :=
  authorUrn ← getMemberUrn net this;
  encodedUrn ← lift (encodeURIComponent authorUrn);
  response ← request net this
    ("/ugcPosts?q=authors&authors=List(" +:+ encodedUrn +:+ ")&count="
     +:+ Number_toString (default 10 count)) no_init;
  elements ← lift (get response "elements");
  mret (js_or elements (VArr [])).

Definition deletePost (this : LinkedInClient) (postId : string) : Call unit :=
  _ ← request net this ("/ugcPosts/" +:+ postId) DELETE;
  mret tt.

Definition getOrganizations (this : LinkedInClient) : Call jsval :=
  response ← request net this
    ("/organizationalEntityAcls?q=roleAssignee"
     +:+ "&projection=(elements*(organizationalTarget~(id,localizedName,vanityName,logoV2)))")
    no_init;
  elements ← lift (get response "elements");
  mret (js_or elements (VArr [])).

End ClientMore.

(** * The vocabulary of the further properties *)

(** ** Query strings *)

(** The characters a serialized name or value is made of: those that
    stand for themselves, [+] for a space, and [%] with its two digits.
    None of them separates parameters or ends the query. *)
Definition is_query_char (c : ascii) : bool :=
  is_form_safe c || Ascii.eqb c "+" || Ascii.eqb c "%".

Fixpoint query_safe (s : string) : bool :=
  match s with
  | EmptyString => true
  | String c s' => is_query_char c && query_safe s'
  end.

(** A text that the serializer leaves as it is. *)
Fixpoint form_plain (s : string) : bool :=
  match s with
  | EmptyString => true
  | String c s' => is_form_safe c && form_plain s'
  end.

Definition upper_hex_value (c : ascii) : N :=
  let n := N_of_ascii c in
  if (n <? 58)%N then (n - 48)%N else (n - 55)%N.

(** The text a serialized name or value stands for. *)
Fixpoint form_decode (s : string) : string :=
  match s with
  | EmptyString => ""
  | String c s1 =>
      if Ascii.eqb c "+" then String " " (form_decode s1)
      else if Ascii.eqb c "%" then
        match s1 with
        | String h (String l s3) =>
            String (ascii_of_N (16 * upper_hex_value h + upper_hex_value l)) (form_decode s3)
        | _ => String c (form_decode s1)
        end
      else String c (form_decode s1)
  end.

(** A text with a space for each of its commas. *)
Fixpoint spaces_for_commas (s : string) : string :=
  match s with
  | EmptyString => ""
  | String c s' => String (if Ascii.eqb c "," then " "%char else c) (spaces_for_commas s')
  end.

Fixpoint has_char (c : ascii) (s : string) : bool :=
  match s with
  | EmptyString => false
  | String c' s' => Ascii.eqb c c' || has_char c s'
  end.

(** ** The token endpoint *)

(** What the two calls of the token endpoint share: the request with the
    serialized parameters, the failure with its message, the time stamp. *)
Definition token_call (net : Network) (now : Z) (failure params : string) : Call jsval :=
  response ← fetch net (form_request params);
  if negb (ok response)
  then throw (Error (failure +:+ responseText response))
  else
    tokenData ← lift (Response_json response);
    mret (VObj (JSON.obj_set "created_at" (VStr (Date_toISOString now)) (spread tokenData))).

(** What [token_call] makes of the response to its request. *)
Definition token_outcome (now : Z) (failure : string) (answer : Result Response)
  : Result jsval :=
  match answer with
  | Throw e => Throw e
  | Ok response =>
      if negb (ok response) then Throw (Error (failure +:+ responseText response))
      else
        match JSON.parse (responseText response) with
        | None => Throw SyntaxError
        | Some tokenData =>
            Ok (VObj (JSON.obj_set "created_at" (VStr (Date_toISOString now))
                        (spread tokenData)))
        end
  end.

(** ** Runs of the callback listener *)

(** A redirect that carries an authorization code for the state that
    was expected, and no error. *)
Definition genuine (expectedState code : string) (url : URL) : Prop :=
  pathname url = "/callback"
  ∧ nonempty (searchParams_get "error" (searchParams url)) = false
  ∧ searchParams_get "state" (searchParams url) = Some expectedState
  ∧ searchParams_get "code" (searchParams url) = Some code
  ∧ code ≠ "".

(** An arrival that leaves the listener waiting: a request to another
    path than the callback's, before the five minutes are over. *)
Definition passing (a : Z * Event) : Prop :=
  a.1 < 5 * 60 * 1000 ∧ ∃ url, a.2 = Incoming (Ok url) ∧ is_callback url = false.

(** The listener waits: its promise is pending, its timer is set and
    its process runs. *)
Definition waiting (st : Listener) : Prop :=
  promise st = Pending ∧ timer st = Some (5 * 60 * 1000) ∧ uncaught st = None.

(** ** Requests of the client *)

(** The request goes to the API. *)
Definition to_api (r : Request) : bool := startsWith (url r) API_BASE.

(** The request carries the access token of the client. *)
Definition bearer (this : LinkedInClient) (r : Request) : bool :=
  bool_decide (("Authorization", "Bearer " +:+ access_token (tokens this)) ∈ headers r).

(** A text of unreserved characters and percent escapes. *)
Fixpoint uri_safe (s : string) : bool :=
  match s with
  | EmptyString => true
  | String c s' => (is_uri_unreserved c || Ascii.eqb c "%") && uri_safe s'
  end.

(** What the listing calls make of the value that [request] returned. *)
Definition elements_of (response : jsval) : Result jsval :=
  match get response "elements" with
  | Ok elements => Ok (js_or elements (VArr []))
  | Throw e => Throw e
  end.

(** The result of [request], read off the answer of the network. *)
Definition answer_outcome (answer : Result Response) : Result jsval :=
  match answer with
  | Ok response => outcome_of response
  | Throw e => Throw e
  end.

(** The request that registers an upload for an owner. *)
Definition register_request (this : LinkedInClient) (ownerUrn : string) : Request :=
  request_of this "/assets?action=registerUpload"
    (POST (JSON.stringify 0
             (VObj [("registerUploadRequest",
                     VObj [("recipes", VArr [VStr "urn:li:digitalmediaRecipe:feedshare-image"]);
                           ("owner", VStr ownerUrn);
                           ("serviceRelationships",
                            VArr [VObj [("relationshipType", VStr "OWNER");
                                        ("identifier", VStr "urn:li:userGeneratedContent")]])])]))).

(** The response to a registration names the URL to upload to and the
    asset. *)
Definition registration_names (registerResponse : jsval) (target : string) (asset : jsval)
  : Prop :=
  ∃ value uploadMechanism httpRequest uploadUrl,
    get registerResponse "value" = Ok value
    ∧ get value "uploadMechanism" = Ok uploadMechanism
    ∧ get uploadMechanism "com.linkedin.digitalmedia.uploading.MediaUploadHttpRequest"
      = Ok httpRequest
    ∧ get httpRequest "uploadUrl" = Ok uploadUrl
    ∧ ToString uploadUrl = Ok target
    ∧ get value "asset" = Ok asset.

(** The exchanges that a call adds to the log all go to the API, with
    the token of the client. *)
Definition confined (this : LinkedInClient) (log : list Exchange) {A}
    (run : Result A * list Exchange) : Prop :=
  ∃ new, run.2 = log ++ new
         ∧ Forall (λ e : Exchange, to_api e.1 = true ∧ bearer this e.1 = true) new.

(** The requests of an image post: one to the API with the token, the
    fetch of a remote image, or the PUT of the bytes to an upload URL. *)
Definition image_request (this : LinkedInClient) (imageUrl : string) (r : Request) : Prop :=
  (to_api r = true ∧ bearer this r = true)
  ∨ (isLocalPath imageUrl = false ∧ r = source_request imageUrl)
  ∨ ∃ target imageBuffer, r = upload_request this target imageBuffer.

Section ImageFlow.

Variable readFileSync : string → Result string.
Variable HOME : option string.
Variable path_join : string → string → string.

(** The exchanges [new] of an image post that succeeded with [result],
    from the registration on: the upload was registered for the owner;
    the bytes of the image, read from the file or fetched from the URL,
    were PUT to the URL that the registration named; and the post that
    was published has the owner for its author and the asset of the
    registration for its media. *)
Definition image_flow (this : LinkedInClient) (ownerUrn : string)
    (options : CreatePostOptions) (imageUrl : string) (new : list Exchange)
    (result : jsval) : Prop :=
  ∃ registered registerResponse target asset fetched imageBuffer uploaded data published,
    new = [(register_request this ownerUrn, Ok registered)] ++ fetched
          ++ [(upload_request this target imageBuffer, Ok uploaded);
              (publish_request this data, Ok published)]
    ∧ outcome_of registered = Ok registerResponse
    ∧ registration_names registerResponse target asset
    ∧ (if isLocalPath imageUrl
       then fetched = []
            ∧ readFileSync (image_file HOME path_join imageUrl) = Ok imageBuffer
       else ∃ response, fetched = [(source_request imageUrl, Ok response)]
                        ∧ ok response = true ∧ imageBuffer = responseText response)
    ∧ ok uploaded = true
    ∧ JSON.stringify 0 (image_payload ownerUrn options asset) = Some data
    ∧ outcome_of published = Ok result.

End ImageFlow.

(** ** Reading a payload *)

(** [v.k1.k2...]. *)
Fixpoint get_path (v : jsval) (keys : list string) : Result jsval :=
  match keys with
  | [] => Ok v
  | k :: keys' =>
      match get v k with
      | Ok x => get_path x keys'
      | Throw e => Throw e
      end
  end.

(** What is read back from the body of a publish request: the author,
    the text and the visibility the post was made with. *)
Definition publishes (data author : string) (options : CreatePostOptions) : Prop :=
  ∃ parsed,
    JSON.parse data = Some parsed
    ∧ get parsed "author" = Ok (VStr author)
    ∧ get parsed "lifecycleState" = Ok (VStr "PUBLISHED")
    ∧ get_path parsed ["visibility"; "com.linkedin.ugc.MemberNetworkVisibility"]
      = Ok (VStr (match visibility options with
                  | Some v => Visibility_string v
                  | None => "PUBLIC"
                  end))
    ∧ get_path parsed ["specificContent"; "com.linkedin.ugc.ShareContent";
                       "shareCommentary"; "text"]
      = Ok (VStr (text options)).

(** ** Replies of the callback listener *)

Definition is_request (a : Z * Event) : bool :=
  match a.2 with
  | Incoming _ => true
  | ServerError _ => false
  end.

(** The arrivals that reach a handler: those before the first request
    whose URL does not parse. That request ends the process. *)
Fixpoint handled (arrivals : list (Z * Event)) : list (Z * Event) :=
  match arrivals with
  | [] => []
  | a :: rest => if parses a then a :: handled rest else []
  end.

(** * Worlds of the further examples *)

(** A home with both roots: the primary one empty, the legacy one with an
    old record. *)
Definition two_roots_home : fs.node :=
  let old_record := fs.File (json_text (VObj [("access_token", VStr "old")])) in
  fs.Dir (<[ ".clawdbot" := fs.Dir {[ "credentials" := fs.Dir ∅ ]} ]>
            {[ ".moltbot" :=
                 fs.Dir {[ "credentials" := fs.Dir {[ "linkedin.json" := old_record ]} ]} ]}).

(** A home whose credentials file holds the text [null]. *)
Definition null_home : fs.node :=
  fs.Dir {[ ".clawdbot" :=
              fs.Dir {[ "credentials" := fs.Dir {[ "linkedin.json" := fs.File "null" ]} ]} ]}.

(** An environment, from the list of its variables. *)
Definition env_of (vars : list (string * string)) (name : string) : option string :=
  snd <$> List.find (λ kv, String.eqb kv.1 name) vars.

(** The environment of the README. *)
Definition readme_env : string → option string :=
  env_of [("LINKEDIN_CLIENT_ID", "your_client_id_here");
          ("LINKEDIN_CLIENT_SECRET", "your_client_secret_here");
          ("LINKEDIN_SCOPES", "r_basicprofile,w_member_social,r_organization_social")].

(** * Properties *)

(** ** Expiry of a credential record *)

Section ExpiryFacts.

Variable Date_getTime : string → option Z.

(** The comparison of [isTokenExpired], case by case: a lifetime that
    is an integer, and the three that are not finite. *)
Lemma isTokenExpired_cases (now createdAt : Z) (t : OAuthTokens) :
  Date_getTime (created_at t) = Some createdAt →
  isTokenExpired Date_getTime now t
  = match expires_in t with
    | Int expiresIn => createdAt + expiresIn * 1000 - 300 * 1000 <=? now
    | NotFinite NegInfinity => true
    | NotFinite _ => false
    end.
Proof.
  intros Hcreated. unfold isTokenExpired. rewrite Hcreated.
  now destruct (expires_in t) as [expiresIn|[| |]].
Qed.

Lemma isTokenExpiringSoon_cases (now createdAt : Z) (t : OAuthTokens) :
  Date_getTime (created_at t) = Some createdAt →
  isTokenExpiringSoon Date_getTime now t
  = match expires_in t with
    | Int expiresIn => createdAt + expiresIn * 1000 <=? now + 7 * 24 * 60 * 60 * 1000
    | NotFinite NegInfinity => true
    | NotFinite _ => false
    end.
Proof.
  intros Hcreated. unfold isTokenExpiringSoon. rewrite Hcreated.
  now destruct (expires_in t) as [expiresIn|[| |]].
Qed.

(** A creation time that is no date makes both comparisons false. *)
Lemma expiry_no_date (now : Z) (t : OAuthTokens) :
  Date_getTime (created_at t) = None →
  isTokenExpired Date_getTime now t = false
  ∧ isTokenExpiringSoon Date_getTime now t = false.
Proof.
  intros Hcreated. unfold isTokenExpired, isTokenExpiringSoon. rewrite Hcreated.
  now destruct (expires_in t) as [expiresIn|[| |]].
Qed.


(** C10. Whenever [isTokenExpired] holds of a record at some time,
    [isTokenExpiringSoon] holds of it at that time. *)
Theorem expired_is_expiring_soon (now : Z) (t : OAuthTokens) :
  isTokenExpired Date_getTime now t = true →
  isTokenExpiringSoon Date_getTime now t = true.
Proof.
  destruct (Date_getTime (created_at t)) as [createdAt|] eqn:Hcreated.
  - rewrite (isTokenExpired_cases _ _ _ Hcreated), (isTokenExpiringSoon_cases _ _ _ Hcreated).
    destruct (expires_in t) as [expiresIn|[| |]]; try easy.
    rewrite !Z.leb_le. lia.
  - now rewrite (proj1 (expiry_no_date now t Hcreated)).
Qed.

End ExpiryFacts.



Lemma expired_is_expiring_soon_witness :
  isTokenExpiringSoon Date_parse_iso (1704067200000 + 3300 * 1000)
    (hour_token "2024-01-01T00:00:00.000Z") = true.
Proof.
  apply (expired_is_expiring_soon Date_parse_iso). reflexivity.
Defined.

(** A record whose lifetime is Infinity is never expired, nor expiring
    soon. *)
Example isTokenExpired_endless :
  isTokenExpired Date_parse_iso 253402300799999 endless_token = false
  ∧ isTokenExpiringSoon Date_parse_iso 253402300799999 endless_token = false.
Proof. split; reflexivity. Qed.

(** ** JSON: a serialized value parses back *)

Lemma sapp_cons (x : ascii) (a b : string) : String x a +:+ b = String x (a +:+ b).
Proof. reflexivity. Qed.

Lemma sapp_nil_l (b : string) : "" +:+ b = b.
Proof. reflexivity. Qed.

Lemma sapp_assoc (a b c : string) : (a +:+ b) +:+ c = a +:+ (b +:+ c).
Proof.
  induction a as [|x a IH]; [reflexivity|]. rewrite !sapp_cons. f_equal. exact IH.
Qed.

Lemma sapp_nil_r (a : string) : a +:+ "" = a.
Proof. induction a as [|x a IH]; [reflexivity|]. rewrite sapp_cons. now f_equal. Qed.

Lemma length_sapp (a b : string) :
  String.length (a +:+ b) = (String.length a + String.length b)%nat.
Proof.
  induction a as [|x a IH]; [reflexivity|]. rewrite sapp_cons. simpl. now rewrite IH.
Qed.

(** [String.append] does not unfold under [simpl]: these equations do it. *)
Ltac sapp := repeat (rewrite sapp_assoc || rewrite sapp_cons || rewrite sapp_nil_l).

Ltac each_ascii c :=
  destruct c as [[] [] [] [] [] [] [] []].

Lemma skip_ws_blank (w s : string) :
  JSON.blank w = true → JSON.skip_ws (w +:+ s) = JSON.skip_ws s.
Proof.
  induction w as [|c w IH]; [reflexivity|]. rewrite sapp_cons. simpl.
  intros [Hc Hw]%andb_true_iff. rewrite Hc. auto.
Qed.

Lemma blank_sapp (a b : string) :
  JSON.blank a = true → JSON.blank b = true → JSON.blank (a +:+ b) = true.
Proof.
  induction a as [|c a IH]; [auto|]. rewrite sapp_cons. simpl.
  intros [Hc Ha]%andb_true_iff Hb. rewrite Hc. simpl. auto.
Qed.

Lemma blank_spaces (n : nat) : JSON.blank (JSON.spaces n) = true.
Proof. induction n; simpl; auto. Qed.

(** *** String literals *)

Lemma parse_chars_escape_char (c : ascii) (s : string) :
  JSON.parse_chars (JSON.escape_char c +:+ s) =
  match JSON.parse_chars s with
  | Some (str, rest) => Some (String c str, rest)
  | None => None
  end.
Proof.
  each_ascii c;
    match goal with
    | |- context [JSON.escape_char ?a] =>
        let r := eval vm_compute in (JSON.escape_char a) in
        change (JSON.escape_char a) with r
    end;
    sapp; simpl; destruct (JSON.parse_chars s) as [[str rest]|]; reflexivity.
Qed.

Lemma parse_chars_quote (s rest : string) :
  JSON.parse_chars (JSON.escape s +:+ String DQUOTE rest) = Some (s, rest).
Proof.
  induction s as [|c s IH].
  - reflexivity.
  - cbn [JSON.escape]. rewrite sapp_assoc, parse_chars_escape_char, IH. reflexivity.
Qed.

(** *** Numbers *)

Lemma digit_char_spec (d : N) :
  (d < 10)%N →
  JSON.is_digit (digit_char d) = true ∧ (N_of_ascii (digit_char d) - 48)%N = d
  ∧ (Ascii.eqb (digit_char d) "0" = true ↔ d = 0%N).
Proof.
  intros Hd.
  assert (Hcases : (d = 0 ∨ d = 1 ∨ d = 2 ∨ d = 3 ∨ d = 4 ∨ d = 5 ∨ d = 6 ∨ d = 7
                    ∨ d = 8 ∨ d = 9)%N) by lia.
  repeat destruct Hcases as [-> | Hcases]; try subst d;
    (split; [reflexivity | split; [reflexivity | split; intros E; first [reflexivity | discriminate E]]]).
Qed.

Lemma parse_digits_N_digits (fuel : nat) :
  ∀ (n : N) (acc : string),
    (n < 10 ^ N.of_nat fuel)%N →
    ∃ k : N, ∀ a : N,
      JSON.parse_digits a (N_digits fuel n acc) = JSON.parse_digits (a * 10 ^ k + n)%N acc.
Proof.
  induction fuel as [|fuel IH]; intros n acc Hn.
  - simpl in Hn. exists 0%N. intros a. simpl. f_equal; lia.
  - cbn [N_digits]. rewrite Nat2N.inj_succ, N.pow_succ_r' in Hn.
    assert (Hmod : (n mod 10 < 10)%N) by (apply N.mod_upper_bound; lia).
    destruct (digit_char_spec _ Hmod) as (Hdig & Hval & _).
    destruct (N.ltb_spec n 10).
    + exists 1%N. intros a. cbn [JSON.parse_digits]. rewrite Hdig, Hval.
      rewrite N.mod_small by assumption. f_equal; lia.
    + destruct (IH (n / 10)%N (String (digit_char (n mod 10)) acc)) as [k Hk].
      { apply N.Div0.div_lt_upper_bound. lia. }
      exists (N.succ k). intros a. rewrite Hk. cbn [JSON.parse_digits].
      rewrite Hdig, Hval. f_equal. rewrite N.pow_succ_r'.
      pose proof (N.div_mod n 10). lia.
Qed.

Lemma N_digits_head (fuel : nat) :
  ∀ (n : N) (acc : string),
    (0 < n < 10 ^ N.of_nat fuel)%N →
    ∃ c s, N_digits fuel n acc = String c s ∧ JSON.is_digit c = true ∧ Ascii.eqb c "0" = false.
Proof.
  induction fuel as [|fuel IH]; intros n acc Hn.
  - simpl in Hn. lia.
  - cbn [N_digits]. rewrite Nat2N.inj_succ, N.pow_succ_r' in Hn.
    destruct (N.ltb_spec n 10).
    + rewrite N.mod_small by assumption.
      destruct (digit_char_spec n) as (Hdig & _ & Hz); [assumption|].
      eexists _, _. split; [reflexivity|]. split; [assumption|].
      apply not_true_is_false. intros E. apply Hz in E. lia.
    + apply IH. split.
      * apply N.div_str_pos. lia.
      * apply N.Div0.div_lt_upper_bound. lia.
Qed.

Lemma N_toString_fuel (n : N) : (n < 10 ^ N.of_nat (S (N.to_nat (N.log2 n))))%N.
Proof.
  rewrite Nat2N.inj_succ, N2Nat.id.
  destruct (N.eq_dec n 0%N) as [->|Hn]; [reflexivity|].
  destruct (N.log2_spec n) as [_ Hlt]; [lia|].
  eapply N.lt_le_trans; [exact Hlt|].
  apply N.pow_le_mono_l. lia.
Qed.

Lemma parse_digits_stop (a : N) (s : string) :
  not_digit_next s = true → JSON.parse_digits a s = (a, s).
Proof.
  destruct s as [|c s]; simpl; [reflexivity|].
  intros H. apply negb_true_iff in H. now rewrite H.
Qed.

Lemma parse_int_N_toString (p : positive) (rest : string) :
  not_digit_next rest = true →
  JSON.parse_int (N_toString (Npos p) +:+ rest) = Some (Npos p, rest).
Proof.
  intros Hrest. unfold N_toString.
  pose proof (N_toString_fuel (Npos p)) as Hfuel.
  destruct (N_digits_head _ (Npos p) "" (conj (eq_refl : (0 < Npos p)%N) Hfuel))
    as (c & s & Hhead & Hdig & Hnz).
  destruct (parse_digits_N_digits _ (Npos p) rest Hfuel) as [k Hk].
  assert (Happ : ∀ fuel n acc, N_digits fuel n acc +:+ rest = N_digits fuel n (acc +:+ rest)).
  { clear. induction fuel as [|fuel IH]; intros n acc; cbn [N_digits]; [reflexivity|].
    destruct (n <? 10)%N; [reflexivity|]. now rewrite IH. }
  rewrite Happ, sapp_nil_l.
  assert (Hhead' : N_digits (S (N.to_nat (N.log2 (Npos p)))) (Npos p) rest = String c (s +:+ rest)).
  { rewrite <- (sapp_nil_l rest) at 1. rewrite <- Happ, Hhead. reflexivity. }
  unfold JSON.parse_int. rewrite Hhead', Hnz, Hdig, <- Hhead', Hk.
  rewrite parse_digits_stop by assumption. do 2 f_equal; lia.
Qed.

Lemma delimited_number_end (s : string) :
  delimited s = true → not_digit_next s = true ∧ JSON.integer_ends s = true.
Proof.
  destruct s as [|c s]; [split; reflexivity|]. cbn.
  each_ascii c; cbn; try discriminate; split; reflexivity.
Qed.

Lemma parse_number_toString (n : Z) (rest : string) :
  delimited rest = true →
  JSON.parse_number (Number_toString n +:+ rest) = Some (VNum n, rest).
Proof.
  intros [Hnd Hend]%delimited_number_end.
  destruct n as [|p|p]; cbn [Number_toString].
  - rewrite sapp_cons, sapp_nil_l. cbn. now rewrite Hend.
  - pose proof (parse_int_N_toString p rest Hnd) as Hint.
    destruct (N_digits_head _ (Npos p) "" (conj (eq_refl : (0 < Npos p)%N) (N_toString_fuel (Npos p))))
      as (c & s & Hhead & Hdig & _).
    fold (N_toString (Npos p)) in Hhead. rewrite Hhead in Hint |- *.
    rewrite sapp_cons in Hint |- *. unfold JSON.parse_number.
    replace (Ascii.eqb c "-") with false.
    + rewrite Hint, Hend. reflexivity.
    + revert Hdig. clear. each_ascii c; cbn; intros; try discriminate; reflexivity.
  - rewrite sapp_cons. unfold JSON.parse_number. cbn [Ascii.eqb Bool.eqb].
    rewrite (parse_int_N_toString p rest Hnd), Hend. reflexivity.
Qed.

(** *** The equations of the nested definitions *)

Lemma kept_cons (k : string) (x : jsval) (kvs : list (string * jsval)) :
  kept ((k, x) :: kvs) = if is_undefined x then kept kvs else (k, x) :: kept kvs.
Proof. unfold kept. cbn [List.filter snd]. now destruct (is_undefined x). Qed.

Lemma serialize_None (gap indent : string) (v : jsval) :
  JSON.serialize gap indent v = None ↔ v = VUndefined.
Proof. destruct v; simpl; split; congruence. Qed.

Lemma serialize_VArr (gap indent : string) (xs : list jsval) :
  JSON.serialize gap indent (VArr xs) =
  Some (JSON.wrap "[" "]" gap indent (indent +:+ gap)
          (map (elem_text gap (indent +:+ gap)) xs)).
Proof.
  reflexivity.
Qed.

Lemma serialize_VObj (gap indent : string) (kvs : list (string * jsval)) :
  JSON.serialize gap indent (VObj kvs) =
  Some (JSON.wrap "{" "}" gap indent (indent +:+ gap)
          (map (member_text gap (indent +:+ gap)) (kept kvs))).
Proof.
  cbn [JSON.serialize]. do 2 f_equal.
  induction kvs as [|[k x] kvs IH]; [reflexivity|].
  unfold kept in *. cbn [List.filter snd].
  destruct (JSON.serialize gap (indent +:+ gap) x) as [str|] eqn:E.
  - assert (is_undefined x = false) as -> by (destruct x; [discriminate E | reflexivity ..]).
    cbn [negb map]. rewrite <- IH. unfold member_text, elem_text. cbn [fst snd].
    now rewrite E.
  - apply serialize_None in E as ->. cbn [is_undefined negb]. exact IH.
Qed.

Lemma clean_VArr (xs : list jsval) : JSON.clean (VArr xs) = VArr (map clean_elem xs).
Proof.
  reflexivity.
Qed.

Lemma clean_VObj (kvs : list (string * jsval)) :
  JSON.clean (VObj kvs) = VObj (map clean_member (kept kvs)).
Proof.
  cbn [JSON.clean]. f_equal.
  induction kvs as [|[k x] kvs IH]; [reflexivity|].
  unfold kept in *. cbn [List.filter snd].
  destruct x; cbn [is_undefined negb map]; rewrite <- ?IH; reflexivity.
Qed.

Lemma plain_VArr (xs : list jsval) :
  JSON.plain (VArr xs) = forallb JSON.plain xs.
Proof.
  reflexivity.
Qed.

Lemma plain_VObj (kvs : list (string * jsval)) :
  JSON.plain (VObj kvs) =
  JSON.keys_distinct kvs && forallb (λ kv, JSON.plain kv.2) kvs.
Proof.
  cbn [JSON.plain]. f_equal.
  induction kvs as [|[k x] kvs IH]; [reflexivity|]. cbn [forallb snd]. now rewrite <- IH.
Qed.

(** *** Objects read back with their members in place *)

Lemma obj_set_fresh (k : string) (v : jsval) (acc : list (string * jsval)) :
  JSON.has_key k acc = false → JSON.obj_set k v acc = acc ++ [(k, v)].
Proof.
  induction acc as [|[k' v'] acc IH]; [reflexivity|]. cbn [JSON.has_key JSON.obj_set].
  intros [Hk Hacc]%orb_false_iff. rewrite Hk. cbn [app]. now rewrite IH.
Qed.

Lemma has_key_app (k : string) (a b : list (string * jsval)) :
  JSON.has_key k (a ++ b) = JSON.has_key k a || JSON.has_key k b.
Proof.
  induction a as [|[k' v'] a IH]; [reflexivity|]. cbn [app JSON.has_key].
  now rewrite IH, orb_assoc.
Qed.

Lemma obj_of_members_distinct (ms : list (string * jsval)) :
  JSON.keys_distinct ms = true → JSON.obj_of_members ms = ms.
Proof.
  unfold JSON.obj_of_members.
  enough (H : ∀ acc, JSON.keys_distinct ms = true →
                     (∀ kv, In kv ms → JSON.has_key kv.1 acc = false) →
                     fold_left (λ a kv, JSON.obj_set kv.1 kv.2 a) ms acc = acc ++ ms).
  { intros Hd. apply (H [] Hd). reflexivity. }
  induction ms as [|[k v] ms IH]; intros acc Hd Hacc.
  - cbn. now rewrite app_nil_r.
  - cbn [JSON.keys_distinct] in Hd. apply andb_true_iff in Hd as [Hk Hd].
    apply negb_true_iff in Hk.
    cbn [fold_left fst snd]. rewrite obj_set_fresh by (apply (Hacc (k, v)); now left).
    rewrite IH; [now rewrite <- app_assoc | assumption |].
    intros [k' v'] Hin. pose proof (Hacc (k', v') (or_intror Hin)) as Hfresh.
    cbn [fst] in Hfresh |- *. rewrite has_key_app, Hfresh.
    cbn [JSON.has_key orb]. rewrite orb_false_r.
    destruct (String.eqb_spec k' k) as [->|]; [|reflexivity].
    exfalso. clear -Hk Hin. induction ms as [|[k2 v2] ms IH]; [destruct Hin|].
    cbn [JSON.has_key] in Hk. apply orb_false_iff in Hk as [Hne Hk].
    destruct Hin as [Heq | Hin]; [|auto].
    injection Heq as -> ->. now rewrite String.eqb_refl in Hne.
Qed.

Lemma has_key_clean_kept (k : string) (kvs : list (string * jsval)) :
  JSON.has_key k kvs = false → JSON.has_key k (map clean_member (kept kvs)) = false.
Proof.
  induction kvs as [|[k' x] kvs IH]; [reflexivity|]. cbn [JSON.has_key].
  intros [Hk Hh]%orb_false_iff. rewrite kept_cons.
  destruct (is_undefined x); cbn [map]; [auto|].
  cbn [JSON.has_key clean_member fst]. rewrite Hk. cbn [orb]. auto.
Qed.

Lemma keys_distinct_clean_kept (kvs : list (string * jsval)) :
  JSON.keys_distinct kvs = true → JSON.keys_distinct (map clean_member (kept kvs)) = true.
Proof.
  induction kvs as [|[k x] kvs IH]; [reflexivity|]. cbn [JSON.keys_distinct].
  intros [Hk Hd]%andb_true_iff. apply negb_true_iff in Hk.
  rewrite kept_cons.
  destruct (is_undefined x); cbn [map]; [auto|].
  cbn [JSON.keys_distinct clean_member fst].
  rewrite (has_key_clean_kept k kvs Hk). cbn [negb andb]. auto.
Qed.

(** *** The descent on a serialized text *)

Lemma parse_value_ws (fuel : nat) (w s : string) :
  JSON.blank w = true → JSON.parse_value fuel (w +:+ s) = JSON.parse_value fuel s.
Proof.
  intros Hw. destruct fuel; [reflexivity|].
  cbn [JSON.parse_value]. now rewrite skip_ws_blank.
Qed.

Lemma parse_elements_ws (fuel : nat) (w s : string) :
  JSON.blank w = true → JSON.parse_elements fuel (w +:+ s) = JSON.parse_elements fuel s.
Proof.
  intros Hw. destruct fuel; [reflexivity|].
  cbn [JSON.parse_elements]. now rewrite parse_value_ws.
Qed.

Lemma parse_members_ws (fuel : nat) (w s : string) :
  JSON.blank w = true → JSON.parse_members fuel (w +:+ s) = JSON.parse_members fuel s.
Proof.
  intros Hw. destruct fuel; [reflexivity|].
  cbn [JSON.parse_members]. now rewrite skip_ws_blank.
Qed.

Lemma parse_value_null (fuel : nat) (rest : string) :
  JSON.parse_value (S fuel) ("null" +:+ rest) = Some (VNull, rest).
Proof. reflexivity. Qed.

Lemma parse_value_bool (fuel : nat) (b : bool) (rest : string) :
  JSON.parse_value (S fuel) ((if b then "true" else "false") +:+ rest) = Some (VBool b, rest).
Proof. destruct b; reflexivity. Qed.

Lemma parse_value_string_head (fuel : nat) (x : string) :
  JSON.parse_value (S fuel) (String DQUOTE x) =
  match JSON.parse_chars x with
  | Some (str, r) => Some (VStr str, r)
  | None => None
  end.
Proof. reflexivity. Qed.

Lemma parse_value_quote (fuel : nat) (s rest : string) :
  JSON.parse_value (S fuel) (JSON.quote s +:+ rest) = Some (VStr s, rest).
Proof.
  unfold JSON.quote. sapp. now rewrite parse_value_string_head, parse_chars_quote.
Qed.

Lemma parse_value_number_head (fuel : nat) (c : ascii) (s : string) :
  JSON.is_digit c = true ∨ c = "-"%char →
  JSON.parse_value (S fuel) (String c s) = JSON.parse_number (String c s).
Proof.
  intros [Hc | ->]; [|reflexivity].
  revert Hc. each_ascii c; intros Hc; try discriminate Hc; reflexivity.
Qed.

Lemma Number_toString_head (n : Z) :
  ∃ c s, Number_toString n = String c s ∧ (JSON.is_digit c = true ∨ c = "-"%char).
Proof.
  destruct n as [|p|p]; cbn [Number_toString].
  - eexists _, _. split; [reflexivity | now left].
  - destruct (N_digits_head _ (Npos p) ""
                (conj (eq_refl : (0 < Npos p)%N) (N_toString_fuel (Npos p))))
      as (c & s & Hhead & Hdig & _).
    exists c, s. split; [exact Hhead | now left].
  - eexists _, _. split; [reflexivity | now right].
Qed.

Lemma parse_value_number (fuel : nat) (n : Z) (rest : string) :
  delimited rest = true →
  JSON.parse_value (S fuel) (Number_toString n +:+ rest) = Some (VNum n, rest).
Proof.
  intros Hrest. rewrite <- (parse_number_toString n rest Hrest).
  destruct (Number_toString_head n) as (c & s & -> & Hc).
  rewrite sapp_cons. now apply parse_value_number_head.
Qed.

Lemma blank_brk (gap indent : string) :
  JSON.blank indent = true → JSON.blank (brk gap indent) = true.
Proof. unfold brk. destruct (JSON.is_compact gap); [reflexivity|]. intros H. now cbn. Qed.

Lemma wrap_cons (open close gap indent inner p : string) (ps : list string) :
  JSON.wrap open close gap indent inner (p :: ps) =
  open +:+ brk gap inner +:+ join (String "," (brk gap inner)) (p :: ps)
       +:+ brk gap indent +:+ close.
Proof.
  unfold JSON.wrap, brk. destruct (JSON.is_compact gap); sapp; reflexivity.
Qed.

Lemma digit_opens (c : ascii) (s : string) :
  JSON.is_digit c = true → opens_value (String c s) = true.
Proof.
  cbn [opens_value]. each_ascii c; intros Hc; try discriminate Hc; reflexivity.
Qed.

Lemma Dec_toString_opens (m : Z) (e : positive) (rest : string) :
  opens_value (Dec_toString m e +:+ rest) = true.
Proof.
  destruct m as [|p|p]; cbn [Dec_toString]; [reflexivity| |now rewrite sapp_cons].
  unfold Dec_digits.
  destruct (N_digits_head _ (Npos p) ""
              (conj (eq_refl : (0 < Npos p)%N) (N_toString_fuel (Npos p))))
    as (c & s & Hhead & Hdig & _).
  fold (N_toString (Npos p)) in Hhead. rewrite Hhead. cbv zeta.
  repeat match goal with |- context [if ?b then _ else _] => destruct b end;
    rewrite sapp_cons; try reflexivity; now apply digit_opens.
Qed.

Lemma serialize_opens (gap indent : string) (v : jsval) (str rest : string) :
  JSON.serialize gap indent v = Some str → opens_value (str +:+ rest) = true.
Proof.
  destruct v as [| |b|n|m e|x|s|xs|kvs]; cbn [JSON.serialize]; intros H; try discriminate H;
    injection H as <-.
  - reflexivity.
  - now destruct b.
  - destruct (Number_toString_head n) as (c & s & -> & [Hc | ->]); [|reflexivity].
    rewrite sapp_cons. now apply digit_opens.
  - apply Dec_toString_opens.
  - reflexivity.
  - reflexivity.
  - unfold JSON.wrap. destruct (_ xs) as [|p ps]; [reflexivity|].
    destruct (JSON.is_compact gap); reflexivity.
  - unfold JSON.wrap. destruct (_ kvs) as [|p ps]; [reflexivity|].
    destruct (JSON.is_compact gap); reflexivity.
Qed.

Lemma elem_text_opens (gap inner : string) (x : jsval) (rest : string) :
  opens_value (elem_text gap inner x +:+ rest) = true.
Proof.
  unfold elem_text. destruct (JSON.serialize gap inner x) as [str|] eqn:E; [|reflexivity].
  cbn [default]. eapply serialize_opens, E.
Qed.

Lemma skip_ws_opens (s : string) : opens_value s = true → JSON.skip_ws s = s.
Proof.
  destruct s as [|c s]; [reflexivity|]. cbn [opens_value JSON.skip_ws].
  destruct (JSON.is_ws c); [discriminate | reflexivity].
Qed.

Lemma skip_ws_head (c : ascii) (s : string) :
  JSON.is_ws c = false → JSON.skip_ws (String c s) = String c s.
Proof. intros H. cbn [JSON.skip_ws]. now rewrite H. Qed.

(** The parser has a known character before it: decide the tests on it. *)
Ltac decide_chars :=
  cbv iota;
  repeat match goal with
    | |- context [Ascii.eqb ?a ?b] =>
        let r := eval vm_compute in (Ascii.eqb a b) in
        lazymatch r with
        | true => change (Ascii.eqb a b) with true
        | false => change (Ascii.eqb a b) with false
        end
    end;
  cbv iota.

Ltac next_char := rewrite skip_ws_head by reflexivity; decide_chars.

Lemma elem_reads_back (gap inner : string) (x : jsval) (rest : string) (fuel : nat) :
  reads_back x →
  JSON.blank gap = true → JSON.blank inner = true →
  JSON.plain x = true →
  delimited rest = true →
  (String.length (elem_text gap inner x) ≤ fuel)%nat →
  JSON.parse_value fuel (elem_text gap inner x +:+ rest) = Some (clean_elem x, rest).
Proof.
  intros Hx Hgap Hinner Hwk Hrest Hfuel. unfold elem_text in *.
  destruct (JSON.serialize gap inner x) as [str|] eqn:E; cbn [default] in *.
  - replace (clean_elem x) with (JSON.clean x).
    + now apply (Hx gap inner).
    + destruct x; try reflexivity. discriminate E.
  - apply serialize_None in E as ->. destruct fuel; [simpl in Hfuel; lia|].
    apply parse_value_null.
Qed.

Lemma parse_elements_S (fuel : nat) (s : string) :
  JSON.parse_elements (S fuel) s =
  match JSON.parse_value fuel s with
  | None => None
  | Some (v, r) =>
      match JSON.skip_ws r with
      | EmptyString => None
      | String c r' =>
          if Ascii.eqb c "," then
            match JSON.parse_elements fuel r' with
            | Some (vs, r'') => Some (v :: vs, r'')
            | None => None
            end
          else if Ascii.eqb c "]" then Some ([v], r')
          else None
      end
  end.
Proof. reflexivity. Qed.

Lemma parse_members_S (fuel : nat) (s : string) :
  JSON.parse_members (S fuel) s =
  match JSON.skip_ws s with
  | EmptyString => None
  | String q s1 =>
      if Ascii.eqb q DQUOTE then
        match JSON.parse_chars s1 with
        | None => None
        | Some (k, r) =>
            match JSON.skip_ws r with
            | EmptyString => None
            | String colon r1 =>
                if Ascii.eqb colon ":" then
                  match JSON.parse_value fuel r1 with
                  | None => None
                  | Some (v, r2) =>
                      match JSON.skip_ws r2 with
                      | EmptyString => None
                      | String c r3 =>
                          if Ascii.eqb c "," then
                            match JSON.parse_members fuel r3 with
                            | Some (ms, r4) => Some ((k, v) :: ms, r4)
                            | None => None
                            end
                          else if Ascii.eqb c "}" then Some ([(k, v)], r3)
                          else None
                      end
                  end
                else None
            end
        end
      else None
  end.
Proof. reflexivity. Qed.

Lemma join_cons2 (sep p q : string) (ps : list string) :
  join sep (p :: q :: ps) = p +:+ sep +:+ join sep (q :: ps).
Proof. reflexivity. Qed.

Lemma delimited_brk (gap indent : string) (c : ascii) (tail : string) :
  c = "]"%char ∨ c = "}"%char →
  delimited (brk gap indent +:+ String c tail) = true.
Proof. unfold brk. intros [-> | ->]; destruct (JSON.is_compact gap); reflexivity. Qed.

Lemma parse_elements_join (gap inner : string) (xs : list jsval) :
  JSON.blank gap = true → JSON.blank inner = true →
  Forall reads_back xs → forallb JSON.plain xs = true → xs ≠ [] →
  ∀ (fuel : nat) (w tail : string),
    JSON.blank w = true → delimited (w +:+ String "]" tail) = true →
    (String.length (join (String "," (brk gap inner)) (map (elem_text gap inner) xs)) < fuel)%nat →
    JSON.parse_elements fuel
      (join (String "," (brk gap inner)) (map (elem_text gap inner) xs) +:+ w +:+ String "]" tail)
    = Some (map clean_elem xs, tail).
Proof.
  intros Hgap Hinner Hall Hwk Hne.
  induction Hall as [|x xs Hx Hall IH]; [congruence|]. clear Hne.
  cbn [forallb] in Hwk. apply andb_true_iff in Hwk as [Hwx Hwk].
  intros fuel w tail Hw Hdel Hfuel.
  destruct fuel as [|fuel]; [lia|].
  destruct xs as [|x' xs].
  - cbn [map join] in *. rewrite parse_elements_S.
    rewrite (elem_reads_back gap inner x) by (assumption || lia).
    rewrite skip_ws_blank by assumption. next_char. reflexivity.
  - cbn [map] in *. rewrite join_cons2 in *. rewrite !length_sapp in Hfuel.
    sapp. rewrite parse_elements_S.
    rewrite (elem_reads_back gap inner x) by (assumption || reflexivity || lia).
    next_char.
    rewrite parse_elements_ws by now apply blank_brk.
    rewrite (IH Hwk ltac:(discriminate) fuel w tail Hw Hdel).
    + reflexivity.
    + cbn [String.length] in Hfuel. lia.
Qed.

Lemma parse_members_join (gap inner : string) (kvs : list (string * jsval)) :
  JSON.blank gap = true → JSON.blank inner = true →
  Forall (λ kv, reads_back kv.2) kvs →
  forallb (λ kv, JSON.plain kv.2) kvs = true →
  forallb (λ kv, negb (is_undefined kv.2)) kvs = true →
  kvs ≠ [] →
  ∀ (fuel : nat) (w tail : string),
    JSON.blank w = true → delimited (w +:+ String "}" tail) = true →
    (String.length (join (String "," (brk gap inner)) (map (member_text gap inner) kvs)) < fuel)%nat →
    JSON.parse_members fuel
      (join (String "," (brk gap inner)) (map (member_text gap inner) kvs) +:+ w +:+ String "}" tail)
    = Some (map clean_member kvs, tail).
Proof.
  intros Hgap Hinner Hall Hwk Hdef Hne.
  induction Hall as [|[k x] kvs Hx Hall IH]; [congruence|]. clear Hne.
  cbn [forallb snd] in Hwk, Hdef, Hx.
  apply andb_true_iff in Hwk as [Hwx Hwk]. apply andb_true_iff in Hdef as [Hdx Hdef].
  intros fuel w tail Hw Hdel Hfuel.
  destruct fuel as [|fuel]; [lia|].
  assert (Hclean : clean_elem x = JSON.clean x) by (destruct x; [discriminate Hdx | reflexivity ..]).
  assert (Hsp : JSON.blank (if JSON.is_compact gap then "" else " ") = true)
    by now destruct (JSON.is_compact gap).
  destruct kvs as [|kv' kvs].
  - cbn [map join] in *. unfold member_text, JSON.member, JSON.quote in *. cbn [fst snd] in *.
    rewrite !length_sapp in Hfuel. cbn [String.length] in Hfuel.
    sapp. rewrite parse_members_S. next_char. rewrite parse_chars_quote. next_char.
    rewrite parse_value_ws by assumption.
    rewrite (elem_reads_back gap inner x) by (assumption || lia).
    rewrite skip_ws_blank by assumption. next_char. now rewrite Hclean.
  - cbn [map] in *. rewrite join_cons2 in *.
    unfold member_text at 1, JSON.member, JSON.quote. cbn [fst snd].
    unfold member_text at 1 in Hfuel. unfold JSON.member, JSON.quote in Hfuel.
    cbn [fst snd] in Hfuel.
    rewrite !length_sapp in Hfuel. cbn [String.length] in Hfuel.
    sapp. rewrite parse_members_S. next_char. rewrite parse_chars_quote. next_char.
    rewrite parse_value_ws by assumption.
    rewrite (elem_reads_back gap inner x) by (assumption || reflexivity || lia).
    next_char.
    rewrite parse_members_ws by now apply blank_brk.
    rewrite (IH Hwk Hdef ltac:(discriminate) fuel w tail Hw Hdel).
    + now rewrite Hclean.
    + cbn [String.length] in Hfuel. lia.
Qed.

Lemma parse_value_array_open (fuel : nat) (s : string) :
  opens_value (JSON.skip_ws s) = true →
  JSON.parse_value (S fuel) (String "[" s) =
  match JSON.parse_elements fuel s with
  | Some (xs, r) => Some (VArr xs, r)
  | None => None
  end.
Proof.
  intros H.
  change (JSON.parse_value (S fuel) (String "[" s))
    with (match JSON.skip_ws s with
          | String c' r =>
              if Ascii.eqb c' "]" then Some (VArr [], r)
              else
                match JSON.parse_elements fuel s with
                | Some (xs, r') => Some (VArr xs, r')
                | None => None
                end
          | EmptyString => None
          end).
  destruct (JSON.skip_ws s) as [|c r]; [discriminate H|].
  cbn [opens_value] in H. destruct (Ascii.eqb c "]"); [|reflexivity].
  rewrite andb_false_r in H. discriminate H.
Qed.

Lemma parse_value_object_open (fuel : nat) (s : string) :
  opens_value (JSON.skip_ws s) = true →
  JSON.parse_value (S fuel) (String "{" s) =
  match JSON.parse_members fuel s with
  | Some (ms, r) => Some (VObj (JSON.obj_of_members ms), r)
  | None => None
  end.
Proof.
  intros H.
  change (JSON.parse_value (S fuel) (String "{" s))
    with (match JSON.skip_ws s with
          | String c' r =>
              if Ascii.eqb c' "}" then Some (VObj [], r)
              else
                match JSON.parse_members fuel s with
                | Some (ms, r') => Some (VObj (JSON.obj_of_members ms), r')
                | None => None
                end
          | EmptyString => None
          end).
  destruct (JSON.skip_ws s) as [|c r]; [discriminate H|].
  cbn [opens_value] in H. destruct (Ascii.eqb c "}"); [|reflexivity].
  rewrite andb_false_r in H. discriminate H.
Qed.

Lemma join_opens (sep p : string) (ps : list string) (rest : string) :
  (∀ r, opens_value (p +:+ r) = true) →
  opens_value (join sep (p :: ps) +:+ rest) = true.
Proof.
  intros Hp. destruct ps as [|q ps]; [apply Hp|].
  rewrite join_cons2. sapp. apply Hp.
Qed.

Lemma forallb_kept (f : string * jsval → bool) (kvs : list (string * jsval)) :
  forallb f kvs = true → forallb f (kept kvs) = true.
Proof.
  induction kvs as [|[k x] kvs IH]; [reflexivity|]. cbn [forallb].
  intros [Hf Hall]%andb_true_iff. rewrite kept_cons.
  destruct (is_undefined x); [auto|]. cbn [forallb]. rewrite Hf. auto.
Qed.

Lemma kept_defined (kvs : list (string * jsval)) :
  forallb (λ kv, negb (is_undefined kv.2)) (kept kvs) = true.
Proof.
  induction kvs as [|[k x] kvs IH]; [reflexivity|]. rewrite kept_cons.
  destruct (is_undefined x) eqn:E; [exact IH|]. cbn [forallb snd]. now rewrite E.
Qed.

Lemma Forall_kept (P : string * jsval → Prop) (kvs : list (string * jsval)) :
  Forall P kvs → Forall P (kept kvs).
Proof.
  induction 1 as [|[k x] kvs Hx Hall IH]; [constructor|]. rewrite kept_cons.
  destruct (is_undefined x); [exact IH | now constructor].
Qed.

Lemma length_wrap_pos (c : ascii) (o close gap indent inner : string) (ps : list string) :
  (0 < String.length (JSON.wrap (String c o) close gap indent inner ps))%nat.
Proof.
  unfold JSON.wrap. destruct ps; [|destruct (JSON.is_compact gap)];
    rewrite sapp_cons; cbn [String.length]; lia.
Qed.

(** Every plain value reads back from its text as its [clean] form. *)
Lemma serialize_reads_back (v : jsval) : reads_back v.
Proof.
  induction v as [| |b|n|m e|x|s|xs IH|kvs IH] using jsval_rect';
    intros gap indent str rest fuel Hgap Hind Hwk Hser Hrest Hfuel.
  - discriminate Hser.
  - injection Hser as <-. destruct fuel; [simpl in Hfuel; lia|]. apply parse_value_null.
  - injection Hser as <-. destruct fuel; [destruct b; simpl in Hfuel; lia|].
    apply parse_value_bool.
  - injection Hser as <-. destruct fuel.
    + destruct (Number_toString_head n) as (c & s & E & _). rewrite E in Hfuel.
      simpl in Hfuel. lia.
    + now apply parse_value_number.
  - discriminate Hwk.
  - injection Hser as <-. destruct fuel; [simpl in Hfuel; lia|]. apply parse_value_null.
  - injection Hser as <-. destruct fuel; [simpl in Hfuel; lia|]. apply parse_value_quote.
  - rewrite serialize_VArr in Hser. injection Hser as <-. rewrite clean_VArr.
    rewrite plain_VArr in Hwk.
    destruct fuel as [|fuel]; [pose proof (length_wrap_pos "[" "" "]" gap indent (indent +:+ gap)
                                             (map (elem_text gap (indent +:+ gap)) xs)); lia|].
    destruct xs as [|x xs]; [reflexivity|].
    assert (Hinner : JSON.blank (indent +:+ gap) = true) by now apply blank_sapp.
    cbn [map] in Hfuel |- *. rewrite wrap_cons in Hfuel |- *.
    rewrite !length_sapp in Hfuel. cbn [String.length] in Hfuel.
    sapp. rewrite parse_value_array_open.
    + rewrite parse_elements_ws by now apply blank_brk.
      rewrite (parse_elements_join gap (indent +:+ gap) (x :: xs)); try assumption.
      * reflexivity.
      * discriminate.
      * now apply blank_brk.
      * apply delimited_brk. now left.
      * cbn [map]. lia.
    + rewrite skip_ws_blank by now apply blank_brk.
      rewrite skip_ws_opens; apply join_opens; intros r; apply elem_text_opens.
  - rewrite serialize_VObj in Hser. injection Hser as <-. rewrite clean_VObj.
    rewrite plain_VObj in Hwk. apply andb_true_iff in Hwk as [Hkeys Hwk].
    destruct fuel as [|fuel]; [pose proof (length_wrap_pos "{" "" "}" gap indent (indent +:+ gap)
                                             (map (member_text gap (indent +:+ gap)) (kept kvs))); lia|].
    destruct (kept kvs) as [|kv ms] eqn:Ekept; [reflexivity|].
    assert (Hinner : JSON.blank (indent +:+ gap) = true) by now apply blank_sapp.
    cbn [map] in Hfuel |- *. rewrite wrap_cons in Hfuel |- *.
    rewrite !length_sapp in Hfuel. cbn [String.length] in Hfuel.
    sapp. rewrite parse_value_object_open.
    + rewrite parse_members_ws by now apply blank_brk.
      rewrite (parse_members_join gap (indent +:+ gap) (kv :: ms)); try assumption.
      * rewrite obj_of_members_distinct; [reflexivity|].
        rewrite <- Ekept. now apply keys_distinct_clean_kept.
      * rewrite <- Ekept. now apply Forall_kept.
      * rewrite <- Ekept. now apply forallb_kept.
      * rewrite <- Ekept. apply kept_defined.
      * discriminate.
      * now apply blank_brk.
      * apply delimited_brk. now right.
      * cbn [map]. lia.
    + rewrite skip_ws_blank by now apply blank_brk.
      rewrite skip_ws_opens; apply join_opens; intros r;
        unfold member_text, JSON.member, JSON.quote; sapp; reflexivity.
Qed.

(** [JSON.parse(JSON.stringify(v, null, space))] is [v] without its
    [undefined] parts and with [null] for its numbers that are not
    finite, for every value whose objects list no key twice. *)
Lemma parse_stringify (space : nat) (v : jsval) (text : string) :
  JSON.plain v = true →
  JSON.stringify space v = Some text →
  JSON.parse text = Some (JSON.clean v).
Proof.
  intros Hwk Hser. unfold JSON.parse.
  rewrite <- (sapp_nil_r text) at 2.
  rewrite (serialize_reads_back v (JSON.spaces space) "" text ""); try easy.
  - apply blank_spaces.
  - lia.
Qed.

Lemma stringify_defined (space : nat) (v : jsval) :
  v ≠ VUndefined → ∃ text, JSON.stringify space v = Some text.
Proof.
  intros Hv. unfold JSON.stringify.
  destruct (JSON.serialize (JSON.spaces space) "" v) as [text|] eqn:E; [eauto|].
  now apply serialize_None in E.
Qed.

(** *** The fuel of [JSON.parse] is enough

    More fuel never changes a result, and a value is read with no more
    fuel than it has characters: what [JSON.parse] refuses, no amount of
    fuel would read. *)

Lemma parse_value_S (fuel : nat) (s : string) :
  JSON.parse_value (S fuel) s =
  match JSON.skip_ws s with
  | EmptyString => None
  | String c s' =>
      if Ascii.eqb c "{" then
        match JSON.skip_ws s' with
        | String c' r =>
            if Ascii.eqb c' "}" then Some (VObj [], r)
            else
              match JSON.parse_members fuel s' with
              | Some (ms, r') => Some (VObj (JSON.obj_of_members ms), r')
              | None => None
              end
        | EmptyString => None
        end
      else if Ascii.eqb c "[" then
        match JSON.skip_ws s' with
        | String c' r =>
            if Ascii.eqb c' "]" then Some (VArr [], r)
            else
              match JSON.parse_elements fuel s' with
              | Some (xs, r') => Some (VArr xs, r')
              | None => None
              end
        | EmptyString => None
        end
      else if Ascii.eqb c DQUOTE then
        match JSON.parse_chars s' with
        | Some (str, r) => Some (VStr str, r)
        | None => None
        end
      else if Ascii.eqb c "n" then
        match JSON.expect "ull" s' with Some r => Some (VNull, r) | None => None end
      else if Ascii.eqb c "t" then
        match JSON.expect "rue" s' with Some r => Some (VBool true, r) | None => None end
      else if Ascii.eqb c "f" then
        match JSON.expect "alse" s' with Some r => Some (VBool false, r) | None => None end
      else JSON.parse_number (String c s')
  end.
Proof. reflexivity. Qed.

Lemma parse_fuel_mono (fuel : nat) :
  (∀ s r fuel', JSON.parse_value fuel s = Some r → (fuel ≤ fuel')%nat →
                JSON.parse_value fuel' s = Some r)
  ∧ (∀ s r fuel', JSON.parse_elements fuel s = Some r → (fuel ≤ fuel')%nat →
                  JSON.parse_elements fuel' s = Some r)
  ∧ (∀ s r fuel', JSON.parse_members fuel s = Some r → (fuel ≤ fuel')%nat →
                  JSON.parse_members fuel' s = Some r).
Proof.
  induction fuel as [|fuel (IHv & IHe & IHm)]; [repeat split; discriminate|].
  split; [|split]; intros s r [|fuel'] H Hle; try lia.
  - rewrite parse_value_S in H |- *.
    destruct (JSON.skip_ws s) as [|c s']; [discriminate H|].
    destruct (Ascii.eqb c "{").
    { destruct (JSON.skip_ws s') as [|c' r']; [discriminate H|].
      destruct (Ascii.eqb c' "}"); [exact H|].
      destruct (JSON.parse_members fuel s') as [[ms r'']|] eqn:E; [|discriminate H].
      now rewrite (IHm _ _ fuel' E) by lia. }
    destruct (Ascii.eqb c "[").
    { destruct (JSON.skip_ws s') as [|c' r']; [discriminate H|].
      destruct (Ascii.eqb c' "]"); [exact H|].
      destruct (JSON.parse_elements fuel s') as [[xs r'']|] eqn:E; [|discriminate H].
      now rewrite (IHe _ _ fuel' E) by lia. }
    exact H.
  - rewrite parse_elements_S in H |- *.
    destruct (JSON.parse_value fuel s) as [[v r1]|] eqn:E; [|discriminate H].
    rewrite (IHv _ _ fuel' E) by lia.
    destruct (JSON.skip_ws r1) as [|c r2]; [discriminate H|].
    destruct (Ascii.eqb c ","); [|exact H].
    destruct (JSON.parse_elements fuel r2) as [[vs r3]|] eqn:E'; [|discriminate H].
    now rewrite (IHe _ _ fuel' E') by lia.
  - rewrite parse_members_S in H |- *.
    destruct (JSON.skip_ws s) as [|q s1]; [discriminate H|].
    destruct (Ascii.eqb q DQUOTE); [|discriminate H].
    destruct (JSON.parse_chars s1) as [[k r1]|]; [|discriminate H].
    destruct (JSON.skip_ws r1) as [|colon r2]; [discriminate H|].
    destruct (Ascii.eqb colon ":"); [|discriminate H].
    destruct (JSON.parse_value fuel r2) as [[v r3]|] eqn:E; [|discriminate H].
    rewrite (IHv _ _ fuel' E) by lia.
    destruct (JSON.skip_ws r3) as [|c r4]; [discriminate H|].
    destruct (Ascii.eqb c ","); [|exact H].
    destruct (JSON.parse_members fuel r4) as [[ms r5]|] eqn:E'; [|discriminate H].
    now rewrite (IHm _ _ fuel' E') by lia.
Qed.

(** What is left after a piece was read is shorter than the text. *)
Lemma skip_ws_length (s : string) : (String.length (JSON.skip_ws s) ≤ String.length s)%nat.
Proof.
  induction s as [|c s IH]; [reflexivity|]. cbn [JSON.skip_ws].
  destruct (JSON.is_ws c); cbn [String.length]; lia.
Qed.

Lemma skip_ws_cons_length (s : string) (c : ascii) (s' : string) :
  JSON.skip_ws s = String c s' → (String.length s' < String.length s)%nat.
Proof.
  intros H. pose proof (skip_ws_length s) as Hle. rewrite H in Hle.
  cbn [String.length] in Hle. lia.
Qed.

Lemma expect_length (lit s r : string) :
  JSON.expect lit s = Some r → (String.length r ≤ String.length s)%nat.
Proof.
  revert s. induction lit as [|a lit IH]; intros s H.
  - cbn in H. injection H as <-. lia.
  - destruct s as [|b s]; [discriminate H|]. cbn [JSON.expect] in H.
    destruct (Ascii.eqb a b); [|discriminate H]. apply IH in H. cbn [String.length]. lia.
Qed.

Lemma parse_digits_length (s : string) :
  ∀ acc, (String.length (JSON.parse_digits acc s).2 ≤ String.length s)%nat.
Proof.
  induction s as [|c s IH]; intros acc; [reflexivity|]. cbn [JSON.parse_digits].
  destruct (JSON.is_digit c); [|reflexivity].
  specialize (IH (acc * 10 + (N_of_ascii c - 48))%N). cbn [String.length]. lia.
Qed.

Lemma parse_frac_length (n : N) (s : string) (m : N) (k : nat) (r : string) :
  JSON.parse_frac n s = Some (m, k, r) → (String.length r ≤ String.length s)%nat.
Proof.
  destruct s as [|c s1]; cbn [JSON.parse_frac]; [now intros [= _ _ <-]|].
  destruct (Ascii.eqb c "."); [|now intros [= _ _ <-]].
  destruct s1 as [|d s2]; [discriminate|].
  destruct (JSON.is_digit d); [|discriminate].
  pose proof (parse_digits_length (String d s2) n) as Hle.
  destruct (JSON.parse_digits n (String d s2)) as [m' r']. cbn [snd] in Hle.
  intros [= _ _ <-]. cbn [String.length] in *. lia.
Qed.

Lemma parse_exp_length (s : string) (x : Z) (r : string) :
  JSON.parse_exp s = Some (x, r) → (String.length r ≤ String.length s)%nat.
Proof.
  destruct s as [|c s1]; cbn [JSON.parse_exp]; [now intros [= _ <-]|].
  destruct (Ascii.eqb c "e" || Ascii.eqb c "E"); [|now intros [= _ <-]].
  assert (Hdigits : ∀ (negative : bool) s2,
             (String.length s2 ≤ String.length s1)%nat →
             match s2 with
             | EmptyString => None
             | String d _ =>
                 if JSON.is_digit d then
                   let '(x, r) := JSON.parse_digits 0 s2 in
                   Some (if negative then - Z.of_N x else Z.of_N x, r)
                 else None
             end = Some (x, r) →
             (String.length r ≤ String.length (String c s1))%nat).
  { intros negative [|d s3] Hle; [discriminate|].
    destruct (JSON.is_digit d); [|discriminate].
    pose proof (parse_digits_length (String d s3) 0%N) as Hle'.
    destruct (JSON.parse_digits 0 (String d s3)) as [x' r']. cbn [snd] in Hle'.
    intros [= _ <-]. cbn [String.length] in *. lia. }
  destruct s1 as [|sign s2]; [discriminate|].
  destruct (Ascii.eqb sign "-"); [|destruct (Ascii.eqb sign "+")]; intros H.
  - apply (Hdigits true s2); [cbn [String.length]; lia | exact H].
  - apply (Hdigits false s2); [cbn [String.length]; lia | exact H].
  - apply (Hdigits false (String sign s2)); [lia | exact H].
Qed.

Lemma parse_decimal_length (negative : bool) (n : N) (s : string) (v : jsval) (r : string) :
  JSON.parse_decimal negative n s = Some (v, r) → (String.length r ≤ String.length s)%nat.
Proof.
  unfold JSON.parse_decimal.
  destruct (JSON.parse_frac n s) as [[[m k] r1]|] eqn:Ef; [|discriminate].
  destruct (JSON.parse_exp r1) as [[x r2]|] eqn:Ee; [|discriminate].
  intros [= _ <-]. apply parse_frac_length in Ef. apply parse_exp_length in Ee. lia.
Qed.

Lemma parse_number_length (s : string) (v : jsval) (r : string) :
  JSON.parse_number s = Some (v, r) → (String.length r < String.length s)%nat.
Proof.
  assert (Hint : ∀ t n r', JSON.parse_int t = Some (n, r') →
                           (String.length r' < String.length t)%nat).
  { intros [|c t] n r' H; [discriminate H|]. cbn [JSON.parse_int] in H.
    destruct (Ascii.eqb c "0"); [injection H as _ <-; cbn; lia|].
    destruct (JSON.is_digit c) eqn:Ed; [|discriminate H].
    injection H as H. cbn [JSON.parse_digits] in H. rewrite Ed in H.
    pose proof (parse_digits_length t (0 * 10 + (N_of_ascii c - 48))%N) as Hle.
    destruct (JSON.parse_digits _ t) as [n' r'']. cbn [snd] in Hle.
    injection H as _ <-. cbn [String.length]. lia. }
  destruct s as [|c s]; [discriminate|]. cbn [JSON.parse_number].
  destruct (Ascii.eqb c "-").
  - destruct (JSON.parse_int s) as [[n r']|] eqn:E; [|discriminate].
    apply Hint in E. cbn [String.length].
    destruct (JSON.integer_ends r'); [intros [= _ <-]; lia|].
    intros H. apply parse_decimal_length in H. lia.
  - destruct (JSON.parse_int (String c s)) as [[n r']|] eqn:E; [|discriminate].
    apply Hint in E. cbn [String.length] in E |- *.
    destruct (JSON.integer_ends r'); [intros [= _ <-]; lia|].
    intros H. apply parse_decimal_length in H. lia.
Qed.

Lemma parse_chars_length (n : nat) :
  ∀ s str r, (String.length s ≤ n)%nat → JSON.parse_chars s = Some (str, r) →
             (String.length r < String.length s)%nat.
Proof.
  induction n as [|n IH]; intros [|c s1] str r Hn H; try discriminate H;
    cbn [String.length] in Hn; [lia|].
  simpl in H.
  repeat match type of H with
         | context [match ?x with _ => _ end] =>
             lazymatch x with
             | context [match _ with _ => _ end] => fail
             | _ => destruct x eqn:?; try discriminate H
             end
         end;
    injection H as _ <-; cbn [String.length] in *;
    repeat match goal with
           | E : JSON.parse_chars _ = Some _ |- _ => apply IH in E; [|cbn [String.length]; lia]
           end;
    cbn [String.length] in *; lia.
Qed.

(** A value is read with no more fuel than it has characters. *)
Lemma parse_fuel_bound (fuel : nat) :
  (∀ s v r, JSON.parse_value fuel s = Some (v, r) →
            (String.length r < String.length s)%nat
            ∧ JSON.parse_value (String.length s - String.length r) s = Some (v, r))
  ∧ (∀ s vs r, JSON.parse_elements fuel s = Some (vs, r) →
               (String.length r < String.length s)%nat
               ∧ JSON.parse_elements (String.length s - String.length r) s = Some (vs, r))
  ∧ (∀ s ms r, JSON.parse_members fuel s = Some (ms, r) →
               (String.length r < String.length s)%nat
               ∧ JSON.parse_members (String.length s - String.length r) s = Some (ms, r)).
Proof.
  induction fuel as [|fuel (IHv & IHe & IHm)]; [repeat split; discriminate|].
  split; [|split]; intros s v r H.
  - rewrite parse_value_S in H.
    destruct (JSON.skip_ws s) as [|c s'] eqn:Es; [discriminate H|].
    pose proof (skip_ws_cons_length _ _ _ Es) as Hs.
    assert (Hscalar : ∀ res, (String.length r < String.length s')%nat ∨
                             (String.length r ≤ String.length s')%nat →
              (∀ g, JSON.parse_value (S g) s = res) → res = Some (v, r) →
              (String.length r < String.length s)%nat
              ∧ JSON.parse_value (String.length s - String.length r) s = Some (v, r)).
    { intros res Hr Hg ->. split; [lia|].
      destruct (String.length s - String.length r)%nat as [|g] eqn:Eg; [lia|]. apply Hg. }
    destruct (Ascii.eqb c "{") eqn:E1.
    { destruct (JSON.skip_ws s') as [|c' r'] eqn:Es'; [discriminate H|].
      pose proof (skip_ws_cons_length _ _ _ Es') as Hs'.
      destruct (Ascii.eqb c' "}") eqn:E2.
      - injection H as <- <-.
        apply (Hscalar (Some (VObj [], r'))); [lia| |reflexivity].
        intros g. now rewrite parse_value_S, Es, E1, Es', E2.
      - destruct (JSON.parse_members fuel s') as [[ms r'']|] eqn:E; [|discriminate H].
        injection H as <- <-. destruct (IHm _ _ _ E) as [Hlt Hm]. split; [lia|].
        destruct (String.length s - String.length r'')%nat as [|g] eqn:Eg; [lia|].
        rewrite parse_value_S, Es, E1, Es', E2.
        now rewrite (proj2 (proj2 (parse_fuel_mono _)) _ _ g Hm) by lia. }
    destruct (Ascii.eqb c "[") eqn:E2.
    { destruct (JSON.skip_ws s') as [|c' r'] eqn:Es'; [discriminate H|].
      pose proof (skip_ws_cons_length _ _ _ Es') as Hs'.
      destruct (Ascii.eqb c' "]") eqn:E3.
      - injection H as <- <-.
        apply (Hscalar (Some (VArr [], r'))); [lia| |reflexivity].
        intros g. now rewrite parse_value_S, Es, E1, E2, Es', E3.
      - destruct (JSON.parse_elements fuel s') as [[xs r'']|] eqn:E; [|discriminate H].
        injection H as <- <-. destruct (IHe _ _ _ E) as [Hlt He]. split; [lia|].
        destruct (String.length s - String.length r'')%nat as [|g] eqn:Eg; [lia|].
        rewrite parse_value_S, Es, E1, E2, Es', E3.
        now rewrite (proj1 (proj2 (parse_fuel_mono _)) _ _ g He) by lia. }
    destruct (Ascii.eqb c DQUOTE) eqn:E3.
    { destruct (JSON.parse_chars s') as [[str r']|] eqn:E; [|discriminate H].
      injection H as <- <-. apply parse_chars_length with (n := String.length s') in E as Hlt; [|lia].
      apply (Hscalar (Some (VStr str, r'))); [lia| |reflexivity].
      intros g. now rewrite parse_value_S, Es, E1, E2, E3, E. }
    destruct (Ascii.eqb c "n") eqn:E4.
    { destruct (JSON.expect "ull" s') as [r'|] eqn:E; [|discriminate H].
      injection H as <- <-. apply expect_length in E as Hle.
      apply (Hscalar (Some (VNull, r'))); [lia| |reflexivity].
      intros g. now rewrite parse_value_S, Es, E1, E2, E3, E4, E. }
    destruct (Ascii.eqb c "t") eqn:E5.
    { destruct (JSON.expect "rue" s') as [r'|] eqn:E; [|discriminate H].
      injection H as <- <-. apply expect_length in E as Hle.
      apply (Hscalar (Some (VBool true, r'))); [lia| |reflexivity].
      intros g. now rewrite parse_value_S, Es, E1, E2, E3, E4, E5, E. }
    destruct (Ascii.eqb c "f") eqn:E6.
    { destruct (JSON.expect "alse" s') as [r'|] eqn:E; [|discriminate H].
      injection H as <- <-. apply expect_length in E as Hle.
      apply (Hscalar (Some (VBool false, r'))); [lia| |reflexivity].
      intros g. now rewrite parse_value_S, Es, E1, E2, E3, E4, E5, E6, E. }
    apply parse_number_length in H as Hlt. cbn [String.length] in Hlt.
    apply (Hscalar (JSON.parse_number (String c s'))); [lia| |exact H].
    intros g. now rewrite parse_value_S, Es, E1, E2, E3, E4, E5, E6.
  - rename v into vs. rewrite parse_elements_S in H.
    destruct (JSON.parse_value fuel s) as [[v r1]|] eqn:E; [|discriminate H].
    destruct (IHv _ _ _ E) as [Hlt Hv].
    destruct (JSON.skip_ws r1) as [|c r2] eqn:Es; [discriminate H|].
    pose proof (skip_ws_cons_length _ _ _ Es) as Hs.
    destruct (Ascii.eqb c ",") eqn:E1.
    + destruct (JSON.parse_elements fuel r2) as [[vs' r3]|] eqn:E'; [|discriminate H].
      injection H as <- <-. destruct (IHe _ _ _ E') as [Hlt' He]. split; [lia|].
      destruct (String.length s - String.length r3)%nat as [|g] eqn:Eg; [lia|].
      rewrite parse_elements_S.
      rewrite (proj1 (parse_fuel_mono _) _ _ g Hv) by lia. rewrite Es, E1.
      now rewrite (proj1 (proj2 (parse_fuel_mono _)) _ _ g He) by lia.
    + destruct (Ascii.eqb c "]") eqn:E2; [|discriminate H].
      injection H as <- <-. split; [lia|].
      destruct (String.length s - String.length r2)%nat as [|g] eqn:Eg; [lia|].
      rewrite parse_elements_S.
      rewrite (proj1 (parse_fuel_mono _) _ _ g Hv) by lia. now rewrite Es, E1, E2.
  - rename v into ms. rewrite parse_members_S in H.
    destruct (JSON.skip_ws s) as [|q s1] eqn:Es; [discriminate H|].
    pose proof (skip_ws_cons_length _ _ _ Es) as Hs.
    destruct (Ascii.eqb q DQUOTE) eqn:E1; [|discriminate H].
    destruct (JSON.parse_chars s1) as [[k r1]|] eqn:Ek; [|discriminate H].
    apply parse_chars_length with (n := String.length s1) in Ek as Hk; [|lia].
    destruct (JSON.skip_ws r1) as [|colon r2] eqn:Es1; [discriminate H|].
    pose proof (skip_ws_cons_length _ _ _ Es1) as Hs1.
    destruct (Ascii.eqb colon ":") eqn:E2; [|discriminate H].
    destruct (JSON.parse_value fuel r2) as [[v r3]|] eqn:E; [|discriminate H].
    destruct (IHv _ _ _ E) as [Hlt Hv].
    destruct (JSON.skip_ws r3) as [|c r4] eqn:Es3; [discriminate H|].
    pose proof (skip_ws_cons_length _ _ _ Es3) as Hs3.
    destruct (Ascii.eqb c ",") eqn:E3.
    + destruct (JSON.parse_members fuel r4) as [[ms' r5]|] eqn:E'; [|discriminate H].
      injection H as <- <-. destruct (IHm _ _ _ E') as [Hlt' Hm]. split; [lia|].
      destruct (String.length s - String.length r5)%nat as [|g] eqn:Eg; [lia|].
      rewrite parse_members_S, Es, E1, Ek, Es1, E2.
      rewrite (proj1 (parse_fuel_mono _) _ _ g Hv) by lia. rewrite Es3, E3.
      now rewrite (proj2 (proj2 (parse_fuel_mono _)) _ _ g Hm) by lia.
    + destruct (Ascii.eqb c "}") eqn:E4; [|discriminate H].
      injection H as <- <-. split; [lia|].
      destruct (String.length s - String.length r4)%nat as [|g] eqn:Eg; [lia|].
      rewrite parse_members_S, Es, E1, Ek, Es1, E2.
      rewrite (proj1 (parse_fuel_mono _) _ _ g Hv) by lia. now rewrite Es3, E3, E4.
Qed.

(** [JSON.parse] refuses a text only when no fuel at all would read it as
    one value followed by white space. *)
Theorem parse_fuel_enough (text : string) :
  JSON.parse text = None ↔
  ∀ fuel v rest, JSON.parse_value fuel text = Some (v, rest) → JSON.skip_ws rest ≠ "".
Proof.
  unfold JSON.parse. split.
  - intros H fuel v rest Hv Hrest.
    destruct (proj1 (parse_fuel_bound fuel) _ _ _ Hv) as [Hlt Hb].
    rewrite (proj1 (parse_fuel_mono _) _ _ (S (String.length text)) Hb) in H by lia.
    now rewrite Hrest in H.
  - intros H. destruct (JSON.parse_value _ text) as [[v rest]|] eqn:E; [|reflexivity].
    apply H in E. destruct (String.eqb_spec (JSON.skip_ws rest) ""); [contradiction|reflexivity].
Qed.

(** No text reads as [undefined]. *)
Lemma decimal_defined (negative : bool) (m : N) (scale : Z) :
  is_undefined (JSON.decimal negative m scale) = false.
Proof.
  unfold JSON.decimal. destruct (m =? 0)%N; [reflexivity|].
  destruct (0 <=? scale); [reflexivity|].
  destruct (JSON.strip_zeros _ _ _) as [m' e]. now destruct e.
Qed.

Lemma parse_number_defined (s : string) (v : jsval) (r : string) :
  JSON.parse_number s = Some (v, r) → is_undefined v = false.
Proof.
  unfold JSON.parse_number, JSON.parse_decimal. destruct s as [|c s]; [discriminate|].
  destruct (Ascii.eqb c "-");
    (destruct (JSON.parse_int _) as [[n rest]|]; [|discriminate]);
    (destruct (JSON.integer_ends rest); [now intros [= <- _]|]);
    (destruct (JSON.parse_frac n rest) as [[[m k] r0]|]; [|discriminate]);
    (destruct (JSON.parse_exp r0) as [[x r']|]; [|discriminate]);
    intros [= <- _]; apply decimal_defined.
Qed.

Lemma parse_value_defined (fuel : nat) (s : string) (v : jsval) (r : string) :
  JSON.parse_value fuel s = Some (v, r) → is_undefined v = false.
Proof.
  destruct fuel as [|fuel]; [discriminate|]. cbn [JSON.parse_value].
  destruct (JSON.skip_ws s) as [|c s']; [discriminate|].
  repeat match goal with
    | |- context [if ?b then _ else _] => destruct b
    | |- context [match JSON.skip_ws ?x with _ => _ end] => destruct (JSON.skip_ws x)
    | |- context [match JSON.parse_members ?f ?x with _ => _ end] =>
        destruct (JSON.parse_members f x) as [[? ?]|]
    | |- context [match JSON.parse_elements ?f ?x with _ => _ end] =>
        destruct (JSON.parse_elements f x) as [[? ?]|]
    | |- context [match JSON.parse_chars ?x with _ => _ end] =>
        destruct (JSON.parse_chars x) as [[? ?]|]
    | |- context [match JSON.expect ?l ?x with _ => _ end] => destruct (JSON.expect l x)
    end;
    try discriminate; try (now intros [= <- _]).
  apply parse_number_defined.
Qed.

Lemma parse_defined (text : string) : JSON.parse text ≠ Some VUndefined.
Proof.
  unfold JSON.parse. destruct (JSON.parse_value _ text) as [[v rest]|] eqn:E; [|discriminate].
  destruct (String.eqb (JSON.skip_ws rest) ""); [|discriminate].
  intros [= ->]. now apply parse_value_defined in E.
Qed.

Example parse_numbers :
  map JSON.parse ["1.5"; "-2.50e-3"; "1e3"; "100e-2"; "-0.0"; "[1.5, 2E2]"; "1."; "01"; ".5"; "1e+"]
  = [Some (VDec 15 1); Some (VDec (-25) 4); Some (VNum 1000); Some (VNum 1); Some (VNum 0);
     Some (VArr [VDec 15 1; VNum 200]); None; None; None; None].
Proof. vm_compute. reflexivity. Qed.

Example stringify_numbers :
  map (JSON.stringify 0)
    [VNum (-42); VDec 15 1; VDec (-25) 4; VDec 1 7; VDec 1 6; VNonFinite NaN;
     VArr [VNonFinite Infinity; VNum 1]; VObj [("n", VNonFinite NegInfinity)]]
  = [Some "-42"; Some "1.5"; Some "-0.0025"; Some "1e-7"; Some "0.000001"; Some "null";
     Some "[null,1]"; Some ("{" +:+ JSON.quote "n" +:+ ":null}")].
Proof. vm_compute. reflexivity. Qed.

(** ** The credential store *)

Lemma lookup_app (p q : fs.path) (n : fs.node) :
  fs.lookup (p ++ q) n =
  match fs.lookup p n with
  | Some n' => fs.lookup q n'
  | None => None
  end.
Proof.
  revert n. induction p as [|name p IH]; intros n; [reflexivity|].
  cbn [app fs.lookup]. destruct n as [c|m]; [reflexivity|].
  destruct (m !! name); [apply IH | reflexivity].
Qed.

(** A file that was written is found, with what was written. *)
Lemma write_lookup (p : fs.path) (data : string) :
  ∀ n n', fs.write p data n = Some n' → fs.lookup p n' = Some (fs.File data).
Proof.
  induction p as [|name p IH]; intros n n' H; destruct n as [c|m]; try discriminate H.
  cbn [fs.write] in H. destruct p as [|name' p].
  - destruct (m !! name) as [[c|d]|]; try discriminate H; injection H as <-;
      cbn [fs.lookup]; now rewrite lookup_insert_eq.
  - destruct (m !! name) as [child|]; [|discriminate H].
    destruct (fs.write (name' :: p) data child) as [child'|] eqn:E; [|discriminate H].
    injection H as <-. cbn [fs.lookup]. rewrite lookup_insert_eq. now apply (IH child).
Qed.

(** A write below one name of a directory leaves the other names alone. *)
Lemma write_lookup_other (a b : string) (p q : fs.path) (data : string) (n n' : fs.node) :
  fs.write (a :: p) data n = Some n' → a ≠ b →
  fs.lookup (b :: q) n' = fs.lookup (b :: q) n.
Proof.
  intros H Hab. destruct n as [c|m]; [discriminate H|].
  cbn [fs.write] in H.
  assert (Hn' : ∃ x, n' = fs.Dir (<[a := x]> m)).
  { destruct p as [|name' p].
    - destruct (m !! a) as [[c|d]|]; try discriminate H; injection H as <-; eauto.
    - destruct (m !! a) as [child|]; [|discriminate H].
      destruct (fs.write (name' :: p) data child); [|discriminate H].
      injection H as <-. eauto. }
  destruct Hn' as [x ->]. cbn [fs.lookup]. now rewrite lookup_insert_ne.
Qed.

(** When a write succeeds. *)
Lemma write_succeeds (p : fs.path) (name data : string) :
  ∀ n d, fs.lookup p n = Some (fs.Dir d) →
         (∀ e, d !! name ≠ Some (fs.Dir e)) →
         ∃ n', fs.write (p ++ [name]) data n = Some n'.
Proof.
  induction p as [|a p IH]; intros n d Hp Hfree.
  - cbn in Hp. injection Hp as ->. cbn [app fs.write].
    destruct (d !! name) as [[c|e]|] eqn:E; eauto. now destruct (Hfree e).
  - cbn [fs.lookup] in Hp. destruct n as [c|m]; [discriminate Hp|].
    destruct (m !! a) as [child|] eqn:Ea; [|discriminate Hp].
    destruct (IH child d Hp Hfree) as [child' Hw].
    cbn [app fs.write]. rewrite Ea, Hw.
    destruct (p ++ [name]) eqn:Epn; [now destruct p | eauto].
Qed.

(** A directory made where nothing was is empty. *)
Lemma mkdir_fresh (p : fs.path) :
  ∀ n n', fs.mkdir p n = Some n' → fs.lookup p n = None →
          fs.lookup p n' = Some (fs.Dir ∅).
Proof.
  induction p as [|a p IH]; intros n n' H Hnone; [discriminate Hnone|].
  destruct n as [c|m]; [discriminate H|]. cbn [fs.mkdir] in H.
  destruct (fs.mkdir p (default (fs.Dir ∅) (m !! a))) as [child|] eqn:E; [|discriminate H].
  injection H as <-. cbn [fs.lookup] in Hnone |- *. rewrite lookup_insert_eq.
  destruct (m !! a) as [old|] eqn:Ea; cbn [default] in E.
  - now apply (IH old).
  - destruct p as [|b p].
    + cbn in E. now injection E as <-.
    + apply (IH (fs.Dir ∅)); [exact E|]. cbn [fs.lookup]. now rewrite lookup_empty.
Qed.

Lemma stringify_tokens (t : OAuthTokens) :
  ∃ data, JSON.stringify 2 (OAuthTokens_object t) = Some data
          ∧ JSON.parse data = Some (OAuthTokens_json t).
Proof.
  destruct (stringify_defined 2 (OAuthTokens_object t)) as [data Hdata]; [discriminate|].
  exists data. split; [exact Hdata|].
  rewrite (parse_stringify 2 (OAuthTokens_object t) data); [| |exact Hdata].
  - f_equal. unfold OAuthTokens_object, OAuthTokens_json.
    destruct (expires_in t) as [n|x], (refresh_token t),
      (refresh_token_expires_in t) as [[m|y]|]; reflexivity.
  - unfold OAuthTokens_object.
    destruct (expires_in t) as [n|x], (refresh_token t),
      (refresh_token_expires_in t) as [[m|y]|]; reflexivity.
Qed.

(** A record of finite numbers comes back as its object. *)
Lemma OAuthTokens_json_finite (t : OAuthTokens) :
  finite_numbers t = true → OAuthTokens_json t = OAuthTokens_object t.
Proof.
  unfold finite_numbers, OAuthTokens_json, OAuthTokens_object.
  destruct (expires_in t) as [n|x]; [|discriminate].
  destruct (refresh_token_expires_in t) as [[m|y]|]; [reflexivity | discriminate | reflexivity].
Qed.

Lemma Number_value_inj (a b : number) : Number_value a = Number_value b → a = b.
Proof. destruct a, b; cbn; congruence. Qed.

(** The object of a record determines each of its fields. *)
Lemma OAuthTokens_object_inj (t1 t2 : OAuthTokens) :
  OAuthTokens_object t1 = OAuthTokens_object t2 → t1 = t2.
Proof.
  destruct t1 as [a1 e1 r1 x1 s1 k1 c1], t2 as [a2 e2 r2 x2 s2 k2 c2].
  unfold OAuthTokens_object. cbn [access_token expires_in refresh_token
    refresh_token_expires_in scope token_type created_at].
  destruct r1, r2, x1, x2; cbn [app]; intros H; injection H; intros; subst;
    repeat match goal with
      | E : Number_value _ = Number_value _ |- _ => apply Number_value_inj in E; subst
      end;
    first [reflexivity | discriminate].
Qed.

Lemma load_after_write (dir : fs.path) (data : string) (v : jsval) (root root' : fs.node) :
  fs.write (dir ++ ["linkedin.json"]) data root = Some root' →
  JSON.parse data = Some v →
  dir = clawdbotDir ∨ (dir = moltbotDir ∧ fs.existsSync clawdbotDir root = false) →
  loadTokens root' = Ok v.
Proof.
  intros Hw Hparse Hdir. unfold loadTokens, fs.existsSync, fs.readFileSync.
  destruct Hdir as [-> | [-> Habsent]].
  - rewrite (write_lookup _ _ _ _ Hw), Hparse. reflexivity.
  - assert (Hnone : fs.lookup (clawdbotDir ++ ["linkedin.json"]) root' = None).
    { cbn [moltbotDir clawdbotDir app] in Hw |- *.
      rewrite (write_lookup_other _ ".clawdbot" _ _ _ _ _ Hw) by discriminate.
      change [".clawdbot"; "credentials"; "linkedin.json"]
        with (clawdbotDir ++ ["linkedin.json"]).
      rewrite lookup_app. unfold fs.existsSync in Habsent.
      now destruct (fs.lookup clawdbotDir root). }
    rewrite Hnone, (write_lookup _ _ _ _ Hw), Hparse. reflexivity.
Qed.

Lemma save_general (t : OAuthTokens) (root root' : fs.node) :
  saveTokens t root = Ok root' → loadTokens root' = Ok (OAuthTokens_json t).
Proof.
  destruct (stringify_tokens t) as (data & Hdata & Hparse).
  unfold saveTokens, getCredentialsDir. rewrite Hdata.
  destruct (fs.existsSync clawdbotDir root) eqn:Ec.
  - rewrite Ec. cbn [negb]. unfold fs.writeFileSync.
    destruct (fs.write _ data root) as [r|] eqn:Hw; [|discriminate].
    intros [= <-]. eapply load_after_write; eauto.
  - destruct (fs.existsSync moltbotDir root) eqn:Em.
    + rewrite Em. cbn [negb]. unfold fs.writeFileSync.
      destruct (fs.write _ data root) as [r|] eqn:Hw; [|discriminate].
      intros [= <-]. eapply load_after_write; eauto.
    + rewrite Ec. cbn [negb]. unfold fs.mkdirSync, fs.writeFileSync.
      destruct (fs.mkdir clawdbotDir root) as [root1|]; [|discriminate].
      destruct (fs.write _ data root1) as [r|] eqn:Hw; [|discriminate].
      intros [= <-]. eapply load_after_write; eauto.
Qed.

Lemma save_succeeds (t : OAuthTokens) (root : fs.node) :
  (can_hold clawdbotDir root
   ∨ (fs.existsSync clawdbotDir root = false ∧ can_hold moltbotDir root)
   ∨ (fs.existsSync clawdbotDir root = false ∧ fs.existsSync moltbotDir root = false
      ∧ ∃ root1, fs.mkdir clawdbotDir root = Some root1)) →
  ∃ root', saveTokens t root = Ok root'.
Proof.
  destruct (stringify_tokens t) as (data & Hdata & _).
  unfold saveTokens, getCredentialsDir. rewrite Hdata.
  assert (Hex : ∀ dir, can_hold dir root → fs.existsSync dir root = true).
  { intros dir (d & Hd & _). unfold fs.existsSync. now rewrite Hd. }
  intros [Hc | [[Hc Hm] | (Hc & Hm & root1 & Hmk)]].
  - rewrite !(Hex _ Hc). cbn [negb]. destruct Hc as (d & Hd & Hfree).
    unfold fs.writeFileSync.
    destruct (write_succeeds clawdbotDir "linkedin.json" data root d Hd Hfree) as [r ->].
    eauto.
  - rewrite Hc, !(Hex _ Hm). cbn [negb]. destruct Hm as (d & Hd & Hfree).
    unfold fs.writeFileSync.
    destruct (write_succeeds moltbotDir "linkedin.json" data root d Hd Hfree) as [r ->].
    eauto.
  - rewrite Hc, Hm, Hc. cbn [negb]. unfold fs.mkdirSync. rewrite Hmk.
    unfold fs.existsSync in Hc.
    destruct (fs.lookup clawdbotDir root) eqn:El; [discriminate Hc|].
    pose proof (mkdir_fresh _ _ _ Hmk El) as Hfresh. unfold fs.writeFileSync.
    destruct (write_succeeds clawdbotDir "linkedin.json" data root1 ∅ Hfresh) as [r ->].
    + intros e. now rewrite lookup_empty.
    + eauto.
Qed.

(** C5 (as amended). [saveTokens] followed by [loadTokens] gives back
    the saved record, field by field, whenever the save returns and the
    numbers of the record are finite; and the save returns whichever root
    was there before: the primary one, the legacy one alone, or neither
    (the primary one is then made), as long as the directory it writes to
    is a directory with no directory in the place of the file. A number
    that is not finite is written as [null]: the record then comes back
    with [null] in its place and with its other fields as they were. *)
Theorem saveTokens_loadTokens (t : OAuthTokens) (root : fs.node) :
  (∀ root', saveTokens t root = Ok root' → finite_numbers t = true →
            loadTokens root' = Ok (OAuthTokens_object t))
  ∧ (∀ root', saveTokens t root = Ok root' → loadTokens root' = Ok (OAuthTokens_json t))
  ∧ ((can_hold clawdbotDir root
      ∨ (fs.existsSync clawdbotDir root = false ∧ can_hold moltbotDir root)
      ∨ (fs.existsSync clawdbotDir root = false ∧ fs.existsSync moltbotDir root = false
         ∧ ∃ root1, fs.mkdir clawdbotDir root = Some root1)) →
     ∃ root', saveTokens t root = Ok root').
Proof.
  split; [|split].
  - intros root' Hsave Hfinite.
    rewrite <- (OAuthTokens_json_finite t Hfinite). exact (save_general t root root' Hsave).
  - intros root'. exact (save_general t root root').
  - exact (save_succeeds t root).
Qed.

(** C5 as the specification words it fails on a record whose lifetime is
    Infinity: the file holds [null] for it, and that is what is read
    back. *)
Lemma saveTokens_infinite_counterexample :
  expires_in endless_token = NotFinite Infinity
  ∧ match saveTokens endless_token empty_home with
    | Ok root' =>
        loadTokens root'
        = Ok (VObj [("access_token", VStr "test-token");
                    ("expires_in", VNull);
                    ("scope", VStr "openid profile");
                    ("token_type", VStr "Bearer");
                    ("created_at", VStr "2024-01-01T00:00:00.000Z")])
    | Throw _ => False
    end.
Proof. split; [reflexivity | vm_compute; reflexivity]. Qed.

(** ** The callback listener *)

Lemma promise_server_close (st : Listener) : promise (server_close st) = promise st.
Proof. reflexivity. Qed.

Lemma promise_respond (status : Z) (type body : string) (st : Listener) :
  promise (respond status type body st) = promise st.
Proof. reflexivity. Qed.

Lemma reject_pending (reason : JsError) (st : Listener) :
  promise st = Pending → promise (reject reason st) = Rejected reason.
Proof. unfold reject. now intros ->. Qed.

Lemma reject_not_pending (reason : JsError) (st : Listener) :
  promise (reject reason st) ≠ Pending.
Proof. unfold reject. destruct (promise st) eqn:E; cbn [promise]; rewrite ?E; discriminate. Qed.

Lemma reject_settled (reason : JsError) (st : Listener) :
  promise st ≠ Pending → reject reason st = st.
Proof. unfold reject. now destruct (promise st). Qed.

Lemma resolve_settled (code : string) (st : Listener) :
  promise st ≠ Pending → resolve code st = st.
Proof. unfold resolve. now destruct (promise st). Qed.

Lemma reject_fields (reason : JsError) (st : Listener) :
  listening (reject reason st) = listening st
  ∧ closeCalls (reject reason st) = closeCalls st
  ∧ timer (reject reason st) = timer st
  ∧ replies (reject reason st) = replies st
  ∧ uncaught (reject reason st) = uncaught st.
Proof. unfold reject. now destruct (promise st). Qed.

Lemma resolve_fields (code : string) (st : Listener) :
  listening (resolve code st) = listening st
  ∧ closeCalls (resolve code st) = closeCalls st
  ∧ timer (resolve code st) = timer st
  ∧ replies (resolve code st) = replies st
  ∧ uncaught (resolve code st) = uncaught st.
Proof. unfold resolve. now destruct (promise st). Qed.

(** A settled promise keeps its outcome under every handler. *)
Lemma onRequest_settled (expectedState : string) (url : URL) (st : Listener) :
  promise st ≠ Pending → promise (onRequest expectedState url st) = promise st.
Proof.
  intros H. unfold onRequest.
  repeat match goal with |- context [if ?b then _ else _] => destruct b end;
    try reflexivity;
    (rewrite ?reject_settled, ?resolve_settled by exact H); reflexivity.
Qed.

Lemma onTimeout_settled (st : Listener) :
  promise st ≠ Pending → promise (onTimeout st) = promise st.
Proof. intros H. unfold onTimeout. cbn [promise]. now rewrite reject_settled. Qed.

Lemma deliver_settled (expectedState : string) (st : Listener) (a : Z * Event) :
  promise st ≠ Pending → promise (deliver expectedState st a) = promise st.
Proof.
  intros H. unfold deliver. destruct (uncaught st); [reflexivity|].
  assert (Hfire : promise (fire_due a.1 st) = promise st).
  { unfold fire_due. destruct (timer st) as [due|]; [|reflexivity].
    destruct (due <=? a.1); [now apply onTimeout_settled | reflexivity]. }
  destruct a.2 as [[url|e]|err].
  - cbn [onIncoming]. rewrite onRequest_settled; congruence.
  - exact Hfire.
  - unfold onError. rewrite reject_settled; congruence.
Qed.

Lemma idle_settled (st : Listener) : promise st ≠ Pending → promise (idle st) = promise st.
Proof.
  intros H. unfold idle. destruct (uncaught st); [reflexivity|].
  destruct (timer st); [now apply onTimeout_settled | reflexivity].
Qed.

Lemma run_settled (expectedState : string) (arrivals : list (Z * Event)) (st : Listener) :
  promise st ≠ Pending →
  promise (idle (fold_left (deliver expectedState) arrivals st)) = promise st.
Proof.
  revert st. induction arrivals as [|a arrivals IH]; intros st H.
  - cbn [fold_left]. now apply idle_settled.
  - cbn [fold_left]. rewrite IH; [now apply deliver_settled|].
    now rewrite deliver_settled.
Qed.

(** No handler clears the timer: only its own firing spends it. *)
Lemma onRequest_timer (expectedState : string) (url : URL) (st : Listener) :
  timer (onRequest expectedState url st) = timer st.
Proof.
  unfold onRequest.
  repeat match goal with |- context [if ?b then _ else _] => destruct b end;
    try reflexivity;
    match goal with
    | |- timer (reject ?r ?s) = _ => now rewrite (proj1 (proj2 (proj2 (reject_fields r s))))
    | |- timer (resolve ?c ?s) = _ => now rewrite (proj1 (proj2 (proj2 (resolve_fields c s))))
    end.
Qed.

Lemma onRequest_uncaught (expectedState : string) (url : URL) (st : Listener) :
  uncaught (onRequest expectedState url st) = uncaught st.
Proof.
  unfold onRequest.
  repeat match goal with |- context [if ?b then _ else _] => destruct b end;
    try reflexivity;
    match goal with
    | |- uncaught (reject ?r ?s) = _ =>
        now rewrite (proj2 (proj2 (proj2 (proj2 (reject_fields r s)))))
    | |- uncaught (resolve ?c ?s) = _ =>
        now rewrite (proj2 (proj2 (proj2 (proj2 (resolve_fields c s)))))
    end.
Qed.

(** Every request to the callback path calls [server.close()] once. *)
Lemma onRequest_closeCalls (expectedState : string) (url : URL) (st : Listener) :
  closeCalls (onRequest expectedState url st) =
  (closeCalls st + if is_callback url then 1 else 0)%nat.
Proof.
  unfold onRequest, is_callback. destruct (String.eqb (pathname url) "/callback").
  - repeat match goal with |- context [if ?b then _ else _] => destruct b end;
      match goal with
      | |- closeCalls (reject ?r ?s) = _ => rewrite (proj1 (proj2 (reject_fields r s)))
      | |- closeCalls (resolve ?c ?s) = _ => rewrite (proj1 (proj2 (resolve_fields c s)))
      end; cbn; lia.
  - cbn. lia.
Qed.

Lemma onRequest_listening (expectedState : string) (url : URL) (st : Listener) :
  listening (onRequest expectedState url st) = listening st && negb (is_callback url).
Proof.
  unfold onRequest, is_callback. destruct (String.eqb (pathname url) "/callback").
  - repeat match goal with |- context [if ?b then _ else _] => destruct b end;
      match goal with
      | |- listening (reject ?r ?s) = _ => rewrite (proj1 (reject_fields r s))
      | |- listening (resolve ?c ?s) = _ => rewrite (proj1 (resolve_fields c s))
      end; cbn; now rewrite andb_false_r.
  - cbn. now rewrite andb_true_r.
Qed.

(** C2 (as amended). A request to the callback path whose [state] is not
    the expected one (or is missing) is answered with status 400 and
    closes the server; a pending promise is rejected by it, with the
    invalid-state error unless the request carries a non-empty [error]
    parameter, whose description is then the reason; and a promise that
    was not resolved before is not resolved after, whatever [code] the
    request carries. *)
Theorem mismatched_state_rejected (expectedState : string) (url : URL) (st : Listener) :
  pathname url = "/callback" →
  searchParams_get "state" (searchParams url) ≠ Some expectedState →
  let error := searchParams_get "error" (searchParams url) in
  let errorDescription := searchParams_get "error_description" (searchParams url) in
  let st' := onRequest expectedState url st in
  (promise st = Pending →
   promise st' =
   Rejected (Error (if nonempty error
                    then (if nonempty errorDescription then default "" errorDescription
                          else default "" error)
                    else "Invalid state parameter")))
  ∧ ((∀ code, promise st ≠ Resolved code) → ∀ code, promise st' ≠ Resolved code)
  ∧ (∃ page, replies st' = replies st
               ++ [{| reply_status := 400; reply_type := "text/html"; reply_body := page |}])
  ∧ listening st' = false
  ∧ closeCalls st' = S (closeCalls st).
Proof.
  intros Hpath Hstate error errorDescription st'.
  assert (Hst' : ∃ reason page,
             st' = reject (Error reason)
                     (server_close (respond 400 "text/html" page st))
             ∧ reason = (if nonempty error
                         then (if nonempty errorDescription then default "" errorDescription
                               else default "" error)
                         else "Invalid state parameter")).
  { subst st'. unfold onRequest. rewrite Hpath. cbn [String.eqb Ascii.eqb Bool.eqb].
    change (String.eqb "/callback" "/callback") with true. cbv iota.
    fold error errorDescription. destruct (nonempty error).
    - eauto.
    - rewrite bool_decide_eq_false_2 by exact Hstate. cbn [negb]. eauto. }
  destruct Hst' as (reason & page & -> & Hreason).
  destruct (reject_fields (Error reason) (server_close (respond 400 "text/html" page st)))
    as (Hl & Hc & _ & Hr & _).
  repeat split.
  - intros Hp. rewrite reject_pending by exact Hp. now rewrite Hreason.
  - intros Hnot code. unfold reject. cbn [promise server_close respond].
    destruct (promise st) as [|code0|reason0] eqn:Ep;
      cbn [promise server_close respond]; rewrite ?Ep; try discriminate.
    destruct (Hnot code0 eq_refl).
  - exists page. now rewrite Hr.
  - now rewrite Hl.
  - now rewrite Hc.
Qed.

Lemma onTimeout_state (k : nat) (st : Listener) :
  uncaught st = None → closeCalls st = k → timer_state k (onTimeout st).
Proof.
  intros Hrun Hk. unfold onTimeout.
  destruct (reject_fields (Error "Authorization timeout") (server_close st))
    as (Hl & Hc & _ & _ & Hu).
  split; [cbn [uncaught]; now rewrite Hu|]. right.
  cbn [timer closeCalls listening promise].
  split; [reflexivity|]. split; [rewrite Hc; cbn; congruence|].
  split; [rewrite Hl; reflexivity|].
  apply reject_not_pending.
Qed.

Lemma fire_due_state (k : nat) (now : Z) (st : Listener) :
  timer_state k st → timer_state k (fire_due now st).
Proof.
  intros [Hrun Hst]. unfold fire_due. destruct Hst as [[Ht Hk] | Hst].
  - rewrite Ht. destruct (_ <=? _); [now apply onTimeout_state | split; [exact Hrun | now left]].
  - destruct Hst as (Ht & ?). rewrite Ht. split; [exact Hrun | now right].
Qed.

Lemma deliver_state (expectedState : string) (k : nat) (st : Listener) (a : Z * Event) :
  parses a = true →
  timer_state k st →
  timer_state (k + if counts_as_callback a then 1 else 0) (deliver expectedState st a).
Proof.
  intros Hparses Hst. unfold deliver. rewrite (proj1 Hst).
  apply (fire_due_state k a.1) in Hst. revert Hst.
  generalize (fire_due a.1 st). clear st. intros st [Hrun Hst].
  unfold counts_as_callback, parses in *. destruct a.2 as [[url|e]|err]; [| discriminate |].
  - cbn [onIncoming].
    pose proof (onRequest_timer expectedState url st) as Ht.
    pose proof (onRequest_closeCalls expectedState url st) as Hc.
    pose proof (onRequest_listening expectedState url st) as Hl.
    split; [now rewrite onRequest_uncaught|].
    destruct Hst as [[Ht0 Hk] | (Ht0 & Hk & Hl0 & Hp)]; [left | right].
    + split; [congruence | lia].
    + repeat split; [congruence | lia | now rewrite Hl, Hl0 |].
      now rewrite onRequest_settled.
  - unfold onError. destruct (reject_fields err st) as (Hl & Hc & Ht & _ & Hu).
    rewrite Nat.add_0_r. split; [congruence|].
    destruct Hst as [[Ht0 Hk] | (Ht0 & Hk & Hl0 & Hp)]; [left | right].
    + split; congruence.
    + repeat split; try congruence. now rewrite reject_settled.
Qed.

Lemma fold_state (expectedState : string) (arrivals : list (Z * Event)) :
  Forall (λ a, parses a = true) arrivals →
  ∀ k st, timer_state k st →
          timer_state (k + callbacks arrivals)
            (fold_left (deliver expectedState) arrivals st).
Proof.
  induction 1 as [|a arrivals Ha _ IH]; intros k st Hst.
  - cbn. now rewrite Nat.add_0_r.
  - cbn [fold_left]. apply (deliver_state expectedState _ _ a Ha) in Hst.
    apply IH in Hst. unfold callbacks in *. cbn [List.filter].
    destruct (counts_as_callback a); cbn [length];
      [now replace (k + S _)%nat with (k + 1 + length (List.filter counts_as_callback arrivals))%nat by lia
      | now rewrite Nat.add_0_r in Hst].
Qed.

(** The socket is closed by the first call of [server.close()], by the
    timer, and by the end of the process. *)
Lemma onTimeout_listening (st : Listener) : listening (onTimeout st) = false.
Proof.
  unfold onTimeout. cbn [listening].
  now rewrite (proj1 (reject_fields (Error "Authorization timeout") (server_close st))).
Qed.

Lemma fire_due_released (now : Z) (st : Listener) : released st → released (fire_due now st).
Proof.
  intros Hst. unfold fire_due. destruct (timer st) as [due|] eqn:Ht; [|exact Hst].
  destruct (due <=? now); [|exact Hst]. intros _. apply onTimeout_listening.
Qed.

Lemma deliver_released (expectedState : string) (st : Listener) (a : Z * Event) :
  released st → released (deliver expectedState st a).
Proof.
  intros Hst. unfold deliver. destruct (uncaught st) eqn:Hrun; [exact Hst|].
  apply (fire_due_released a.1) in Hst. revert Hst.
  generalize (fire_due a.1 st). clear st Hrun. intros st Hst. unfold released in *.
  destruct a.2 as [[url|e]|err].
  - cbn [onIncoming].
    rewrite onRequest_timer, onRequest_uncaught, onRequest_listening.
    intros H. now rewrite (Hst H).
  - reflexivity.
  - unfold onError. destruct (reject_fields err st) as (Hl & _ & Ht & _ & Hu).
    now rewrite Hl, Ht, Hu.
Qed.

Lemma fold_released (expectedState : string) (arrivals : list (Z * Event)) :
  ∀ st, released st → released (fold_left (deliver expectedState) arrivals st).
Proof.
  induction arrivals as [|a arrivals IH]; intros st Hst; [exact Hst|].
  cbn [fold_left]. apply IH. now apply deliver_released.
Qed.

Lemma idle_listening (st : Listener) : released st → listening (idle st) = false.
Proof.
  intros Hst. unfold idle. destruct (uncaught st) eqn:Hrun.
  - apply Hst. right. now rewrite Hrun.
  - destruct (timer st) eqn:Ht; [apply onTimeout_listening | apply Hst; now left].
Qed.

Lemma deliver_closed_by_call (expectedState : string) (st : Listener) (a : Z * Event) :
  closed_by_call st → closed_by_call (deliver expectedState st a).
Proof.
  intros Hst. unfold deliver. destruct (uncaught st); [exact Hst|].
  assert (Hfire : closed_by_call (fire_due a.1 st)).
  { unfold fire_due. destruct (timer st) as [due|]; [|exact Hst].
    destruct (due <=? a.1); [|exact Hst]. intros _. apply onTimeout_listening. }
  revert Hfire. generalize (fire_due a.1 st). clear st Hst. intros st Hst.
  unfold closed_by_call in *. destruct a.2 as [[url|e]|err].
  - cbn [onIncoming]. rewrite onRequest_closeCalls, onRequest_listening.
    destruct (is_callback url); [now rewrite andb_false_r|].
    rewrite Nat.add_0_r, andb_true_r. exact Hst.
  - reflexivity.
  - unfold onError. destruct (reject_fields err st) as (Hl & Hc & _).
    now rewrite Hl, Hc.
Qed.

Lemma fold_closed_by_call (expectedState : string) (arrivals : list (Z * Event)) :
  ∀ st, closed_by_call st → closed_by_call (fold_left (deliver expectedState) arrivals st).
Proof.
  induction arrivals as [|a arrivals IH]; intros st Hst; [exact Hst|].
  cbn [fold_left]. apply IH. now apply deliver_closed_by_call.
Qed.

Lemma onTimeout_pending (st : Listener) :
  promise st = Pending → promise (onTimeout st) = Rejected (Error "Authorization timeout").
Proof. intros H. unfold onTimeout. cbn [promise]. now apply reject_pending. Qed.

Lemma deliver_awaiting (expectedState : string) (st : Listener) (a : Z * Event) :
  quiet a → awaiting st → awaiting (deliver expectedState st a).
Proof.
  intros Hq [(Ht & Hp & Hrun) | Hp].
  - unfold deliver, fire_due. rewrite Hrun, Ht.
    destruct (Z.leb_spec (5 * 60 * 1000) a.1) as [Hlate | Hearly].
    + right. pose proof (onTimeout_pending st Hp) as Hto.
      assert (Hne : promise (onTimeout st) ≠ Pending) by (rewrite Hto; discriminate).
      destruct a.2 as [[url|e]|err].
      * cbn [onIncoming]. now rewrite onRequest_settled.
      * exact Hto.
      * unfold onError. now rewrite reject_settled.
    + destruct (Hq Hearly) as (url & -> & Hurl). left. cbn [onIncoming].
      rewrite onRequest_timer, onRequest_uncaught. split; [exact Ht|].
      split; [|exact Hrun].
      unfold onRequest. unfold is_callback in Hurl. now rewrite Hurl.
  - right. rewrite deliver_settled; [exact Hp | rewrite Hp; discriminate].
Qed.

Lemma fold_awaiting (expectedState : string) (arrivals : list (Z * Event)) :
  Forall quiet arrivals →
  ∀ st, awaiting st → awaiting (fold_left (deliver expectedState) arrivals st).
Proof.
  induction 1 as [|a arrivals Hq _ IH]; intros st Hst; [exact Hst|].
  cbn [fold_left]. apply IH. now apply deliver_awaiting.
Qed.

Lemma fold_left_app_deliver (expectedState : string) (before after : list (Z * Event))
    (st : Listener) :
  fold_left (deliver expectedState) (before ++ after) st =
  fold_left (deliver expectedState) after (fold_left (deliver expectedState) before st).
Proof. apply fold_left_app. Qed.


Lemma mismatched_state_rejected_witness :
  promise (onRequest "s3cret" forged_callback startCallbackServer)
  = Rejected (Error "Invalid state parameter").
Proof.
  refine (proj1 (mismatched_state_rejected "s3cret" forged_callback startCallbackServer
                   eq_refl _) eq_refl).
  vm_compute. discriminate.
Defined.

(** C2 as the specification words it fails when the forged redirect
    reports an error of its own: the promise is rejected with that error,
    not with the invalid-state error. *)
Lemma mismatched_state_counterexample :
  searchParams_get "state" (searchParams denied_forged_callback) ≠ Some "s3cret"
  ∧ promise (onRequest "s3cret" denied_forged_callback startCallbackServer)
    = Rejected (Error "access_denied").
Proof. split; [vm_compute; discriminate | reflexivity]. Qed.



(** A request whose URL does not parse: the handler throws before it
    answers, and nothing handles what comes after, neither the genuine
    redirect nor the timer. The promise is never settled. *)
Example listener_exits_on_double_slash :
  let run :=
    run_listener "s3cret" [(500, double_slash_request); (1000, Incoming (Ok genuine_callback))] in
  promise run = Pending ∧ replies run = [] ∧ timer run = Some 300000
  ∧ uncaught run = Some TypeError.
Proof. repeat split. Qed.

(** ** The CSRF state *)

Lemma sextet_cases (n : N) (P : N → Prop) :
  (n < 64)%N → (∀ k : nat, (k < 64)%nat → P (N.of_nat k)) → P n.
Proof. intros Hn H. rewrite <- (N2Nat.id n). apply H. lia. Qed.

Lemma sextet_char_spec (n : N) :
  (n < 64)%N →
  is_unreserved (sextet_char n) = true ∧ sextet_value (sextet_char n) = n.
Proof.
  intros Hn. apply (sextet_cases n); [exact Hn|]. clear. intros k Hk.
  do 64 (destruct k as [|k]; [split; reflexivity|]). lia.
Qed.

Lemma sextet_unreserved (n : N) : (n < 64)%N → is_unreserved (sextet_char n) = true.
Proof. intros Hn. apply (sextet_char_spec n Hn). Qed.

Lemma sextet_char_inj (n m : N) :
  (n < 64)%N → (m < 64)%N → sextet_char n = sextet_char m → n = m.
Proof.
  intros Hn Hm H.
  rewrite <- (proj2 (sextet_char_spec n Hn)), <- (proj2 (sextet_char_spec m Hm)).
  now rewrite H.
Qed.

Lemma byte_bound (b : byte) : (Byte.to_N b < 256)%N.
Proof. pose proof (Byte.to_N_bounded b). lia. Qed.

Lemma to_N_inj (a b : byte) : Byte.to_N a = Byte.to_N b → a = b.
Proof.
  intros H. apply (f_equal Byte.of_N) in H. rewrite !Byte.of_to_N in H. congruence.
Qed.

(** The arithmetic of a group: the bounds of its sextets. *)
Ltac byte_facts a :=
  pose proof (byte_bound a);
  pose proof (N.div_mod (Byte.to_N a) 4 ltac:(discriminate));
  pose proof (N.div_mod (Byte.to_N a) 16 ltac:(discriminate));
  pose proof (N.div_mod (Byte.to_N a) 64 ltac:(discriminate));
  pose proof (N.mod_upper_bound (Byte.to_N a) 4 ltac:(discriminate));
  pose proof (N.mod_upper_bound (Byte.to_N a) 16 ltac:(discriminate));
  pose proof (N.mod_upper_bound (Byte.to_N a) 64 ltac:(discriminate));
  assert (Byte.to_N a / 4 < 64)%N by (apply N.Div0.div_lt_upper_bound; lia);
  assert (Byte.to_N a / 16 < 16)%N by (apply N.Div0.div_lt_upper_bound; lia);
  assert (Byte.to_N a / 64 < 4)%N by (apply N.Div0.div_lt_upper_bound; lia).

Lemma list_ind3 {A} (P : list A → Prop) :
  P [] → (∀ a, P [a]) → (∀ a b, P [a; b]) →
  (∀ a b c l, P l → P (a :: b :: c :: l)) →
  ∀ l, P l.
Proof.
  intros H0 H1 H2 H3.
  fix IH 1. intros [|a [|b [|c l]]]; [exact H0 | apply H1 | apply H2 | apply H3, IH].
Qed.

Lemma base64url_cons3 (a b c : byte) (rest : list byte) :
  base64url (a :: b :: c :: rest) =
  String (sextet_char (Byte.to_N a / 4))
    (String (sextet_char (Byte.to_N a mod 4 * 16 + Byte.to_N b / 16))
       (String (sextet_char (Byte.to_N b mod 16 * 4 + Byte.to_N c / 64))
          (String (sextet_char (Byte.to_N c mod 64)) (base64url rest)))).
Proof. reflexivity. Qed.

Lemma base64url_url_safe (buf : list byte) : url_safe (base64url buf) = true.
Proof.
  induction buf as [|a|a b|a b c rest IH] using list_ind3.
  - reflexivity.
  - byte_facts a. cbn [base64url url_safe].
    rewrite !sextet_unreserved by lia. reflexivity.
  - byte_facts a. byte_facts b. cbn [base64url url_safe].
    rewrite !sextet_unreserved by lia. reflexivity.
  - byte_facts a. byte_facts b. byte_facts c. rewrite base64url_cons3. cbn [url_safe].
    rewrite !sextet_unreserved by lia. exact IH.
Qed.

Lemma base64url_length (buf : list byte) :
  String.length (base64url buf) = ((4 * length buf + 2) / 3)%nat.
Proof.
  induction buf as [|a|a b|a b c rest IH] using list_ind3; try reflexivity.
  rewrite base64url_cons3. cbn [String.length length]. rewrite IH.
  replace (4 * S (S (S (length rest))) + 2)%nat with ((4 * length rest + 2) + 4 * 3)%nat by lia.
  rewrite Nat.div_add by discriminate. lia.
Qed.

(** The encoding loses nothing: buffers of one length with one text are
    one buffer. *)
Lemma base64url_inj (buf1 : list byte) :
  ∀ buf2, length buf1 = length buf2 → base64url buf1 = base64url buf2 → buf1 = buf2.
Proof.
  induction buf1 as [|a|a b|a b c rest IH] using list_ind3;
    intros [|a' [|b' [|c' rest']]] Hlen Henc; try discriminate Hlen; try reflexivity.
  - byte_facts a. byte_facts a'. cbn [base64url] in Henc. injection Henc as E1 E2.
    apply sextet_char_inj in E1, E2; try lia.
    f_equal. apply to_N_inj. lia.
  - byte_facts a. byte_facts a'. byte_facts b. byte_facts b'.
    cbn [base64url] in Henc. injection Henc as E1 E2 E3.
    apply sextet_char_inj in E1, E2, E3; try lia.
    assert (Byte.to_N a = Byte.to_N a' ∧ Byte.to_N b = Byte.to_N b') as [Ha Hb] by lia.
    apply to_N_inj in Ha, Hb. now subst.
  - byte_facts a. byte_facts a'. byte_facts b. byte_facts b'. byte_facts c. byte_facts c'.
    rewrite !base64url_cons3 in Henc. injection Henc as E1 E2 E3 E4 Erest.
    apply sextet_char_inj in E1, E2, E3, E4; try lia.
    assert (Byte.to_N a = Byte.to_N a' ∧ Byte.to_N b = Byte.to_N b'
            ∧ Byte.to_N c = Byte.to_N c') as (Ha & Hb & Hc) by lia.
    apply to_N_inj in Ha, Hb, Hc. subst. f_equal. f_equal. f_equal.
    apply IH; [cbn [length] in Hlen; lia | exact Erest].
Qed.

Lemma randomBytes_length (n : nat) (g : Rng) : length (randomBytes n g).1 = n.
Proof. unfold randomBytes. cbn [fst]. now rewrite length_map, length_seq. Qed.



Example generateState_counting :
  (generateState counting_rng).1 = "AAECAwQFBgcICQoLDA0ODxAREhMUFRYXGBkaGxwdHh8"
  ∧ (generateState (generateState counting_rng).2).1
    = "ICEiIyQlJicoKSorLC0uLzAxMjM0NTY3ODk6Ozw9Pj8".
Proof. split; reflexivity. Qed.

(** ** The API client *)

Section ClientFacts.

Variable net : Network.
Variable existsSync : string → bool.
Variable readFileSync : string → Result string.
Variable HOME : option string.
Variable path_join : string → string → string.

Lemma bind_run {A B} (m : Call A) (k : A → Call B) (log : list Exchange) :
  (m ≫= k) log =
  match m log with
  | (Ok a, log') => k a log'
  | (Throw e, log') => (Throw e, log')
  end.
Proof. reflexivity. Qed.

Lemma lift_run {A B} (r : Result A) (k : A → Call B) (log : list Exchange) :
  (lift r ≫= k) log =
  match r with
  | Ok a => k a log
  | Throw e => (Throw e, log)
  end.
Proof. unfold mbind, Call_bind, lift. now destruct r. Qed.

Lemma fetch_run {B} (req : Request) (k : Response → Call B) (log : list Exchange) :
  (fetch net req ≫= k) log =
  match net log req with
  | Ok response => k response (log ++ [(req, net log req)])
  | Throw e => (Throw e, log ++ [(req, net log req)])
  end.
Proof. unfold mbind, Call_bind, fetch. now destruct (net log req). Qed.

(** [request] makes one exchange, and its result is read off the answer. *)
Lemma request_run (this : LinkedInClient) (endpoint : string) (options : RequestInit)
    (log : list Exchange) :
  request net this endpoint options log =
  (match net log (request_of this endpoint options) with
   | Ok response => outcome_of response
   | Throw e => Throw e
   end,
   log ++ [(request_of this endpoint options, net log (request_of this endpoint options))]).
Proof.
  unfold request. fold (request_of this endpoint options). rewrite fetch_run.
  destruct (net log (request_of this endpoint options)) as [response|e]; [|reflexivity].
  unfold outcome_of. destruct (negb (ok response)).
  - rewrite lift_run. destruct (get _ "message") as [message|e]; [|reflexivity].
    rewrite lift_run. destruct (ToString _) as [shown|e]; reflexivity.
  - destruct (String.eqb (responseText response) ""); [reflexivity|].
    destruct (JSON.parse (responseText response)); reflexivity.
Qed.

Lemma outcome_of_not_ok (response : Response) :
  ok response = false → isOk (outcome_of response) = false.
Proof.
  intros H. unfold outcome_of. rewrite H. cbn [negb].
  destruct (get _ "message"); [|reflexivity]. now destruct (ToString _).
Qed.

(** C8 (as amended). A call through [request] that gets a response fails
    whenever the status is not 2xx, and with a 2xx status it fails exactly
    when the body is non-empty and no JSON text (a parse error); a 2xx
    response with an empty body yields the empty object. On a non-2xx
    response the error reads "LinkedIn API Error (status): detail", where
    the detail is the [message] of the parsed body when that is a
    non-empty string, and the raw text of the body when the body does not
    parse or its [message] is missing or falsy. Every body that parses
    has a [message] to read, missing or not, but the one that is the text
    [null]: reading its [message] throws a TypeError, which is then what
    the call fails with. A truthy [message] that is no string is
    converted to one. *)
Theorem request_outcome (this : LinkedInClient) (endpoint : string) (options : RequestInit)
    (log : list Exchange) (response : Response) :
  net log (request_of this endpoint options) = Ok response →
  let result := (request net this endpoint options log).1 in
  let failure detail :=
    Throw (Error ("LinkedIn API Error (" +:+ Number_toString (status response)
                  +:+ "): " +:+ detail)) in
  (ok response = false → isOk result = false)
  ∧ (ok response = true →
     (isOk result = false ↔
      responseText response ≠ "" ∧ JSON.parse (responseText response) = None))
  ∧ (ok response = true → responseText response = "" → result = Ok (VObj []))
  ∧ (ok response = false → JSON.parse (responseText response) = None →
     result = failure (responseText response))
  ∧ (ok response = false →
     ∀ parsed message,
       JSON.parse (responseText response) = Some parsed →
       get parsed "message" = Ok message →
       (∀ s, message = VStr s → s ≠ "" → result = failure s)
       ∧ (truthy message = false → result = failure (responseText response)))
  ∧ (ok response = false →
     ∀ parsed,
       JSON.parse (responseText response) = Some parsed →
       (parsed = VNull → result = Throw TypeError)
       ∧ (parsed ≠ VNull →
          ∃ message,
            get parsed "message" = Ok message
            ∧ result = match ToString (js_or message (VStr (responseText response))) with
                       | Ok shown => failure shown
                       | Throw e => Throw e
                       end)).
Proof.
  intros Hnet result failure. subst result. rewrite request_run, Hnet. cbn [fst].
  split; [|split; [|split; [|split; [|split]]]].
  - apply outcome_of_not_ok.
  - intros Hok. unfold outcome_of. rewrite Hok. cbn [negb].
    destruct (String.eqb_spec (responseText response) "") as [E|E].
    + split; [discriminate | now intros [Hne _]].
    + destruct (JSON.parse (responseText response)); cbn [isOk].
      * split; [discriminate | now intros [_ Hparse]].
      * easy.
  - intros Hok Hempty. unfold outcome_of. rewrite Hok, Hempty. reflexivity.
  - intros Hok Hparse. unfold outcome_of. rewrite Hok, Hparse. cbn [negb get assoc_get].
    change (String.eqb "message" "status") with false.
    change (String.eqb "message" "message") with true. cbn [default].
    unfold js_or. now destruct (truthy _).
  - intros Hok parsed message Hparse Hget. unfold outcome_of.
    rewrite Hok, Hparse. cbn [negb]. rewrite Hget. unfold js_or. split.
    + intros s -> Hs. cbn [truthy].
      destruct (String.eqb_spec s "") as [E|E]; [contradiction | reflexivity].
    + intros Hfalsy. now rewrite Hfalsy.
  - intros Hok parsed Hparse. unfold outcome_of. rewrite Hok, Hparse. cbn [negb]. split.
    + now intros ->.
    + intros Hnull.
      assert (Hget : ∃ message, get parsed "message" = Ok message).
      { destruct parsed; try (eexists; reflexivity); [|contradiction].
        now destruct (parse_defined _ Hparse). }
      destruct Hget as [message Hget]. exists message. split; [exact Hget|].
      rewrite Hget. now destruct (ToString _).
Qed.

Lemma request_of_publish (this : LinkedInClient) (data : string) :
  request_of this "/ugcPosts" (POST (Some data)) = publish_request this data.
Proof. reflexivity. Qed.

(** C7. [createOrganizationPost] makes exactly one exchange, the publish
    request, whose body is the serialized payload with [author] equal to
    "urn:li:organization:" followed by the id it was given; no request to
    the identity endpoint is made before or with it. *)
Theorem createOrganizationPost_author (this : LinkedInClient) (organizationId : string)
    (options : CreatePostOptions) (log : list Exchange) :
  ∃ data payload,
    (createOrganizationPost net this organizationId options log).2
    = log ++ [(publish_request this data, net log (publish_request this data))]
    ∧ JSON.parse data = Some payload
    ∧ get payload "author" = Ok (VStr ("urn:li:organization:" +:+ organizationId))
    ∧ url (publish_request this data) ≠ USERINFO_URL.
Proof.
  destruct (stringify_defined 0 (createOrganizationPost_payload organizationId options))
    as [data Hdata]; [discriminate|].
  exists data, (JSON.clean (createOrganizationPost_payload organizationId options)).
  split; [|split; [|split]].
  - unfold createOrganizationPost. rewrite request_run, Hdata. reflexivity.
  - now apply (parse_stringify 0).
  - reflexivity.
  - discriminate.
Qed.

(** The cases of the optional fields of the options: absent, empty, or
    a non-empty text. *)
Ltac case_options options :=
  destruct options as [? ? ? [?|] [?|] [?|]];
  cbn [articleUrl articleTitle articleDescription text visibility nonempty optional];
  repeat match goal with
    | |- context [String.eqb ?s ""] => destruct (String.eqb s "")
    end;
  cbn [negb].

(** C6 (as amended). The payload of [createPost], serialized and read
    back, has media category "ARTICLE" when [articleUrl] is set and
    non-empty and "NONE" otherwise; with "NONE" it has no media entry at
    all, whatever title or description was supplied; with "ARTICLE" its
    media entry has a [title] exactly when [articleTitle] is set and
    non-empty and a [description] exactly when [articleDescription] is.
    The serialized payload is the body of the publish request that
    [createPost] sends once the identity lookup gave the author. *)
Theorem createPost_payload_media (authorUrn : string) (options : CreatePostOptions) :
  ∃ data payload shareContent,
    JSON.stringify 0 (createPost_payload authorUrn options) = Some data
    ∧ JSON.parse data = Some payload
    ∧ (∀ this log log', getMemberUrn net this log = (Ok authorUrn, log') →
         (createPost net this options log).2
         = log' ++ [(publish_request this data, net log' (publish_request this data))])
    ∧ match get payload "specificContent" with
      | Ok content => get content "com.linkedin.ugc.ShareContent"
      | Throw e => Throw e
      end = Ok shareContent
    ∧ get shareContent "shareMediaCategory"
      = Ok (VStr (if nonempty (articleUrl options) then "ARTICLE" else "NONE"))
    ∧ if nonempty (articleUrl options) then
        ∃ entry, media_entry shareContent = Some entry
                 ∧ has_own "title" entry = nonempty (articleTitle options)
                 ∧ has_own "description" entry = nonempty (articleDescription options)
      else has_own "media" shareContent = false.
Proof.
  destruct (stringify_defined 0 (createPost_payload authorUrn options))
    as [data Hdata]; [discriminate|].
  assert (Hwk : JSON.plain (createPost_payload authorUrn options) = true)
    by (unfold createPost_payload; case_options options; reflexivity).
  assert (Hshare : ∃ shareContent,
             match get (JSON.clean (createPost_payload authorUrn options)) "specificContent" with
             | Ok content => get content "com.linkedin.ugc.ShareContent"
             | Throw e => Throw e
             end = Ok shareContent
             ∧ get shareContent "shareMediaCategory"
               = Ok (VStr (if nonempty (articleUrl options) then "ARTICLE" else "NONE"))
             ∧ if nonempty (articleUrl options) then
                 ∃ entry, media_entry shareContent = Some entry
                          ∧ has_own "title" entry = nonempty (articleTitle options)
                          ∧ has_own "description" entry = nonempty (articleDescription options)
               else has_own "media" shareContent = false).
  { unfold createPost_payload. case_options options;
      eexists; (split; [reflexivity|]); (split; [reflexivity|]);
      first [reflexivity | eexists; split; [reflexivity | split; reflexivity]]. }
  destruct Hshare as (shareContent & Hcontent & Hcategory & Hmedia).
  exists data, (JSON.clean (createPost_payload authorUrn options)), shareContent.
  split; [exact Hdata|]. split; [now apply (parse_stringify 0)|].
  split; [|split; [exact Hcontent | split; [exact Hcategory | exact Hmedia]]].
  intros this log log' Hurn. unfold createPost. rewrite bind_run, Hurn.
  rewrite request_run, Hdata. reflexivity.
Qed.

End ClientFacts.

(** ** The image pipeline *)

Lemma follows_prefix (phases : list Phase) (new : list Exchange) :
  follows phases new = true → map phase new `prefix_of` phases.
Proof.
  revert phases. induction new as [|e rest IH]; intros phases H.
  - apply prefix_nil.
  - destruct phases as [|p phases]; [discriminate H|]. cbn [follows] in H.
    apply andb_true_iff in H as [Hp H]. apply bool_decide_eq_true in Hp.
    cbn [map]. rewrite Hp. apply prefix_cons.
    destruct rest as [|e' rest]; [apply prefix_nil|].
    apply andb_true_iff in H as [_ H]. now apply IH.
Qed.

Lemma follows_succeeded (phases : list Phase) (pre : list Exchange) (e : Exchange)
    (post : list Exchange) :
  follows phases (pre ++ e :: post) = true →
  Forall (λ x, succeeded x = true) pre ∧ (post ≠ [] → succeeded e = true).
Proof.
  revert phases. induction pre as [|x pre IH]; intros phases H.
  - split; [constructor|]. intros Hpost. destruct phases as [|p phases]; [discriminate H|].
    cbn [app follows] in H. apply andb_true_iff in H as [_ H].
    destruct post; [congruence|]. now apply andb_true_iff in H as [H _].
  - destruct phases as [|p phases]; [discriminate H|].
    cbn [app follows] in H. apply andb_true_iff in H as [_ H].
    pose proof (IH phases) as IH'. clear IH.
    destruct (pre ++ e :: post) eqn:E; [now destruct pre|].
    apply andb_true_iff in H as [Hx H].
    destruct (IH' H) as [Hpre Hpost]. split; [now constructor | exact Hpost].
Qed.

(** Where a given list of phases can be cut before a [Publish]. *)
Ltac cut_plan H l1 :=
  destruct l1 as [|? l1]; cbn [app] in H;
  [ first [ discriminate H | injection H; intros; subst; split; reflexivity ]
  | first [ discriminate H | injection H as ? H; subst; cut_plan H l1 ] ].

(** In a plan the publish phase comes last, after all the others. *)
Lemma plan_publish_last (with_identity : bool) (imageUrl : string) (l1 l2 : list Phase) :
  plan with_identity imageUrl = l1 ++ Publish :: l2 →
  l2 = [] ∧ l1 ++ [Publish] = plan with_identity imageUrl.
Proof.
  unfold plan. destruct with_identity, (isLocalPath imageUrl); cbn [app];
    intros H; cut_plan H l1.
Qed.

Lemma follows_publish (with_identity : bool) (imageUrl : string) (pre : list Exchange)
    (e : Exchange) (post : list Exchange) :
  follows (plan with_identity imageUrl) (pre ++ e :: post) = true →
  phase e = Publish →
  post = []
  ∧ map phase pre ++ [Publish] = plan with_identity imageUrl
  ∧ Forall (λ x, succeeded x = true) pre.
Proof.
  intros H Hp. pose proof (follows_prefix _ _ H) as [k Hk].
  rewrite map_app in Hk. cbn [map] in Hk. rewrite Hp, <- app_assoc in Hk. cbn [app] in Hk.
  apply plan_publish_last in Hk as [Hnil Hplan].
  apply app_eq_nil in Hnil as [Hpost _]. apply map_eq_nil in Hpost.
  split; [exact Hpost|]. split; [exact Hplan|]. now apply follows_succeeded in H as [H _].
Qed.

(** After an exchange that did not succeed no publish request is made. *)
Lemma follows_failed (with_identity : bool) (imageUrl : string) (new : list Exchange)
    (e : Exchange) :
  follows (plan with_identity imageUrl) new = true →
  e ∈ new → succeeded e = false → phase e ≠ Publish →
  ∀ e', e' ∈ new → phase e' ≠ Publish.
Proof.
  intros H He Hfail Hphase e' He' Hp'.
  apply list_elem_of_split in He as (pre & post & ->).
  pose proof (follows_succeeded _ _ _ _ H) as [Hpre Hpost].
  assert (post = []) as -> by (destruct post; [reflexivity | rewrite Hpost in Hfail; congruence]).
  apply elem_of_app in He' as [He' | He'].
  - apply list_elem_of_split in He' as (p1 & p2 & ->).
    rewrite <- app_assoc in H. cbn [app] in H.
    apply follows_publish in H as [Hnil _]; [|exact Hp'].
    now destruct p2.
  - apply list_elem_of_singleton in He' as ->. contradiction.
Qed.

Section PipelineFacts.

Variable net : Network.
Variable existsSync : string → bool.
Variable readFileSync : string → Result string.
Variable HOME : option string.
Variable path_join : string → string → string.

Local Abbreviation unresolved := (source_unresolved existsSync readFileSync HOME path_join).
Local Abbreviation in_order := (orderly existsSync readFileSync HOME path_join).
Local Abbreviation steps := (upload_steps net existsSync readFileSync HOME path_join).

Lemma createImagePost_steps (this : LinkedInClient) (options : CreatePostOptions)
    (imageUrl : string) :
  createImagePost net existsSync readFileSync HOME path_join this options imageUrl
  = (getMemberUrn net this ≫= λ authorUrn, steps this authorUrn options imageUrl).
Proof. reflexivity. Qed.

Lemma createOrganizationImagePost_steps (this : LinkedInClient) (organizationId : string)
    (options : CreatePostOptions) (imageUrl : string) :
  createOrganizationImagePost net existsSync readFileSync HOME path_join this organizationId
    options imageUrl
  = steps this ("urn:li:organization:" +:+ organizationId) options imageUrl.
Proof. reflexivity. Qed.

Lemma phase_register (this : LinkedInClient) (data : option string) (r : Result Response) :
  phase (request_of this "/assets?action=registerUpload" (POST data), r) = Register.
Proof. reflexivity. Qed.

Lemma phase_publish (this : LinkedInClient) (data : option string) (r : Result Response) :
  phase (request_of this "/ugcPosts" (POST data), r) = Publish.
Proof. reflexivity. Qed.

Lemma phase_identity (this : LinkedInClient) (r : Result Response) :
  phase (request_of this USERINFO_URL no_init, r) = Identity.
Proof. reflexivity. Qed.

Lemma phase_source (source : string) (r : Result Response) :
  phase (source_request source, r) = Source.
Proof. reflexivity. Qed.

Lemma phase_transfer (this : LinkedInClient) (target imageBuffer : string) (r : Result Response) :
  phase (upload_request this target imageBuffer, r) = Transfer.
Proof. reflexivity. Qed.

Lemma outcome_of_ok (response : Response) (v : jsval) :
  outcome_of response = Ok v → ok response = true.
Proof.
  intros H. destruct (ok response) eqn:E; [reflexivity|].
  pose proof (outcome_of_not_ok response E) as Hno. now rewrite H in Hno.
Qed.

(** The exchange of a [request] that returned succeeded. *)
Lemma request_result (this : LinkedInClient) (endpoint : string) (options : RequestInit)
    (log : list Exchange) :
  ∃ r, request net this endpoint options log
       = (r, log ++ [(request_of this endpoint options,
                      net log (request_of this endpoint options))])
       ∧ (isOk r = true →
          succeeded (request_of this endpoint options,
                     net log (request_of this endpoint options)) = true).
Proof.
  eexists. split; [apply request_run|].
  unfold succeeded. cbn [snd].
  destruct (net log (request_of this endpoint options)) as [response|e]; [|discriminate].
  destruct (outcome_of response) eqn:E; [|discriminate]. intros _. eapply outcome_of_ok, E.
Qed.

Lemma getMemberUrn_result (this : LinkedInClient) (log : list Exchange) :
  ∃ r, getMemberUrn net this log
       = (r, log ++ [(request_of this USERINFO_URL no_init,
                      net log (request_of this USERINFO_URL no_init))])
       ∧ (isOk r = true →
          succeeded (request_of this USERINFO_URL no_init,
                     net log (request_of this USERINFO_URL no_init)) = true).
Proof.
  unfold getMemberUrn, getProfile. rewrite bind_run.
  destruct (request_result this USERINFO_URL no_init log) as (r & -> & Hr).
  destruct r as [profile|e]; [|eexists; split; [reflexivity | discriminate]].
  rewrite lift_run. destruct (get profile "sub") as [sub|e];
    [|eexists; split; [reflexivity | discriminate]].
  rewrite lift_run. destruct (ToString sub) as [s|e];
    eexists; (split; [reflexivity|]); intros _; now apply Hr.
Qed.

(** The run ends here with the exchanges [new]: they follow the plan,
    and hold no publish request if the source could not be read. *)
Ltac stop_with new :=
  exists new;
  split; [cbn [snd]; rewrite <- ?app_assoc; reflexivity|];
  split;
  [ cbn [follows];
    rewrite ?phase_transfer, ?phase_source, ?phase_publish;
    repeat match goal with
      | H : phase _ = _ |- _ => rewrite H
      | H : succeeded _ = true |- _ => rewrite H
      end;
    cbn [succeeded snd];
    repeat match goal with H : ok _ = true |- _ => rewrite H end;
    reflexivity
  | first
      [ intros Hun; contradiction
      | let x := fresh "x" in
        let He := fresh "Hx" in
        intros _ x He;
        repeat (apply elem_of_cons in He as [-> | He]);
        [ rewrite ?phase_transfer, ?phase_source;
          repeat match goal with H : phase _ = _ |- _ => rewrite H end;
          discriminate .. | now apply elem_of_nil in He ] ] ].

(** The pipeline from the registration on: its exchanges follow the
    plan, and an unreadable local source ends it before any publish. *)
Lemma upload_steps_run (this : LinkedInClient) (ownerUrn : string)
    (options : CreatePostOptions) (imageUrl : string) (log : list Exchange) :
  ∃ new,
    (steps this ownerUrn options imageUrl log).2 = log ++ new
    ∧ follows (plan false imageUrl) new = true
    ∧ (unresolved imageUrl → ∀ e, e ∈ new → phase e ≠ Publish).
Proof.
  unfold upload_steps, registerImageUpload, plan. cbn [app].
  rewrite bind_run.
  match goal with
  | |- context [request net this ?ep ?opts log] =>
      destruct (request_result this ep opts log) as (r & -> & Hreg);
      set (reg := (request_of this ep opts, net log (request_of this ep opts))) in *
  end.
  assert (Hphase : phase reg = Register) by reflexivity.
  assert (Hstop : ∃ new,
             log ++ [reg] = log ++ new
             ∧ follows (Register :: (if isLocalPath imageUrl then [] else [Source])
                                    ++ [Transfer; Publish]) new = true
             ∧ (unresolved imageUrl → ∀ e, e ∈ new → phase e ≠ Publish)).
  { exists [reg]. split; [reflexivity|]. split.
    - cbn [follows]. now rewrite Hphase.
    - intros _ e ->%list_elem_of_singleton. now rewrite Hphase. }
  destruct r as [registerResponse|e]; [|exact Hstop].
  specialize (Hreg eq_refl).
  repeat (rewrite lift_run; cbv beta iota;
          try match goal with
            | |- context [match ?x with Ok _ => _ | Throw _ => _ end] =>
                destruct x; [|exact Hstop]
            end).
  clear Hstop. unfold getImageBuffer. fold (image_file HOME path_join imageUrl).
  destruct (isLocalPath imageUrl) eqn:Elocal; cbn [app].
  - (* a local file *)
    destruct (existsSync (image_file HOME path_join imageUrl)) eqn:Eexists; cbn [negb];
      [|stop_with [reg]].
    rewrite lift_run.
    destruct (readFileSync (image_file HOME path_join imageUrl)) as [imageBuffer|e] eqn:Eread;
      [|stop_with [reg]].
    assert (Hresolved : ¬ unresolved imageUrl).
    { intros [_ [H | H]]; [congruence | now rewrite Eread in H]. }
    rewrite lift_run. destruct (ToString _) as [target|e]; [|stop_with [reg]].
    rewrite fetch_run.
    destruct (net (log ++ [reg]) (upload_request this target imageBuffer))
      as [uploadResponse|e] eqn:Enet;
      [|stop_with [reg; (upload_request this target imageBuffer, @Throw Response e)]].
    destruct (ok uploadResponse) eqn:Eok; cbn [negb];
      [|stop_with [reg; (upload_request this target imageBuffer, Ok uploadResponse)]].
    match goal with
    | |- context [request net this ?ep ?opts ?l] =>
        destruct (request_result this ep opts l) as (r & -> & _);
        stop_with [reg; (upload_request this target imageBuffer, Ok uploadResponse);
                   (request_of this ep opts, net l (request_of this ep opts))]
    end.
  - (* a remote image *)
    rewrite bind_run, fetch_run. fold (source_request imageUrl).
    assert (Hresolved : ¬ unresolved imageUrl).
    { intros [H _]. congruence. }
    destruct (net (log ++ [reg]) (source_request imageUrl)) as [response|e] eqn:Esrc;
      [|stop_with [reg; (source_request imageUrl, @Throw Response e)]].
    destruct (ok response) eqn:Eok; cbn [negb];
      [|stop_with [reg; (source_request imageUrl, Ok response)]].
    unfold mret, Call_ret. cbv iota beta.
    rewrite lift_run. destruct (ToString _) as [target|e];
      [|stop_with [reg; (source_request imageUrl, Ok response)]].
    rewrite fetch_run.
    match goal with
    | |- context [net ?l (upload_request this target ?buf)] =>
        destruct (net l (upload_request this target buf)) as [uploadResponse|e] eqn:Enet;
        [|stop_with [reg; (source_request imageUrl, Ok response);
                     (upload_request this target buf, @Throw Response e)]]
    end.
    destruct (ok uploadResponse) eqn:Eok'; cbn [negb];
      [|stop_with [reg; (source_request imageUrl, Ok response);
                   (upload_request this target (responseText response), Ok uploadResponse)]].
    match goal with
    | |- context [request net this ?ep ?opts ?l] =>
        destruct (request_result this ep opts l) as (r & -> & _);
        stop_with [reg; (source_request imageUrl, Ok response);
                   (upload_request this target (responseText response), Ok uploadResponse);
                   (request_of this ep opts, net l (request_of this ep opts))]
    end.
Qed.

Lemma follows_orderly (with_identity : bool) (imageUrl : string) (new : list Exchange) :
  follows (plan with_identity imageUrl) new = true →
  (unresolved imageUrl → ∀ e', e' ∈ new → phase e' ≠ Publish) →
  in_order with_identity imageUrl new.
Proof.
  intros H Hun. split; [now apply follows_prefix|]. split; [|split; [|split]].
  - intros pre e post -> Hpost. destruct (follows_succeeded _ _ _ _ H) as [_ Hs].
    now apply Hs.
  - intros pre e post -> Hp. exact (follows_publish _ _ _ _ _ H Hp).
  - intros e He Hph Hfail. apply (follows_failed _ _ _ e H He Hfail).
    destruct Hph as [-> | ->]; discriminate.
  - exact Hun.
Qed.

(** C3. In every run of [createImagePost] and of
    [createOrganizationImagePost] the exchanges are made in the order
    (identity lookup,) registration, (fetch of a remote image,) PUT to
    the upload URL, publish, each only after the one before got a 2xx
    response; so a publish request is always the last exchange, after a
    registration and a transfer that succeeded, and none is made when
    the fetch of the image or the PUT fails or a local image cannot be
    read. *)
Theorem image_pipeline_order (this : LinkedInClient) (organizationId : string)
    (options : CreatePostOptions) (imageUrl : string) (log : list Exchange) :
  (∃ new,
     (createImagePost net existsSync readFileSync HOME path_join this options imageUrl log).2
     = log ++ new
     ∧ in_order true imageUrl new)
  ∧ (∃ new,
       (createOrganizationImagePost net existsSync readFileSync HOME path_join this
          organizationId options imageUrl log).2
       = log ++ new
       ∧ in_order false imageUrl new).
Proof.
  split.
  - rewrite createImagePost_steps, bind_run.
    destruct (getMemberUrn_result this log) as (r & -> & Hid).
    set (id := (request_of this USERINFO_URL no_init,
                net log (request_of this USERINFO_URL no_init))) in *.
    assert (Hphase : phase id = Identity) by reflexivity.
    destruct r as [authorUrn|e].
    + destruct (upload_steps_run this authorUrn options imageUrl (log ++ [id]))
        as (new & -> & Hfollows & Hun).
      exists (id :: new). split; [now rewrite <- app_assoc|].
      apply follows_orderly.
      * change (plan true imageUrl) with (Identity :: plan false imageUrl).
        cbn [follows]. rewrite Hphase, (Hid eq_refl), Hfollows. now destruct new.
      * intros H e' [-> | He']%elem_of_cons; [now rewrite Hphase | now apply Hun].
    + exists [id]. split; [reflexivity|]. apply follows_orderly.
      * change (plan true imageUrl) with (Identity :: plan false imageUrl).
        cbn [follows]. now rewrite Hphase.
      * intros _ e' ->%list_elem_of_singleton. now rewrite Hphase.
  - rewrite createOrganizationImagePost_steps.
    destruct (upload_steps_run this ("urn:li:organization:" +:+ organizationId)
                options imageUrl log) as (new & -> & Hfollows & Hun).
    exists new. split; [reflexivity|]. now apply follows_orderly.
Qed.

End PipelineFacts.

(** ** The examples of the specification, run *)

(** A 2xx response whose body is no JSON text makes [request] fail: the
    "only if" of C8 as the specification words it does not hold. *)
Lemma request_parse_error_counterexample :
  net_plain_ok [] (request_of test_client "/ugcPosts" no_init)
  = Ok {| status := 200; statusText := "OK"; responseText := "OK" |}
  ∧ ok {| status := 200; statusText := "OK"; responseText := "OK" |} = true
  ∧ (request net_plain_ok test_client "/ugcPosts" no_init []).1 = Throw SyntaxError.
Proof. repeat split. Qed.

Lemma request_outcome_witness :
  (request net_forbidden test_client "/ugcPosts" no_init []).1
  = Throw (Error "LinkedIn API Error (403): Not enough permissions").
Proof.
  pose proof (request_outcome net_forbidden test_client "/ugcPosts" no_init []
                {| status := 403; statusText := "Forbidden";
                   responseText :=
                     json_text (VObj [("status", VNum 403);
                                      ("message", VStr "Not enough permissions")]) |}
                eq_refl) as H.
  cbv zeta in H. destruct H as (_ & _ & _ & _ & H & _).
  destruct (H eq_refl (VObj [("status", VNum 403); ("message", VStr "Not enough permissions")])
              (VStr "Not enough permissions")) as [Hmessage _].
  - vm_compute. reflexivity.
  - reflexivity.
  - apply (Hmessage "Not enough permissions" eq_refl). discriminate.
Defined.

(** A non-2xx response whose body is the JSON text [null]: reading
    [error.message] throws, and the error that reaches the caller carries
    neither status nor message. *)
Example request_null_body :
  (request net_null_error test_client "/ugcPosts" no_init []).1 = Throw TypeError.
Proof. reflexivity. Qed.

(** A title without a URL: the payload has category "NONE" and no media
    entry, so no title field, although [articleTitle] is supplied. C6 as
    the specification words it does not hold. *)
Lemma createPost_title_only_counterexample :
  articleTitle title_only_options = Some "T"
  ∧ (JSON.stringify 0 (createPost_payload "urn:li:person:42" title_only_options)
       ≫= JSON.parse)
    = Some (VObj [("author", VStr "urn:li:person:42");
                  ("lifecycleState", VStr "PUBLISHED");
                  ("visibility",
                   VObj [("com.linkedin.ugc.MemberNetworkVisibility", VStr "PUBLIC")]);
                  ("specificContent",
                   VObj [("com.linkedin.ugc.ShareContent",
                          VObj [("shareCommentary", VObj [("text", VStr "hi")]);
                                ("shareMediaCategory", VStr "NONE")])])]).
Proof. split; [reflexivity | vm_compute; reflexivity]. Qed.

Example createPost_article :
  (JSON.stringify 0 (createPost_payload "urn:li:person:42" article_options) ≫= JSON.parse)
  = Some (VObj [("author", VStr "urn:li:person:42");
                ("lifecycleState", VStr "PUBLISHED");
                ("visibility",
                 VObj [("com.linkedin.ugc.MemberNetworkVisibility", VStr "CONNECTIONS")]);
                ("specificContent",
                 VObj [("com.linkedin.ugc.ShareContent",
                        VObj [("shareCommentary", VObj [("text", VStr "hi")]);
                              ("shareMediaCategory", VStr "ARTICLE");
                              ("media",
                               VArr [VObj [("status", VStr "READY");
                                           ("originalUrl", VStr "https://example.com/a");
                                           ("title", VObj [("text", VStr "T")])]])])])]).
Proof. vm_compute. reflexivity. Qed.

(** [createPost({text: "hi"})] against the mocked upstream: the identity
    endpoint is called before the publish endpoint and the post id comes
    back. *)
Example createPost_end_to_end :
  (createPost (upstream 201) test_client plain_options []).1
  = Ok (VObj [("id", VStr "urn:li:share:9")])
  ∧ map (λ e : Exchange, url e.1) (createPost (upstream 201) test_client plain_options []).2
    = ["https://api.linkedin.com/v2/userinfo"; "https://api.linkedin.com/v2/ugcPosts"].
Proof. split; vm_compute; reflexivity. Qed.

(** [createOrganizationPost("777", {text: "hi"})]: one exchange, to the
    publish endpoint, with the organization as author. *)
Example createOrganizationPost_777 :
  map (λ e : Exchange, (url e.1, (λ p, get p "author") <$> (body e.1 ≫= JSON.parse)))
    (createOrganizationPost (upstream 201) test_client "777" plain_options []).2
  = [("https://api.linkedin.com/v2/ugcPosts", Some (Ok (VStr "urn:li:organization:777")))].
Proof. vm_compute. reflexivity. Qed.

(** An image post whose PUT is answered with 500: registration, fetch of
    the image and PUT are made, no publish request follows. *)
Example createImagePost_put_fails :
  (createImagePost (upstream 500) one_file_exists one_file_read None join_slash
     test_client plain_options "https://img.example/cat.png" []).1
  = Throw (Error "Failed to upload image: ")
  ∧ map (λ e : Exchange, (default "GET" (method e.1), url e.1))
      (createImagePost (upstream 500) one_file_exists one_file_read None join_slash
         test_client plain_options "https://img.example/cat.png" []).2
    = [("GET", "https://api.linkedin.com/v2/userinfo");
       ("POST", "https://api.linkedin.com/v2/assets?action=registerUpload");
       ("GET", "https://img.example/cat.png");
       ("PUT", "https://upload.example/1")].
Proof. split; vm_compute; reflexivity. Qed.

Example createOrganizationImagePost_local :
  map (λ e : Exchange, (default "GET" (method e.1), url e.1))
    (createOrganizationImagePost (upstream 201) one_file_exists one_file_read None join_slash
       test_client "777" plain_options "/tmp/cat.png" []).2
  = [("POST", "https://api.linkedin.com/v2/assets?action=registerUpload");
     ("PUT", "https://upload.example/1");
     ("POST", "https://api.linkedin.com/v2/ugcPosts")].
Proof. vm_compute. reflexivity. Qed.

(** A local image that does not exist: the upload is registered, then
    reading the file fails, and nothing is put or published. *)
Example createOrganizationImagePost_missing_file :
  (createOrganizationImagePost (upstream 201) one_file_exists one_file_read None join_slash
     test_client "777" plain_options "./dog.png" []).1
  = Throw (Error "File not found: ./dog.png")
  ∧ map (λ e : Exchange, (default "GET" (method e.1), url e.1))
      (createOrganizationImagePost (upstream 201) one_file_exists one_file_read None join_slash
         test_client "777" plain_options "./dog.png" []).2
    = [("POST", "https://api.linkedin.com/v2/assets?action=registerUpload")].
Proof. split; vm_compute; reflexivity. Qed.

(** Saving and loading in the three kinds of home directory. *)
Example save_load_empty_home :
  match saveTokens long_token empty_home with
  | Ok root' =>
      loadTokens root' = Ok (OAuthTokens_object long_token)
      ∧ fs.existsSync (clawdbotDir ++ ["linkedin.json"]) root' = true
  | Throw _ => False
  end.
Proof. vm_compute. split; reflexivity. Qed.

Example save_load_legacy_home :
  match saveTokens long_token legacy_home with
  | Ok root' =>
      loadTokens root' = Ok (OAuthTokens_object long_token)
      ∧ fs.existsSync (moltbotDir ++ ["linkedin.json"]) root' = true
      ∧ fs.existsSync clawdbotDir root' = false
  | Throw _ => False
  end.
Proof. vm_compute. repeat split; reflexivity. Qed.

Example save_load_both_home :
  match saveTokens long_token both_home with
  | Ok root' =>
      loadTokens root' = Ok (OAuthTokens_object long_token)
      ∧ fs.existsSync (moltbotDir ++ ["linkedin.json"]) root' = false
  | Throw _ => False
  end.
Proof. vm_compute. repeat split; reflexivity. Qed.

(** * Further properties *)

(** ** Deleting the credentials *)

Lemma unlink_file (name : string) (p : fs.path) :
  ∀ n content, fs.lookup (name :: p) n = Some (fs.File content) →
               ∃ n', fs.unlink (name :: p) n = Some n' ∧ fs.lookup (name :: p) n' = None.
Proof.
  revert name. induction p as [|b p IH]; intros name n content H;
    destruct n as [c|m]; try discriminate H; cbn [fs.lookup] in H.
  - destruct (m !! name) as [child|] eqn:E; [|discriminate H].
    cbn [fs.lookup] in H. injection H as ->.
    cbn [fs.unlink]. rewrite E. eexists. split; [reflexivity|].
    cbn [fs.lookup]. now rewrite lookup_delete_eq.
  - destruct (m !! name) as [child|] eqn:E; [|discriminate H].
    destruct (IH b child content H) as (child' & Hu & Hgone).
    cbn [fs.unlink]. rewrite E. cbn [fs.unlink] in Hu. rewrite Hu.
    eexists. split; [reflexivity|].
    cbn [fs.lookup]. rewrite lookup_insert_eq. exact Hgone.
Qed.

(** What is unlinked was a file. *)
Lemma unlink_was_file (p : fs.path) :
  ∀ n n', fs.unlink p n = Some n' →
          (∃ content, fs.lookup p n = Some (fs.File content)) ∧ fs.lookup p n' = None.
Proof.
  induction p as [|a p IH]; intros n n' H; destruct n as [c|m]; try discriminate H.
  cbn [fs.unlink] in H. destruct p as [|b p].
  - destruct (m !! a) as [[content|d]|] eqn:E; try discriminate H. injection H as <-.
    cbn [fs.lookup]. rewrite E, lookup_delete_eq. eauto.
  - destruct (m !! a) as [child|] eqn:E; [|discriminate H].
    destruct (fs.unlink (b :: p) child) as [child'|] eqn:Hu; [|discriminate H].
    injection H as <-. destruct (IH _ _ Hu) as [Hfile Hgone].
    cbn [fs.lookup]. rewrite E, lookup_insert_eq. now split.
Qed.

(** Every other path is what it was: there or not, and with the same
    content if it is a file. *)
Lemma unlink_other (p : fs.path) :
  ∀ n n' q, fs.unlink p n = Some n' → q ≠ p →
            fs.existsSync q n' = fs.existsSync q n
            ∧ fs.readFileSync q n' = fs.readFileSync q n.
Proof.
  unfold fs.existsSync, fs.readFileSync.
  induction p as [|a p IH]; intros n n' q H Hq; destruct n as [c|m]; try discriminate H.
  cbn [fs.unlink] in H.
  assert (Hdir : ∃ m', n' = fs.Dir m').
  { destruct p as [|b p].
    - destruct (m !! a) as [[content|d]|]; try discriminate H. injection H as <-. eauto.
    - destruct (m !! a) as [child|]; [|discriminate H].
      destruct (fs.unlink (b :: p) child); [|discriminate H]. injection H as <-. eauto. }
  destruct q as [|b q]; [destruct Hdir as [m' ->]; now split|].
  destruct (decide (b = a)) as [->|Hba].
  - destruct p as [|a' p].
    + destruct (m !! a) as [[content|d]|] eqn:E; try discriminate H. injection H as <-.
      cbn [fs.lookup]. rewrite E, lookup_delete_eq.
      destruct q as [|b q]; [congruence|]. now split.
    + destruct (m !! a) as [child|] eqn:E; [|discriminate H].
      destruct (fs.unlink (a' :: p) child) as [child'|] eqn:Hu; [|discriminate H].
      injection H as <-. cbn [fs.lookup]. rewrite E, lookup_insert_eq.
      apply (IH child child' q Hu). congruence.
  - assert (Hsame : ∀ m', n' = fs.Dir m' → m' !! b = m !! b).
    { intros m' ->. destruct p as [|a' p].
      - destruct (m !! a) as [[content|d]|]; try discriminate H. injection H as <-.
        now apply lookup_delete_ne.
      - destruct (m !! a) as [child|]; [|discriminate H].
        destruct (fs.unlink (a' :: p) child); [|discriminate H]. injection H as <-.
        now apply lookup_insert_ne. }
    destruct Hdir as [m' ->]. cbn [fs.lookup]. now rewrite (Hsame m' eq_refl).
Qed.

(** A directory that is made leaves the other names of the root alone. *)
Lemma mkdir_lookup_other (a b : string) (p q : fs.path) (n n' : fs.node) :
  fs.mkdir (a :: p) n = Some n' → a ≠ b →
  fs.lookup (b :: q) n' = fs.lookup (b :: q) n.
Proof.
  intros H Hab. destruct n as [c|m]; [discriminate H|]. cbn [fs.mkdir] in H.
  destruct (fs.mkdir p (default (fs.Dir ∅) (m !! a))) as [child|]; [|discriminate H].
  injection H as <-. cbn [fs.lookup]. now rewrite lookup_insert_ne.
Qed.

Lemma existsSync_file (dir : fs.path) (root : fs.node) :
  fs.existsSync dir root = false → fs.existsSync (dir ++ ["linkedin.json"]) root = false.
Proof.
  unfold fs.existsSync. rewrite lookup_app. now destruct (fs.lookup dir root).
Qed.

Lemma existsSync_readFileSync (p : fs.path) (root : fs.node) :
  fs.existsSync p root = false → fs.readFileSync p root = Throw (SystemError "ENOENT").
Proof. unfold fs.existsSync, fs.readFileSync. now destruct (fs.lookup p root). Qed.

(** [loadTokens] looks at the two credential files and at nothing else. *)
Lemma loadTokens_files (root root' : fs.node) :
  (∀ dir, dir = clawdbotDir ∨ dir = moltbotDir →
          fs.existsSync (dir ++ ["linkedin.json"]) root' = fs.existsSync (dir ++ ["linkedin.json"]) root
          ∧ fs.readFileSync (dir ++ ["linkedin.json"]) root'
            = fs.readFileSync (dir ++ ["linkedin.json"]) root) →
  loadTokens root' = loadTokens root.
Proof.
  intros H. unfold loadTokens.
  destruct (H clawdbotDir (or_introl eq_refl)) as [-> ->].
  destruct (H moltbotDir (or_intror eq_refl)) as [-> ->]. reflexivity.
Qed.

(** X1. [deleteTokens] answers [false] exactly when neither credentials
    file is there. It then leaves the file system as it was, and
    [loadTokens] answers [null]: there is nothing to load where there is
    nothing to delete. *)
Theorem deleteTokens_nothing (root root' : fs.node) :
  (deleteTokens root = Ok (false, root') ↔
   root' = root
   ∧ fs.existsSync (clawdbotDir ++ ["linkedin.json"]) root = false
   ∧ fs.existsSync (moltbotDir ++ ["linkedin.json"]) root = false)
  ∧ (deleteTokens root = Ok (false, root') → loadTokens root = Ok VNull).
Proof.
  unfold deleteTokens, loadTokens, getCredentialsPath. cbv zeta.
  destruct (fs.existsSync (clawdbotDir ++ ["linkedin.json"]) root) eqn:Ec.
  - rewrite Ec. split; [split|].
    + destruct (fs.unlink _ root); discriminate.
    + now intros (_ & H & _).
    + destruct (fs.unlink _ root); discriminate.
  - destruct (fs.existsSync (moltbotDir ++ ["linkedin.json"]) root) eqn:Em.
    + rewrite Em. split; [split|].
      * destruct (fs.unlink _ root); discriminate.
      * now intros (_ & _ & H).
      * destruct (fs.unlink _ root); discriminate.
    + rewrite Ec. split; [split|]; [now intros [= <-] | now intros (-> & _) | reflexivity].
Qed.

(** The converse of the last part does not hold: a credentials file can
    hold the text [null]. [loadTokens] answers [null] then as well, and
    [deleteTokens] removes the file. *)
Example deleteTokens_null_file :
  loadTokens null_home = Ok VNull
  ∧ ∃ root', deleteTokens null_home = Ok (true, root') ∧ root' ≠ null_home.
Proof.
  split; [vm_compute; reflexivity|]. eexists. split; [vm_compute; reflexivity|].
  vm_compute. discriminate.
Qed.

Lemma deleteTokens_unlink (root root' : fs.node) :
  deleteTokens root = Ok (true, root') →
  fs.unlink (getCredentialsPath root) root = Some root'.
Proof.
  unfold deleteTokens. cbv zeta.
  destruct (fs.existsSync (getCredentialsPath root) root); [|discriminate].
  destruct (fs.unlink (getCredentialsPath root) root); [|discriminate]. now intros [= <-].
Qed.

Lemma loadTokens_at (root : fs.node) (content : string) :
  fs.lookup (getCredentialsPath root) root = Some (fs.File content) →
  loadTokens root = match JSON.parse content with
                    | Some v => Ok v
                    | None => Throw SyntaxError
                    end.
Proof.
  unfold getCredentialsPath, loadTokens, fs.existsSync, fs.readFileSync. cbv zeta.
  destruct (fs.lookup (clawdbotDir ++ ["linkedin.json"]) root) as [c|] eqn:Ec; cbv iota.
  - rewrite Ec. now intros [= ->].
  - destruct (fs.lookup (moltbotDir ++ ["linkedin.json"]) root) as [m|] eqn:Em; cbv iota.
    + rewrite Em. now intros [= ->].
    + rewrite Ec. discriminate.
Qed.

(** X2. When [deleteTokens] answers [true], what it removed is the file
    that [loadTokens] was reading; the file is gone afterwards, and every
    other path is as it was. *)
Theorem deleteTokens_removes (root root' : fs.node) :
  deleteTokens root = Ok (true, root') →
  (∃ content,
      fs.readFileSync (getCredentialsPath root) root = Ok content
      ∧ loadTokens root = match JSON.parse content with
                          | Some v => Ok v
                          | None => Throw SyntaxError
                          end)
  ∧ fs.existsSync (getCredentialsPath root) root' = false
  ∧ (∀ q, q ≠ getCredentialsPath root →
          fs.existsSync q root' = fs.existsSync q root
          ∧ fs.readFileSync q root' = fs.readFileSync q root).
Proof.
  intros H. apply deleteTokens_unlink in H.
  destruct (unlink_was_file _ _ _ H) as [[content Hfile] Hgone].
  split; [|split].
  - exists content. split; [|now apply loadTokens_at].
    unfold fs.readFileSync. now rewrite Hfile.
  - unfold fs.existsSync. now rewrite Hgone.
  - intros q Hq. now apply (unlink_other _ _ _ _ H).
Qed.

Lemma deleteTokens_file (root : fs.node) (content : string) :
  fs.lookup (getCredentialsPath root) root = Some (fs.File content) →
  ∃ root', deleteTokens root = Ok (true, root')
           ∧ fs.unlink (getCredentialsPath root) root = Some root'.
Proof.
  intros Hfile. unfold deleteTokens. cbv zeta. unfold fs.existsSync at 1. rewrite Hfile.
  assert (Hp : ∃ a p, getCredentialsPath root = a :: p).
  { unfold getCredentialsPath. cbv zeta.
    repeat destruct (fs.existsSync _ root); cbn; eauto. }
  destruct Hp as (a & p & Hp). rewrite Hp in Hfile |- *.
  destruct (unlink_file a p root content Hfile) as (root' & -> & _). eauto.
Qed.

(** What a save does to the file system: a write below the directory
    [getCredentialsDir] names, after that directory was made if neither
    root was there. *)
Lemma saveTokens_write (t : OAuthTokens) (root root1 : fs.node) :
  saveTokens t root = Ok root1 →
  ∃ data base,
    fs.write (getCredentialsDir root ++ ["linkedin.json"]) data base = Some root1
    ∧ (base = root
       ∨ (fs.existsSync clawdbotDir root = false ∧ fs.existsSync moltbotDir root = false
          ∧ fs.mkdir clawdbotDir root = Some base)).
Proof.
  unfold saveTokens. cbv zeta.
  destruct (JSON.stringify 2 (OAuthTokens_object t)) as [data|].
  - unfold fs.writeFileSync, fs.mkdirSync.
    destruct (fs.existsSync (getCredentialsDir root) root) eqn:E; cbn [negb].
    + destruct (fs.write _ data root) as [r|] eqn:Hw; [|discriminate].
      intros [= <-]. eauto.
    + assert (Hnone : fs.existsSync clawdbotDir root = false
                      ∧ fs.existsSync moltbotDir root = false).
      { unfold getCredentialsDir in E.
        destruct (fs.existsSync clawdbotDir root) eqn:Ec; [congruence|].
        destruct (fs.existsSync moltbotDir root) eqn:Em; [congruence|]. now split. }
      destruct (fs.mkdir (getCredentialsDir root) root) as [base|] eqn:Hmk; [|discriminate].
      destruct (fs.write _ data base) as [r|] eqn:Hw; [|discriminate].
      intros [= <-]. exists data, base. split; [exact Hw|]. right.
      destruct Hnone as [Hc Hm]. repeat split; try assumption.
      unfold getCredentialsDir in Hmk. now rewrite Hc, Hm in Hmk.
  - destruct (if negb _ then _ else _); discriminate.
Qed.

Lemma getCredentialsDir_cases (root : fs.node) :
  (getCredentialsDir root = clawdbotDir
   ∧ (fs.existsSync clawdbotDir root = true ∨ fs.existsSync moltbotDir root = false))
  ∨ (getCredentialsDir root = moltbotDir
     ∧ fs.existsSync clawdbotDir root = false ∧ fs.existsSync moltbotDir root = true).
Proof.
  unfold getCredentialsDir.
  destruct (fs.existsSync clawdbotDir root); [left; split; [reflexivity | now left]|].
  destruct (fs.existsSync moltbotDir root); [now right | left; split; [reflexivity | now right]].
Qed.

(** X3. Saving and then deleting. After [saveTokens], the file that
    [getCredentialsPath] names is the one that was written, and
    [deleteTokens] removes it. No credentials file is left then, and
    [loadTokens] answers [null], unless the home had the primary
    credentials directory and a legacy credentials file as well: that
    file was never touched, and it is what [loadTokens] reads now. *)
Theorem save_delete_load (t : OAuthTokens) (root root1 : fs.node) :
  saveTokens t root = Ok root1 →
  getCredentialsPath root1 = getCredentialsDir root ++ ["linkedin.json"]
  ∧ ∃ root2,
      deleteTokens root1 = Ok (true, root2)
      ∧ (fs.existsSync (getCredentialsPath root2) root2 = false ↔
         fs.existsSync clawdbotDir root = false
         ∨ fs.existsSync (moltbotDir ++ ["linkedin.json"]) root = false)
      ∧ (fs.existsSync (getCredentialsPath root2) root2 = false →
         loadTokens root2 = Ok VNull)
      ∧ (fs.existsSync clawdbotDir root = true →
         ∀ content,
           fs.readFileSync (moltbotDir ++ ["linkedin.json"]) root = Ok content →
           loadTokens root2 = match JSON.parse content with
                              | Some v => Ok v
                              | None => Throw SyntaxError
                              end).
Proof.
  intros Hsave. destruct (saveTokens_write t root root1 Hsave) as (data & base & Hw & Hbase).
  pose proof (write_lookup _ _ _ _ Hw) as Hfile.
  (* the other root is as it was *)
  assert (Hother : ∀ a b p q, getCredentialsDir root = a :: p → a ≠ b →
                     fs.lookup (b :: q) root1 = fs.lookup (b :: q) root).
  { intros a b p q Hdir Hab. rewrite Hdir in Hw. cbn [app] in Hw.
    rewrite (write_lookup_other a b _ q _ _ _ Hw Hab).
    destruct Hbase as [-> | (Hc & Hm & Hmk)]; [reflexivity|].
    unfold getCredentialsDir in Hdir. rewrite Hc, Hm in Hdir. injection Hdir as <- <-.
    now apply (mkdir_lookup_other ".clawdbot" b _ q _ _ Hmk). }
  assert (Hpath : getCredentialsPath root1 = getCredentialsDir root ++ ["linkedin.json"]).
  { unfold getCredentialsPath. cbv zeta.
    destruct (getCredentialsDir_cases root) as [[Hd _] | (Hd & Hc & Hm)]; rewrite Hd in *.
    - unfold fs.existsSync at 1. now rewrite Hfile.
    - assert (Hno : fs.existsSync (clawdbotDir ++ ["linkedin.json"]) root1 = false).
      { unfold fs.existsSync. cbn [clawdbotDir app].
        rewrite (Hother ".moltbot" ".clawdbot" ["credentials"] _ eq_refl) by discriminate.
        apply existsSync_file in Hc. exact Hc. }
      rewrite Hno. unfold fs.existsSync. now rewrite Hfile. }
  split; [exact Hpath|].
  rewrite <- Hpath in Hfile.
  destruct (deleteTokens_file root1 data Hfile) as (root2 & Hdel & Hunlink).
  exists root2. split; [exact Hdel|].
  destruct (unlink_was_file _ _ _ Hunlink) as [_ Hgone].
  pose proof (λ q, unlink_other _ _ _ q Hunlink) as Hrest.
  rewrite Hpath in Hgone, Hrest.
  destruct (getCredentialsDir_cases root) as [[Hd Hwhy] | (Hd & Hc & Hm)]; rewrite Hd in *.
  - (* written and removed below the primary root *)
    assert (Hlegacy : fs.existsSync (moltbotDir ++ ["linkedin.json"]) root2
                      = fs.existsSync (moltbotDir ++ ["linkedin.json"]) root
                      ∧ fs.readFileSync (moltbotDir ++ ["linkedin.json"]) root2
                        = fs.readFileSync (moltbotDir ++ ["linkedin.json"]) root).
    { destruct (Hrest (moltbotDir ++ ["linkedin.json"])) as [-> ->]; [discriminate|].
      unfold fs.existsSync, fs.readFileSync. cbn [moltbotDir app].
      now rewrite (Hother ".clawdbot" ".moltbot" ["credentials"] _ eq_refl) by discriminate. }
    destruct Hlegacy as [Hex Hread].
    assert (Hprimary : fs.existsSync (clawdbotDir ++ ["linkedin.json"]) root2 = false)
      by (unfold fs.existsSync; now rewrite Hgone).
    assert (Hleft : fs.existsSync (getCredentialsPath root2) root2
                    = fs.existsSync (moltbotDir ++ ["linkedin.json"]) root).
    { unfold getCredentialsPath. cbv zeta. rewrite Hprimary, Hex.
      destruct (fs.existsSync (moltbotDir ++ ["linkedin.json"]) root) eqn:E;
        [now rewrite Hex | exact Hprimary]. }
    assert (Hload : loadTokens root2 =
                    if fs.existsSync (moltbotDir ++ ["linkedin.json"]) root then
                      match fs.readFileSync (moltbotDir ++ ["linkedin.json"]) root with
                      | Throw e => Throw e
                      | Ok content =>
                          match JSON.parse content with
                          | Some v => Ok v
                          | None => Throw SyntaxError
                          end
                      end
                    else Ok VNull).
    { unfold loadTokens. cbv zeta. rewrite Hprimary. now rewrite Hex, Hread. }
    rewrite Hleft, Hload. split; [|split].
    + split; [now right|].
      intros [Hc | Hm]; [|exact Hm]. destruct Hwhy as [Hc' | Hm]; [congruence|].
      now apply existsSync_file.
    + now intros ->.
    + intros _ content Hcontent. rewrite Hcontent.
      destruct (fs.existsSync (moltbotDir ++ ["linkedin.json"]) root) eqn:E; [reflexivity|].
      apply existsSync_readFileSync in E. congruence.
  - (* written and removed below the legacy root *)
    assert (Hprimary : fs.existsSync (clawdbotDir ++ ["linkedin.json"]) root2 = false).
    { destruct (Hrest (clawdbotDir ++ ["linkedin.json"])) as [-> _]; [discriminate|].
      unfold fs.existsSync. cbn [clawdbotDir app].
      rewrite (Hother ".moltbot" ".clawdbot" ["credentials"] _ eq_refl) by discriminate.
      apply existsSync_file in Hc. exact Hc. }
    assert (Hlegacy : fs.existsSync (moltbotDir ++ ["linkedin.json"]) root2 = false)
      by (unfold fs.existsSync; now rewrite Hgone).
    assert (Hleft : fs.existsSync (getCredentialsPath root2) root2 = false).
    { unfold getCredentialsPath. cbv zeta. now rewrite Hprimary, Hlegacy. }
    assert (Hload : loadTokens root2 = Ok VNull).
    { unfold loadTokens. cbv zeta. now rewrite Hprimary, Hlegacy. }
    rewrite Hleft, Hload. split; [split; [now left | reflexivity] | split; [reflexivity | congruence]].
Qed.

Lemma deleteTokens_removes_witness :
  fs.existsSync (getCredentialsPath both_home)
    (match deleteTokens both_home with Ok (_, r) => r | Throw _ => both_home end) = false.
Proof.
  refine (proj1 (proj2 (deleteTokens_removes both_home _ _))).
  vm_compute. reflexivity.
Defined.

Lemma save_delete_load_witness :
  getCredentialsPath
    (match saveTokens long_token legacy_home with Ok r => r | Throw _ => legacy_home end)
  = getCredentialsDir legacy_home ++ ["linkedin.json"].
Proof.
  refine (proj1 (save_delete_load long_token legacy_home _ _)).
  vm_compute. reflexivity.
Defined.

(** Logging out of a home that has both roots brings the legacy record
    back. *)
Example logout_brings_back_legacy :
  match saveTokens long_token two_roots_home with
  | Ok root1 =>
      match deleteTokens root1 with
      | Ok (true, root2) => loadTokens root2 = Ok (VObj [("access_token", VStr "old")])
      | _ => False
      end
  | Throw _ => False
  end.
Proof. vm_compute. reflexivity. Qed.

(** ** What a save leaves alone *)

(** A write changes no other path: each is there or not as before, and
    reads as before. *)
Lemma write_other (p : fs.path) (data : string) :
  ∀ n n' q, fs.write p data n = Some n' → q ≠ p →
            fs.existsSync q n' = fs.existsSync q n
            ∧ fs.readFileSync q n' = fs.readFileSync q n.
Proof.
  unfold fs.existsSync, fs.readFileSync.
  induction p as [|a p IH]; intros n n' q H Hq; destruct n as [c|m]; try discriminate H.
  cbn [fs.write] in H.
  assert (Hdir : ∃ m', n' = fs.Dir m').
  { destruct p as [|b p].
    - destruct (m !! a) as [[content|d]|]; try discriminate H; injection H as <-; eauto.
    - destruct (m !! a) as [child|]; [|discriminate H].
      destruct (fs.write (b :: p) data child); [|discriminate H]. injection H as <-. eauto. }
  destruct q as [|b q]; [destruct Hdir as [m' ->]; now split|].
  destruct (decide (b = a)) as [->|Hba].
  - destruct p as [|a' p].
    + destruct q as [|b q]; [congruence|].
      destruct (m !! a) as [[content|d]|] eqn:E; try discriminate H; injection H as <-;
        cbn [fs.lookup]; rewrite E, lookup_insert_eq; now split.
    + destruct (m !! a) as [child|] eqn:E; [|discriminate H].
      destruct (fs.write (a' :: p) data child) as [child'|] eqn:Hw; [|discriminate H].
      injection H as <-. cbn [fs.lookup]. rewrite E, lookup_insert_eq.
      apply (IH child child' q Hw). congruence.
  - assert (Hsame : ∀ m', n' = fs.Dir m' → m' !! b = m !! b).
    { intros m' ->. destruct p as [|a' p].
      - destruct (m !! a) as [[content|d]|]; try discriminate H; injection H as <-;
          now apply lookup_insert_ne.
      - destruct (m !! a) as [child|]; [|discriminate H].
        destruct (fs.write (a' :: p) data child); [|discriminate H]. injection H as <-.
        now apply lookup_insert_ne. }
    destruct Hdir as [m' ->]. cbn [fs.lookup]. now rewrite (Hsame m' eq_refl).
Qed.

(** Making a directory removes nothing and changes no file. *)
Lemma mkdir_keeps (p : fs.path) :
  ∀ n n' q, fs.mkdir p n = Some n' →
            (fs.existsSync q n = true → fs.existsSync q n' = true)
            ∧ (∀ content, fs.readFileSync q n = Ok content →
                          fs.readFileSync q n' = Ok content).
Proof.
  unfold fs.existsSync, fs.readFileSync.
  induction p as [|a p IH]; intros n n' q H; destruct n as [c|m]; try discriminate H.
  - cbn [fs.mkdir] in H. injection H as <-. now split.
  - cbn [fs.mkdir] in H.
    destruct (fs.mkdir p (default (fs.Dir ∅) (m !! a))) as [child'|] eqn:Hmk; [|discriminate H].
    injection H as <-. destruct q as [|b q]; [now split|]. cbn [fs.lookup].
    destruct (decide (b = a)) as [->|Hba].
    + rewrite lookup_insert_eq. destruct (m !! a) as [child|] eqn:E.
      * cbn [default] in Hmk. apply (IH child child' q Hmk).
      * split; [discriminate|]. discriminate.
    + rewrite lookup_insert_ne by congruence. now split.
Qed.

(** X4. What a save writes and what it leaves alone: after
    [saveTokens], the credentials file in the directory that
    [getCredentialsDir] named holds the record as JSON with an
    indentation of two spaces; every other file reads as it did before,
    and nothing that was there is gone. *)
Theorem saveTokens_frame (t : OAuthTokens) (root root1 : fs.node) :
  saveTokens t root = Ok root1 →
  (∃ data,
      JSON.stringify 2 (OAuthTokens_object t) = Some data
      ∧ fs.readFileSync (getCredentialsDir root ++ ["linkedin.json"]) root1 = Ok data)
  ∧ ∀ q,
      q ≠ getCredentialsDir root ++ ["linkedin.json"] →
      (fs.existsSync q root = true → fs.existsSync q root1 = true)
      ∧ (∀ content, fs.readFileSync q root = Ok content →
                    fs.readFileSync q root1 = Ok content).
Proof.
  intros Hsave.
  assert (Hdata : ∃ data, JSON.stringify 2 (OAuthTokens_object t) = Some data
                          ∧ ∃ base,
                              fs.write (getCredentialsDir root ++ ["linkedin.json"]) data base
                              = Some root1
                              ∧ (base = root ∨ fs.mkdir clawdbotDir root = Some base)).
  { revert Hsave. unfold saveTokens. cbv zeta.
    destruct (JSON.stringify 2 (OAuthTokens_object t)) as [data|].
    - unfold fs.writeFileSync, fs.mkdirSync.
      destruct (fs.existsSync (getCredentialsDir root) root) eqn:E; cbn [negb].
      + destruct (fs.write _ data root) as [r|] eqn:Hw; [|discriminate].
        intros [= <-]. eauto 6.
      + assert (Hdir : getCredentialsDir root = clawdbotDir).
        { unfold getCredentialsDir in E |- *.
          destruct (fs.existsSync clawdbotDir root); [reflexivity|].
          destruct (fs.existsSync moltbotDir root) eqn:Em; [congruence | reflexivity]. }
        rewrite Hdir. destruct (fs.mkdir clawdbotDir root) as [base|] eqn:Hmk; [|discriminate].
        destruct (fs.write _ data base) as [r|] eqn:Hw; [|discriminate].
        intros [= <-]. eauto 6.
    - destruct (if negb _ then _ else _); discriminate. }
  destruct Hdata as (data & Hdata & base & Hw & Hbase). split.
  - exists data. split; [exact Hdata|]. unfold fs.readFileSync.
    now rewrite (write_lookup _ _ _ _ Hw).
  - intros q Hq. destruct (write_other _ _ _ _ q Hw Hq) as [-> ->].
    destruct Hbase as [-> | Hmk]; [now split|]. now apply (mkdir_keeps _ _ _ q Hmk).
Qed.

Lemma saveTokens_frame_witness :
  fs.readFileSync (moltbotDir ++ ["linkedin.json"])
    (match saveTokens long_token two_roots_home with Ok r => r | Throw _ => two_roots_home end)
  = Ok (json_text (VObj [("access_token", VStr "old")])).
Proof.
  refine (proj2 (proj2 (saveTokens_frame long_token two_roots_home _ _) _ _) _ _).
  - vm_compute. reflexivity.
  - vm_compute. discriminate.
  - vm_compute. reflexivity.
Defined.

(** ** The authorization URL *)

Lemma form_decode_byte (c : ascii) (rest : string) :
  form_decode (form_byte c +:+ rest) = String c (form_decode rest).
Proof.
  each_ascii c;
    match goal with
    | |- context [form_byte ?a] =>
        let r := eval vm_compute in (form_byte a) in change (form_byte a) with r
    end;
    sapp; reflexivity.
Qed.

Lemma form_decode_bytes (s : string) : form_decode (form_bytes s) = s.
Proof.
  induction s as [|c s IH]; [reflexivity|].
  cbn [form_bytes]. now rewrite form_decode_byte, IH.
Qed.

(** The serializer loses nothing but the difference between one lone
    surrogate and another. *)
Lemma form_encode_inj (s s' : string) :
  form_encode s = form_encode s' → USVString s = USVString s'.
Proof.
  unfold form_encode. intros H. apply (f_equal form_decode) in H.
  now rewrite !form_decode_bytes in H.
Qed.

Lemma query_safe_sapp (a b : string) :
  query_safe (a +:+ b) = query_safe a && query_safe b.
Proof.
  induction a as [|c a IH]; [reflexivity|]. rewrite sapp_cons. cbn [query_safe].
  now rewrite IH, andb_assoc.
Qed.

Lemma query_safe_form_byte (c : ascii) : query_safe (form_byte c) = true.
Proof. each_ascii c; reflexivity. Qed.

Lemma query_safe_form_encode (s : string) : query_safe (form_encode s) = true.
Proof.
  unfold form_encode. induction (USVString s) as [|c u IH]; [reflexivity|].
  cbn [form_bytes]. now rewrite query_safe_sapp, query_safe_form_byte, IH.
Qed.

(** Two texts cut at a separator that neither has in its head. *)
Lemma query_cut (sep : ascii) (a a' r r' : string) :
  is_query_char sep = false →
  query_safe a = true → query_safe a' = true →
  a +:+ String sep r = a' +:+ String sep r' → a = a' ∧ r = r'.
Proof.
  intros Hsep. revert a'.
  induction a as [|c a IH]; intros [|c' a'] Ha Ha' H; rewrite ?sapp_cons, ?sapp_nil_l in H.
  - now injection H as ->.
  - injection H as -> _. cbn [query_safe] in Ha'. rewrite Hsep in Ha'. discriminate Ha'.
  - injection H as <- _. cbn [query_safe] in Ha. rewrite Hsep in Ha. discriminate Ha.
  - injection H as -> H. cbn [query_safe] in Ha, Ha'.
    apply andb_true_iff in Ha as [_ Ha]. apply andb_true_iff in Ha' as [_ Ha'].
    destruct (IH a' Ha Ha' H) as [-> ->]. now split.
Qed.

Lemma form_plain_bytes (s : string) : form_plain s = true → form_bytes s = s.
Proof.
  induction s as [|c s IH]; [reflexivity|]. cbn [form_plain form_bytes].
  intros [Hc Hs]%andb_true_iff. rewrite (IH Hs). unfold form_byte. rewrite Hc.
  destruct (N.eqb_spec (N_of_ascii c) 32) as [E|_]; [|reflexivity].
  unfold is_form_safe in Hc. rewrite E in Hc. discriminate Hc.
Qed.

Lemma form_plain_USVString (s : string) : form_plain s = true → USVString s = s.
Proof.
  induction s as [|a s IH]; [reflexivity|]. cbn [form_plain].
  intros [Ha Hs]%andb_true_iff. cbn [USVString].
  assert (Hlead : (N_of_ascii a =? 237)%N = false).
  { destruct (N.eqb_spec (N_of_ascii a) 237) as [E|_]; [|reflexivity].
    unfold is_form_safe in Ha. rewrite E in Ha. discriminate Ha. }
  rewrite Hlead. cbn [andb]. rewrite (IH Hs). now destruct s as [|b [|c rest]].
Qed.

Lemma form_plain_encode (s : string) : form_plain s = true → form_encode s = s.
Proof.
  intros H. unfold form_encode. rewrite (form_plain_USVString s H).
  now apply form_plain_bytes.
Qed.

Lemma sextet_form_safe (n : N) : (n < 64)%N → is_form_safe (sextet_char n) = true.
Proof.
  intros Hn. apply (sextet_cases n); [exact Hn|]. clear. intros k Hk.
  do 64 (destruct k as [|k]; [reflexivity|]). lia.
Qed.

Lemma base64url_form_plain (buf : list byte) : form_plain (base64url buf) = true.
Proof.
  induction buf as [|a|a b|a b c rest IH] using list_ind3.
  - reflexivity.
  - byte_facts a. cbn [base64url form_plain].
    rewrite !sextet_form_safe by lia. reflexivity.
  - byte_facts a. byte_facts b. cbn [base64url form_plain].
    rewrite !sextet_form_safe by lia. reflexivity.
  - byte_facts a. byte_facts b. byte_facts c. rewrite base64url_cons3. cbn [form_plain].
    rewrite !sextet_form_safe by lia. exact IH.
Qed.

Lemma buildAuthorizationUrl_text (config : OAuthConfig) (state : string) :
  buildAuthorizationUrl config state
  = AUTHORIZATION_URL +:+ "?response_type=code&client_id=" +:+ form_encode (clientId config)
    +:+ "&redirect_uri=" +:+ form_encode (redirectUri config)
    +:+ "&state=" +:+ form_encode state
    +:+ "&scope=" +:+ form_encode (join " " (scopes config)).
Proof.
  unfold buildAuthorizationUrl, URLSearchParams_toString. cbn [map join fst snd].
  change (form_encode "response_type") with "response_type".
  change (form_encode "code") with "code".
  change (form_encode "client_id") with "client_id".
  change (form_encode "redirect_uri") with "redirect_uri".
  change (form_encode "state") with "state".
  change (form_encode "scope") with "scope".
  unfold AUTHORIZATION_URL. sapp. reflexivity.
Qed.

(** X5. The query of the authorization URL is made of the five
    parameters in their order, whatever the configuration and the state
    hold: every value is written with letters, digits, [*-._+] and
    percent escapes alone, so none of them can end its parameter or start
    another. The values can be read back: two calls give one URL only for
    one client id, redirect URI, state and list of scopes (as
    URLSearchParams takes them). The client secret has no part in the
    URL. *)
Theorem buildAuthorizationUrl_query (config : OAuthConfig) (state : string) :
  buildAuthorizationUrl config state
  = AUTHORIZATION_URL +:+ "?response_type=code&client_id=" +:+ form_encode (clientId config)
    +:+ "&redirect_uri=" +:+ form_encode (redirectUri config)
    +:+ "&state=" +:+ form_encode state
    +:+ "&scope=" +:+ form_encode (join " " (scopes config))
  ∧ query_safe (form_encode (clientId config)) = true
  ∧ query_safe (form_encode (redirectUri config)) = true
  ∧ query_safe (form_encode state) = true
  ∧ query_safe (form_encode (join " " (scopes config))) = true
  ∧ (∀ config' state',
       buildAuthorizationUrl config' state' = buildAuthorizationUrl config state →
       USVString (clientId config') = USVString (clientId config)
       ∧ USVString (redirectUri config') = USVString (redirectUri config)
       ∧ USVString state' = USVString state
       ∧ USVString (join " " (scopes config')) = USVString (join " " (scopes config)))
  ∧ (∀ secret,
       buildAuthorizationUrl
         {| clientId := clientId config; clientSecret := secret;
            redirectUri := redirectUri config; scopes := scopes config |} state
       = buildAuthorizationUrl config state).
Proof.
  split; [apply buildAuthorizationUrl_text|].
  repeat (split; [apply query_safe_form_encode|]).
  split; [|reflexivity].
  intros config' state'. rewrite !buildAuthorizationUrl_text.
  unfold AUTHORIZATION_URL. sapp. intros H.
  repeat match type of H with String ?c _ = String ?c _ => injection H as H end.
  apply query_cut in H as [H1 H]; try apply query_safe_form_encode; [|reflexivity].
  repeat match type of H with String ?c _ = String ?c _ => injection H as H end.
  apply query_cut in H as [H2 H]; try apply query_safe_form_encode; [|reflexivity].
  repeat match type of H with String ?c _ = String ?c _ => injection H as H end.
  apply query_cut in H as [H3 H]; try apply query_safe_form_encode; [|reflexivity].
  repeat match type of H with String ?c _ = String ?c _ => injection H as H end.
  repeat split; now apply form_encode_inj.
Qed.

(** X6. A state that [generateState] made goes into the authorization
    URL as it is, character by character: it is the text that the
    redirect carries back and that the listener compares. *)
Theorem buildAuthorizationUrl_state (config : OAuthConfig) (g : Rng) :
  buildAuthorizationUrl config (generateState g).1
  = AUTHORIZATION_URL +:+ "?response_type=code&client_id=" +:+ form_encode (clientId config)
    +:+ "&redirect_uri=" +:+ form_encode (redirectUri config)
    +:+ "&state=" +:+ (generateState g).1
    +:+ "&scope=" +:+ form_encode (join " " (scopes config)).
Proof.
  rewrite buildAuthorizationUrl_text. unfold generateState.
  destruct (randomBytes 32 g) as [buf g']. cbn [fst].
  now rewrite (form_plain_encode _ (base64url_form_plain buf)).
Qed.

(** ** The configuration *)

Lemma String_split_cons (sep : ascii) (s : string) :
  ∃ p ps, String_split sep s = p :: ps.
Proof.
  induction s as [|c s (p & ps & IH)]; cbn [String_split]; [eauto|].
  destruct (Ascii.eqb c sep); [eauto|]. rewrite IH. eauto.
Qed.

Lemma join_cons (sep p q : string) (ps : list string) :
  join sep (p :: q :: ps) = p +:+ sep +:+ join sep (q :: ps).
Proof. reflexivity. Qed.

(** Joining what was split, by the separator or by another character. *)
Lemma join_String_split (sep other : ascii) (s : string) :
  join (String other "") (String_split sep s)
  = (fix go (t : string) : string :=
       match t with
       | EmptyString => ""
       | String c t' => String (if Ascii.eqb c sep then other else c) (go t')
       end) s.
Proof.
  induction s as [|c s IH]; [reflexivity|]. cbn [String_split].
  destruct (String_split_cons sep s) as (p & ps & E). rewrite E in IH |- *.
  destruct (Ascii.eqb c sep).
  - rewrite join_cons, sapp_nil_l, sapp_cons, sapp_nil_l. now rewrite IH.
  - rewrite <- IH. destruct ps as [|q ps]; [reflexivity|].
    now rewrite !join_cons, sapp_cons.
Qed.

Lemma String_split_parts (sep : ascii) (s : string) :
  Forall (λ p, has_char sep p = false) (String_split sep s).
Proof.
  induction s as [|c s IH]; cbn [String_split]; [now repeat constructor|].
  destruct (Ascii.eqb c sep) eqn:E; [now constructor|].
  destruct (String_split sep s) as [|p ps]; [repeat constructor; cbn; now rewrite Ascii.eqb_sym, E|].
  inversion IH as [|? ? Hp Hps]; subst. constructor; [|exact Hps].
  cbn [has_char]. now rewrite Ascii.eqb_sym, E, Hp.
Qed.

Lemma join_split_commas (text : string) : join "," (String_split "," text) = text.
Proof.
  rewrite (join_String_split "," "," text).
  induction text as [|c text IH]; [reflexivity|]. rewrite IH.
  destruct (Ascii.eqb_spec c ","); now subst.
Qed.

Lemma join_split_spaces (text : string) :
  join " " (String_split "," text) = spaces_for_commas text.
Proof. apply (join_String_split "," " " text). Qed.

Lemma nonempty_Some (o : option string) :
  nonempty o = true → ∃ s, o = Some s ∧ s ≠ "".
Proof.
  destruct o as [s|]; [|discriminate]. cbn [nonempty].
  destruct (String.eqb_spec s ""); [discriminate|]. eauto.
Qed.

(** X7. [getOAuthConfig] fails exactly when the client id or the client
    secret is unset or empty. Otherwise it gives the two as they are set;
    a redirect URI on localhost with the port of LINKEDIN_OAUTH_PORT, or
    4002 when that is unset or empty; and for scopes the default ones
    when LINKEDIN_SCOPES is unset, else the parts of its text between the
    commas: at least one, none with a comma, and joined by commas they are
    the text again (an empty text gives one empty scope, not the
    default). *)
Theorem getOAuthConfig_spec (env : string → option string) :
  (isOk (getOAuthConfig env) = true ↔
   nonempty (env "LINKEDIN_CLIENT_ID") = true ∧ nonempty (env "LINKEDIN_CLIENT_SECRET") = true)
  ∧ ∀ config,
      getOAuthConfig env = Ok config →
      env "LINKEDIN_CLIENT_ID" = Some (clientId config)
      ∧ env "LINKEDIN_CLIENT_SECRET" = Some (clientSecret config)
      ∧ (∃ port,
            redirectUri config = "http://localhost:" +:+ port +:+ "/callback"
            ∧ port ≠ ""
            ∧ (env "LINKEDIN_OAUTH_PORT" = Some port
               ∨ (port = "4002" ∧ nonempty (env "LINKEDIN_OAUTH_PORT") = false)))
      ∧ match env "LINKEDIN_SCOPES" with
        | None => scopes config = DEFAULT_SCOPES
        | Some text =>
            join "," (scopes config) = text
            ∧ scopes config ≠ []
            ∧ Forall (λ scope, has_char "," scope = false) (scopes config)
        end.
Proof.
  unfold getOAuthConfig. cbv zeta.
  destruct (nonempty (env "LINKEDIN_CLIENT_ID")) eqn:Eid;
    [destruct (nonempty (env "LINKEDIN_CLIENT_SECRET")) eqn:Esec|]; cbn [negb orb].
  2, 3: split; [split; [discriminate | now intros []] | discriminate].
  split; [now split|]. intros config [= <-]. cbn [clientId clientSecret redirectUri scopes].
  destruct (nonempty_Some _ Eid) as (id & -> & _).
  destruct (nonempty_Some _ Esec) as (sec & -> & _).
  split; [reflexivity|]. split; [reflexivity|]. split.
  - destruct (nonempty (env "LINKEDIN_OAUTH_PORT")) eqn:Eport.
    + destruct (nonempty_Some _ Eport) as (port & -> & Hport).
      exists port. repeat split; [exact Hport | now left].
    + exists "4002". repeat split; [discriminate | now right].
  - destruct (env "LINKEDIN_SCOPES") as [text|]; [|reflexivity].
    split; [apply join_split_commas|]. split; [|apply String_split_parts].
    now destruct (String_split_cons "," text) as (p & ps & ->).
Qed.

(** X8. From the environment to the URL: when LINKEDIN_SCOPES is set,
    the scope parameter of the authorization URL is its text with a space
    for every comma, which the query writes as [+]. *)
Theorem scopes_in_authorization_url (env : string → option string) (config : OAuthConfig)
    (state text : string) :
  getOAuthConfig env = Ok config →
  env "LINKEDIN_SCOPES" = Some text →
  buildAuthorizationUrl config state
  = AUTHORIZATION_URL +:+ "?response_type=code&client_id=" +:+ form_encode (clientId config)
    +:+ "&redirect_uri=" +:+ form_encode (redirectUri config)
    +:+ "&state=" +:+ form_encode state
    +:+ "&scope=" +:+ form_encode (spaces_for_commas text).
Proof.
  intros Hconfig Htext. rewrite buildAuthorizationUrl_text.
  unfold getOAuthConfig in Hconfig. cbv zeta in Hconfig. rewrite Htext in Hconfig.
  destruct (negb _ || negb _); [discriminate Hconfig|]. injection Hconfig as <-.
  cbn [scopes clientId redirectUri]. now rewrite join_split_spaces.
Qed.

Lemma scopes_in_authorization_url_witness :
  buildAuthorizationUrl
    {| clientId := "your_client_id_here"; clientSecret := "your_client_secret_here";
       redirectUri := "http://localhost:4002/callback";
       scopes := ["r_basicprofile"; "w_member_social"; "r_organization_social"] |} "s3cret"
  = "https://www.linkedin.com/oauth/v2/authorization?response_type=code"
    +:+ "&client_id=your_client_id_here"
    +:+ "&redirect_uri=http%3A%2F%2Flocalhost%3A4002%2Fcallback&state=s3cret"
    +:+ "&scope=r_basicprofile+w_member_social+r_organization_social".
Proof.
  exact (scopes_in_authorization_url readme_env _ "s3cret" _ eq_refl eq_refl).
Defined.

(** ** The token endpoint *)

Lemma assoc_get_obj_set (k : string) (v : jsval) (props : list (string * jsval)) :
  assoc_get k (JSON.obj_set k v props) = Some v
  ∧ ∀ k', k' ≠ k → assoc_get k' (JSON.obj_set k v props) = assoc_get k' props.
Proof.
  induction props as [|[k0 v0] props [IH1 IH2]]; cbn [JSON.obj_set assoc_get].
  - rewrite String.eqb_refl. split; [reflexivity|]. intros k' Hk'.
    now destruct (String.eqb_spec k' k).
  - destruct (String.eqb_spec k k0) as [->|Hk0]; cbn [assoc_get].
    + rewrite String.eqb_refl. split; [reflexivity|]. intros k' Hk'.
      now destruct (String.eqb_spec k' k0).
    + destruct (String.eqb_spec k k0); [contradiction|]. split; [exact IH1|].
      intros k' Hk'. destruct (String.eqb_spec k' k0); [reflexivity|]. now apply IH2.
Qed.

Section TokenFacts.

Variable net : Network.
Variable now : Z.

Lemma token_call_run (failure params : string) (log : list Exchange) :
  token_call net now failure params log
  = (token_outcome now failure (net log (form_request params)),
     log ++ [(form_request params, net log (form_request params))]).
Proof.
  unfold token_call, token_outcome, mbind, Call_bind, fetch, throw, lift, mret, Call_ret,
    Response_json.
  destruct (net log (form_request params)) as [response|e]; [|reflexivity].
  destruct (negb (ok response)); [reflexivity|].
  now destruct (JSON.parse (responseText response)).
Qed.

Lemma token_outcome_spec (failure : string) (answer : Result Response) :
  (∀ e, answer = Throw e → token_outcome now failure answer = Throw e)
  ∧ ∀ response,
      answer = Ok response →
      (ok response = false →
       token_outcome now failure answer = Throw (Error (failure +:+ responseText response)))
      ∧ (ok response = true → JSON.parse (responseText response) = None →
         token_outcome now failure answer = Throw SyntaxError)
      ∧ (ok response = true →
         ∀ tokenData,
           JSON.parse (responseText response) = Some tokenData →
           ∃ tokens,
             token_outcome now failure answer = Ok tokens
             ∧ get tokens "created_at" = Ok (VStr (Date_toISOString now))
             ∧ ∀ props key, tokenData = VObj props → key ≠ "created_at" →
                            get tokens key = get tokenData key).
Proof.
  split; [now intros e ->|]. intros response ->. unfold token_outcome.
  split; [now intros ->|]. split; [now intros -> ->|].
  intros -> tokenData ->. cbn [negb]. eexists. split; [reflexivity|].
  cbn [get].
  destruct (assoc_get_obj_set "created_at" (VStr (Date_toISOString now)) (spread tokenData))
    as [Hset Hrest].
  split; [now rewrite Hset|]. intros props key -> Hkey. cbn [spread get] in *.
  now rewrite (Hrest key Hkey).
Qed.

(** X9. [exchangeCodeForToken] makes one request, whatever comes of it:
    a POST to the token URL whose body holds the five parameters, the
    client secret among them, none in the URL. It fails with the error of
    the network, with "Token exchange failed: " and the body on a status
    that is not 2xx, and with a SyntaxError on a 2xx body that is no
    JSON. Otherwise its result is the object of the body with
    [created_at] set to the time of the call in ISO form, whatever
    [created_at] the body had, and with every other property as the
    body has it. *)
Theorem exchangeCodeForToken_outcome (code : string) (config : OAuthConfig)
    (log : list Exchange) :
  let request :=
    form_request
      ("grant_type=authorization_code&code=" +:+ form_encode code
       +:+ "&redirect_uri=" +:+ form_encode (redirectUri config)
       +:+ "&client_id=" +:+ form_encode (clientId config)
       +:+ "&client_secret=" +:+ form_encode (clientSecret config)) in
  let run := exchangeCodeForToken net now code config log in
  run.2 = log ++ [(request, net log request)]
  ∧ (∀ e, net log request = Throw e → run.1 = Throw e)
  ∧ ∀ response,
      net log request = Ok response →
      (ok response = false →
       run.1 = Throw (Error ("Token exchange failed: " +:+ responseText response)))
      ∧ (ok response = true → JSON.parse (responseText response) = None →
         run.1 = Throw SyntaxError)
      ∧ (ok response = true →
         ∀ tokenData,
           JSON.parse (responseText response) = Some tokenData →
           ∃ tokens,
             run.1 = Ok tokens
             ∧ get tokens "created_at" = Ok (VStr (Date_toISOString now))
             ∧ ∀ props key, tokenData = VObj props → key ≠ "created_at" →
                            get tokens key = get tokenData key).
Proof.
  cbv zeta.
  change (exchangeCodeForToken net now code config)
    with (token_call net now "Token exchange failed: "
            (URLSearchParams_toString
               [("grant_type", "authorization_code"); ("code", code);
                ("redirect_uri", redirectUri config); ("client_id", clientId config);
                ("client_secret", clientSecret config)])).
  rewrite token_call_run. cbn [fst snd].
  replace (URLSearchParams_toString _)
    with ("grant_type=authorization_code&code=" +:+ form_encode code
          +:+ "&redirect_uri=" +:+ form_encode (redirectUri config)
          +:+ "&client_id=" +:+ form_encode (clientId config)
          +:+ "&client_secret=" +:+ form_encode (clientSecret config)).
  - split; [reflexivity|]. apply token_outcome_spec.
  - unfold URLSearchParams_toString. cbn [map join fst snd].
    change (form_encode "grant_type") with "grant_type".
    change (form_encode "authorization_code") with "authorization_code".
    change (form_encode "code") with "code".
    change (form_encode "redirect_uri") with "redirect_uri".
    change (form_encode "client_id") with "client_id".
    change (form_encode "client_secret") with "client_secret".
    sapp. reflexivity.
Qed.

(** X10. [refreshAccessToken] likewise: one POST to the token URL with
    the four parameters of a refresh in its body; "Token refresh failed: "
    and the body on a status that is not 2xx; and the object of a 2xx
    body with [created_at] set anew. *)
Theorem refreshAccessToken_outcome (refreshToken : string) (config : OAuthConfig)
    (log : list Exchange) :
  let request :=
    form_request
      ("grant_type=refresh_token&refresh_token=" +:+ form_encode refreshToken
       +:+ "&client_id=" +:+ form_encode (clientId config)
       +:+ "&client_secret=" +:+ form_encode (clientSecret config)) in
  let run := refreshAccessToken net now refreshToken config log in
  run.2 = log ++ [(request, net log request)]
  ∧ (∀ e, net log request = Throw e → run.1 = Throw e)
  ∧ ∀ response,
      net log request = Ok response →
      (ok response = false →
       run.1 = Throw (Error ("Token refresh failed: " +:+ responseText response)))
      ∧ (ok response = true → JSON.parse (responseText response) = None →
         run.1 = Throw SyntaxError)
      ∧ (ok response = true →
         ∀ tokenData,
           JSON.parse (responseText response) = Some tokenData →
           ∃ tokens,
             run.1 = Ok tokens
             ∧ get tokens "created_at" = Ok (VStr (Date_toISOString now))
             ∧ ∀ props key, tokenData = VObj props → key ≠ "created_at" →
                            get tokens key = get tokenData key).
Proof.
  cbv zeta.
  change (refreshAccessToken net now refreshToken config)
    with (token_call net now "Token refresh failed: "
            (URLSearchParams_toString
               [("grant_type", "refresh_token"); ("refresh_token", refreshToken);
                ("client_id", clientId config); ("client_secret", clientSecret config)])).
  rewrite token_call_run. cbn [fst snd].
  replace (URLSearchParams_toString _)
    with ("grant_type=refresh_token&refresh_token=" +:+ form_encode refreshToken
          +:+ "&client_id=" +:+ form_encode (clientId config)
          +:+ "&client_secret=" +:+ form_encode (clientSecret config)).
  - split; [reflexivity|]. apply token_outcome_spec.
  - unfold URLSearchParams_toString. cbn [map join fst snd].
    change (form_encode "grant_type") with "grant_type".
    change (form_encode "refresh_token") with "refresh_token".
    change (form_encode "client_id") with "client_id".
    change (form_encode "client_secret") with "client_secret".
    sapp. reflexivity.
Qed.

End TokenFacts.
Lemma days_from_civil_from_days (days : Z) :
  let '(y, m, d) := civil_from_days days in
  days_from_civil y m d = days ∧ 1 <= m <= 12 ∧ 1 <= d <= days_in_month y m.
Proof.
  unfold civil_from_days, days_from_civil. cbv zeta.
  set (z := days + 719468).
  set (era := z / 146097).
  set (doe := z - era * 146097).
  assert (Hdoe : 0 <= doe < 146097) by (subst doe era; Z.div_mod_to_equations; lia).
  set (yoe := (doe - doe / 1460 + doe / 36524 - doe / 146096) / 365).
  set (doy := doe - (365 * yoe + yoe / 4 - yoe / 100)).
  assert (Hyoe : 0 <= yoe < 400
                 ∧ 0 <= doy
                 ∧ (doy <= 364
                    ∨ (doy = 365
                       ∧ (((yoe + 1) mod 4 = 0 ∧ (yoe + 1) mod 100 ≠ 0)
                          ∨ (yoe + 1) mod 400 = 0))))
    by (subst doy yoe; Z.div_mod_to_equations; lia).
  set (mp := (5 * doy + 2) / 153).
  assert (Hmp : 0 <= mp < 12) by (clearbody doy; subst mp; Z.div_mod_to_equations; lia).
  set (d := doy - (153 * mp + 2) / 5 + 1).
  assert (Hd : 1 <= d
               ∧ (mp = 11 → d <= 28 ∨ (d = 29 ∧ doy = 365))
               ∧ ((mp = 1 ∨ mp = 3 ∨ mp = 6 ∨ mp = 8) → d <= 30)
               ∧ d <= 31)
    by (clearbody doy; subst d mp; Z.div_mod_to_equations; lia).
  destruct (Z.ltb_spec mp 10) as [Hlt | Hge].
  - destruct (Z.leb_spec (mp + 3) 2) as [Hx | Hx]; [lia|].
    replace ((mp + 3 + 9) mod 12) with mp by (Z.div_mod_to_equations; lia).
    replace ((yoe + era * 400 + 0) / 400) with era by (Z.div_mod_to_equations; lia).
    replace (yoe + era * 400 + 0 - era * 400) with yoe by lia.
    split; [subst d mp doy doe z; Z.div_mod_to_equations; lia|]. split; [lia|].
    unfold days_in_month.
    destruct (Z.eqb_spec (mp + 3) 2); [lia|].
    destruct (Z.eqb_spec (mp + 3) 4), (Z.eqb_spec (mp + 3) 6), (Z.eqb_spec (mp + 3) 9),
      (Z.eqb_spec (mp + 3) 11); cbn [orb]; lia.
  - destruct (Z.leb_spec (mp - 9) 2) as [Hx | Hx]; [|lia].
    replace ((mp - 9 + 9) mod 12) with mp by (Z.div_mod_to_equations; lia).
    replace ((yoe + era * 400 + 1 - 1) / 400) with era by (Z.div_mod_to_equations; lia).
    replace (yoe + era * 400 + 1 - 1 - era * 400) with yoe by lia.
    split; [subst d mp doy doe z; Z.div_mod_to_equations; lia|]. split; [lia|].
    unfold days_in_month, is_leap.
    destruct (Z.eqb_spec (mp - 9) 2) as [Hfeb|Hjan].
    + replace ((yoe + era * 400 + 1) mod 4) with ((yoe + 1) mod 4)
        by (Z.div_mod_to_equations; lia).
      replace ((yoe + era * 400 + 1) mod 100) with ((yoe + 1) mod 100)
        by (Z.div_mod_to_equations; lia).
      replace ((yoe + era * 400 + 1) mod 400) with ((yoe + 1) mod 400)
        by (Z.div_mod_to_equations; lia).
      destruct (Z.eqb_spec ((yoe + 1) mod 4) 0), (Z.eqb_spec ((yoe + 1) mod 100) 0),
        (Z.eqb_spec ((yoe + 1) mod 400) 0); cbn [andb orb negb]; lia.
    + destruct (Z.eqb_spec (mp - 9) 4), (Z.eqb_spec (mp - 9) 6), (Z.eqb_spec (mp - 9) 9),
        (Z.eqb_spec (mp - 9) 11); cbn [orb]; lia.
Qed.
Lemma days_from_civil_year (y m d : Z) :
  1 <= m <= 12 → 1 <= d <= 31 →
  -719528 <= days_from_civil y m d < 2932897 → 0 <= y <= 9999.
Proof.
  unfold days_from_civil. cbv zeta. intros Hm Hd.
  destruct (Z.leb_spec m 2); Z.div_mod_to_equations; lia.
Qed.

Lemma digit_val_digit_char (a : Z) :
  0 <= a < 10 → digit_val (digit_char (Z.to_N a)) = Some a.
Proof.
  intros Ha.
  assert (Hcases : a = 0 ∨ a = 1 ∨ a = 2 ∨ a = 3 ∨ a = 4 ∨ a = 5 ∨ a = 6 ∨ a = 7
                   ∨ a = 8 ∨ a = 9) by lia.
  repeat destruct Hcases as [-> | Hcases]; try subst a; reflexivity.
Qed.

Lemma pad_2 (n : Z) :
  pad 2 n = String (digit_char (Z.to_N (n / 10 mod 10))) (String (digit_char (Z.to_N (n mod 10))) "").
Proof. reflexivity. Qed.

Lemma pad_3 (n : Z) :
  pad 3 n = String (digit_char (Z.to_N (n / 10 / 10 mod 10))) (pad 2 n).
Proof. reflexivity. Qed.

Lemma pad_4 (n : Z) :
  pad 4 n = String (digit_char (Z.to_N (n / 10 / 10 / 10 mod 10))) (pad 3 n).
Proof. reflexivity. Qed.

Lemma digits_val_2 (n : Z) :
  0 <= n < 100 →
  digits_val 0 [digit_char (Z.to_N (n / 10 mod 10)); digit_char (Z.to_N (n mod 10))] = Some n.
Proof.
  intros Hn. cbn [digits_val].
  rewrite !digit_val_digit_char by (Z.div_mod_to_equations; lia).
  f_equal. Z.div_mod_to_equations; lia.
Qed.

Lemma digits_val_3 (n : Z) :
  0 <= n < 1000 →
  digits_val 0 [digit_char (Z.to_N (n / 10 / 10 mod 10)); digit_char (Z.to_N (n / 10 mod 10));
                digit_char (Z.to_N (n mod 10))] = Some n.
Proof.
  intros Hn. cbn [digits_val].
  rewrite !digit_val_digit_char by (Z.div_mod_to_equations; lia).
  f_equal. Z.div_mod_to_equations; lia.
Qed.

Lemma digits_val_4 (n : Z) :
  0 <= n < 10000 →
  digits_val 0 [digit_char (Z.to_N (n / 10 / 10 / 10 mod 10));
                digit_char (Z.to_N (n / 10 / 10 mod 10)); digit_char (Z.to_N (n / 10 mod 10));
                digit_char (Z.to_N (n mod 10))] = Some n.
Proof.
  intros Hn. cbn [digits_val].
  rewrite !digit_val_digit_char by (Z.div_mod_to_equations; lia).
  f_equal. Z.div_mod_to_equations; lia.
Qed.

Lemma Date_parse_iso_text (y1 y2 y3 y4 m1 m2 a1 a2 h1 h2 n1 n2 s1 s2 f1 f2 f3 : ascii) :
  Date_parse_iso
    (String y1 (String y2 (String y3 (String y4 (String "-" (String m1 (String m2
       (String "-" (String a1 (String a2 (String "T" (String h1 (String h2 (String ":"
          (String n1 (String n2 (String ":" (String s1 (String s2 (String "."
             (String f1 (String f2 (String f3 "Z")))))))))))))))))))))))
  = match digits_val 0 [y1; y2; y3; y4], digits_val 0 [m1; m2], digits_val 0 [a1; a2],
          digits_val 0 [h1; h2], digits_val 0 [n1; n2], digits_val 0 [s1; s2],
          digits_val 0 [f1; f2; f3] with
    | Some y, Some m, Some d, Some hh, Some mm, Some ss, Some ms =>
        if (1 <=? m) && (m <=? 12) && (1 <=? d) && (d <=? days_in_month y m)
           && (hh <? 24) && (mm <? 60) && (ss <? 60)
        then Some ((((days_from_civil y m d * 24 + hh) * 60 + mm) * 60 + ss) * 1000 + ms)
        else None
    | _, _, _, _, _, _, _ => None
    end.
Proof. reflexivity. Qed.

(** The engine reads the time stamp it wrote, for the years that are
    written with four digits. *)
Lemma Date_parse_iso_toISOString (t : Z) :
  -62167219200000 <= t < 253402300800000 →
  Date_parse_iso (Date_toISOString t) = Some t.
Proof.
  intros Ht. unfold Date_toISOString.
  pose proof (days_from_civil_from_days (t / 86400000)) as Hcivil.
  destruct (civil_from_days (t / 86400000)) as [[y m] d].
  destruct Hcivil as (Hdays & Hm & Hd).
  assert (Hd31 : d <= 31).
  { unfold days_in_month in Hd.
    destruct (m =? 2); [destruct (is_leap y); lia|].
    destruct ((m =? 4) || (m =? 6) || (m =? 9) || (m =? 11)); lia. }
  assert (Hy : 0 <= y <= 9999).
  { apply (days_from_civil_year y m d); [lia | lia |].
    rewrite Hdays. Z.div_mod_to_equations; lia. }
  cbv zeta.
  replace ((0 <=? y) && (y <=? 9999)) with true by (symmetry; apply andb_true_iff; lia).
  set (ms := t mod 86400000).
  assert (Hms : 0 <= ms < 86400000) by (subst ms; Z.div_mod_to_equations; lia).
  rewrite pad_4, !pad_3, !pad_2. sapp. rewrite Date_parse_iso_text.
  rewrite digits_val_4 by lia.
  rewrite !digits_val_2 by (clear Hdays; Z.div_mod_to_equations; lia).
  rewrite digits_val_3 by (Z.div_mod_to_equations; lia).
  replace ((1 <=? m) && (m <=? 12) && (1 <=? d) && (d <=? days_in_month y m)
           && (ms / 3600000 <? 24) && (ms / 60000 mod 60 <? 60) && (ms / 1000 mod 60 <? 60))
    with true.
  - apply (f_equal Some). rewrite Hdays. subst ms. Z.div_mod_to_equations; lia.
  - symmetry. rewrite !andb_true_iff.
    repeat split; first [apply Z.leb_le | apply Z.ltb_lt]; try lia;
      Z.div_mod_to_equations; lia.
Qed.



Example Date_toISOString_examples :
  map Date_toISOString [0; -1; 1709210096789; 253402300799999]
  = ["1970-01-01T00:00:00.000Z"; "1969-12-31T23:59:59.999Z"; "2024-02-29T12:34:56.789Z";
     "9999-12-31T23:59:59.999Z"].
Proof. vm_compute. reflexivity. Qed.

(** ** Expiry in time *)

Section ExpiryInTime.

Variable Date_getTime : string → option Z.

(** X12. Expiry never reverts: a record that counts as expired, or as
    expiring soon, at one time does so at every later time. And a record
    whose [created_at] is no date never counts as either. *)
Theorem expiry_in_time (now later : Z) (t : OAuthTokens) :
  now <= later →
  (isTokenExpired Date_getTime now t = true → isTokenExpired Date_getTime later t = true)
  ∧ (isTokenExpiringSoon Date_getTime now t = true →
     isTokenExpiringSoon Date_getTime later t = true)
  ∧ (Date_getTime (created_at t) = None →
     isTokenExpired Date_getTime now t = false
     ∧ isTokenExpiringSoon Date_getTime now t = false).
Proof.
  intros Hlater. destruct (Date_getTime (created_at t)) as [createdAt|] eqn:Hcreated.
  - rewrite !(isTokenExpired_cases _ _ _ _ Hcreated),
      !(isTokenExpiringSoon_cases _ _ _ _ Hcreated).
    destruct (expires_in t) as [expiresIn|[| |]]; try easy.
    rewrite !Z.leb_le. repeat split; try discriminate; lia.
  - destruct (expiry_no_date Date_getTime now t Hcreated) as [-> ->].
    destruct (expiry_no_date Date_getTime later t Hcreated) as [-> ->]. easy.
Qed.

End ExpiryInTime.

Lemma expiry_in_time_witness :
  isTokenExpired Date_parse_iso 1704067200000 (hour_token "yesterday") = false
  ∧ isTokenExpiringSoon Date_parse_iso 1704067200000 (hour_token "yesterday") = false.
Proof.
  refine (proj2 (proj2 (expiry_in_time Date_parse_iso 1704067200000 1704067200001
                          (hour_token "yesterday") _)) eq_refl).
  lia.
Defined.

(** ** The callback listener: what resolves the promise *)

Lemma deliver_passing (expectedState : string) (st : Listener) (a : Z * Event) :
  waiting st → passing a → waiting (deliver expectedState st a).
Proof.
  intros (Hp & Ht & Hrun) [Hearly (url & Ha & Hpath)].
  unfold deliver, fire_due. rewrite Hrun, Ht, Ha.
  destruct (Z.leb_spec (5 * 60 * 1000) a.1); [lia|].
  cbn [onIncoming]. unfold onRequest. unfold is_callback in Hpath. rewrite Hpath.
  now repeat split.
Qed.

Lemma deliver_genuine (expectedState code : string) (st : Listener) (t : Z) (url : URL) :
  waiting st → t < 5 * 60 * 1000 → genuine expectedState code url →
  promise (deliver expectedState st (t, Incoming (Ok url))) = Resolved code.
Proof.
  intros (Hp & Ht & Hrun) Hearly (Hpath & Herror & Hstate & Hcode & Hne).
  unfold deliver, fire_due. cbn [fst snd]. rewrite Hrun, Ht.
  destruct (Z.leb_spec (5 * 60 * 1000) t); [lia|].
  cbn [onIncoming]. unfold onRequest. rewrite Hpath, Herror, Hstate, Hcode.
  change (String.eqb "/callback" "/callback") with true. cbv iota.
  rewrite bool_decide_eq_true_2 by reflexivity. cbn [negb nonempty default].
  destruct (String.eqb_spec code ""); [contradiction|]. cbn [negb].
  unfold resolve. cbn [promise server_close respond]. now rewrite Hp.
Qed.

(** What one arrival makes of a listener that waits: it goes on
    waiting, after a request to another path; or its promise is settled;
    or its process has ended with the promise pending, which then stays
    so. *)
Lemma deliver_waiting (expectedState : string) (st : Listener) (a : Z * Event) :
  waiting st →
  match promise (deliver expectedState st a) with
  | Pending => passing a ∨ uncaught (deliver expectedState st a) ≠ None
  | Resolved code =>
      a.1 < 5 * 60 * 1000 ∧ ∃ url, a.2 = Incoming (Ok url) ∧ genuine expectedState code url
  | Rejected _ => True
  end.
Proof.
  intros (Hp & Ht & Hrun). unfold deliver, fire_due. rewrite Hrun, Ht.
  destruct (Z.leb_spec (5 * 60 * 1000) a.1) as [Hlate | Hearly].
  - assert (Hfired : promise (onTimeout st) = Rejected (Error "Authorization timeout")).
    { unfold onTimeout. cbn [promise]. now apply reject_pending. }
    assert (Hsettled : promise (onTimeout st) ≠ Pending) by (rewrite Hfired; discriminate).
    destruct a.2 as [[url|e]|err].
    + cbn [onIncoming]. now rewrite (onRequest_settled _ _ _ Hsettled), Hfired.
    + cbn [onIncoming exit_uncaught promise]. now rewrite Hfired.
    + unfold onError. now rewrite (reject_settled _ _ Hsettled), Hfired.
  - destruct a.2 as [[url|e]|err] eqn:Ha.
    + cbn [onIncoming]. unfold onRequest.
      destruct (String.eqb_spec (pathname url) "/callback") as [Hpath | Hpath].
      * destruct (nonempty (searchParams_get "error" (searchParams url))) eqn:Herror;
          [now rewrite reject_pending|].
        destruct (decide (searchParams_get "state" (searchParams url) = Some expectedState))
          as [Hstate | Hstate].
        -- rewrite bool_decide_eq_true_2 by exact Hstate. cbn [negb].
           destruct (searchParams_get "code" (searchParams url)) as [code|] eqn:Hcode;
             cbn [nonempty negb]; [|now rewrite reject_pending].
           destruct (String.eqb_spec code "") as [->|Hne]; cbn [negb];
             [now rewrite reject_pending|].
           unfold resolve. cbn [promise server_close respond]. rewrite Hp. cbn [promise default].
           split; [exact Hearly|]. exists url. now repeat split.
        -- rewrite bool_decide_eq_false_2 by exact Hstate. cbn [negb].
           now rewrite reject_pending.
      * cbn [promise respond]. rewrite Hp. left. split; [exact Hearly|]. exists url.
        split; [exact Ha|]. unfold is_callback.
        now destruct (String.eqb_spec (pathname url) "/callback").
    + cbn [onIncoming exit_uncaught promise uncaught]. rewrite Hp. now right.
    + unfold onError. now rewrite reject_pending.
Qed.

(** Once the process has ended the state stays as it is. *)
Lemma fold_exited (expectedState : string) (arrivals : list (Z * Event)) (st : Listener) :
  uncaught st ≠ None → fold_left (deliver expectedState) arrivals st = st.
Proof.
  intros Hst. induction arrivals as [|a arrivals IH]; [reflexivity|].
  cbn [fold_left]. unfold deliver at 2. destruct (uncaught st) eqn:E; [exact IH|].
  now destruct Hst.
Qed.

Lemma run_exited (expectedState : string) (arrivals : list (Z * Event)) (st : Listener) :
  uncaught st ≠ None → idle (fold_left (deliver expectedState) arrivals st) = st.
Proof.
  intros Hst. rewrite fold_exited by exact Hst. unfold idle. now destruct (uncaught st).
Qed.

Lemma run_from_waiting (expectedState code : string) (arrivals : list (Z * Event)) :
  ∀ st, waiting st →
  (promise (idle (fold_left (deliver expectedState) arrivals st)) = Resolved code ↔
   ∃ before t url after,
     arrivals = before ++ (t, Incoming (Ok url)) :: after
     ∧ Forall passing before
     ∧ t < 5 * 60 * 1000
     ∧ genuine expectedState code url).
Proof.
  induction arrivals as [|a arrivals IH]; intros st Hst.
  - cbn [fold_left]. split.
    + destruct Hst as (Hp & Ht & Hrun). unfold idle. rewrite Hrun, Ht.
      unfold onTimeout. cbn [promise]. rewrite reject_pending by exact Hp. discriminate.
    + intros (before & t & url & after & H & _). now destruct before.
  - cbn [fold_left]. pose proof (deliver_waiting expectedState st a Hst) as Hcase.
    destruct (promise (deliver expectedState st a)) as [|code'|reason] eqn:Hp.
    + destruct (decide (uncaught (deliver expectedState st a) = None)) as [Hrun | Hexit].
      * (* the listener goes on waiting *)
        destruct Hcase as [Hcase | Hexit]; [|contradiction].
        pose proof (deliver_passing expectedState st a Hst Hcase) as Hnext.
        rewrite (IH _ Hnext). split.
        -- intros (before & t & url & after & -> & Hbefore & Ht & Hurl).
           exists (a :: before), t, url, after.
           split; [reflexivity|]. split; [now constructor|]. now split.
        -- intros (before & t & url & after & H & Hbefore & Ht & Hurl).
           destruct before as [|b before].
           ++ cbn [app] in H. injection H as -> ->.
              rewrite (deliver_genuine _ _ _ _ _ Hst Ht Hurl) in Hp. discriminate Hp.
           ++ cbn [app] in H. injection H as -> ->. inversion Hbefore; subst.
              exists before, t, url, after.
              split; [reflexivity|]. split; [assumption|]. now split.
      * (* the process has ended, with the promise pending *)
        rewrite (run_exited _ _ _ Hexit), Hp. split; [discriminate|].
        intros (before & t & url & after & H & Hbefore & Ht & Hurl).
        destruct before as [|b before].
        -- cbn [app] in H. injection H as ->.
           rewrite (deliver_genuine _ _ _ _ _ Hst Ht Hurl) in Hp. discriminate Hp.
        -- cbn [app] in H. injection H as -> ->. inversion Hbefore as [|? ? Hb ?]; subst.
           now destruct (deliver_passing expectedState st b Hst Hb) as (_ & _ & Hrun).
    + (* resolved by this arrival *)
      rewrite run_settled by (rewrite Hp; discriminate). rewrite Hp.
      destruct Hcase as [Ht (url & Ha & Hurl)]. split.
      * intros [= ->]. exists [], a.1, url, arrivals. cbn [app].
        split; [|split; [constructor | now split]].
        f_equal. destruct a as [t e]. cbn [fst snd] in *. now subst.
      * intros (before & t & url' & after & H & Hbefore & Ht' & Hurl').
        destruct before as [|b before].
        -- cbn [app] in H. injection H as -> ->.
           rewrite (deliver_genuine _ _ _ _ _ Hst Ht' Hurl') in Hp. exact (eq_sym Hp).
        -- cbn [app] in H. injection H as -> ->. inversion Hbefore as [|? ? Hb ?]; subst.
           pose proof (deliver_passing expectedState st b Hst Hb) as [Hpending _].
           congruence.
    + (* rejected by this arrival, or by the timer before it *)
      rewrite run_settled by (rewrite Hp; discriminate). rewrite Hp. split; [discriminate|].
      intros (before & t & url & after & H & Hbefore & Ht & Hurl).
      destruct before as [|b before].
      * cbn [app] in H. injection H as ->.
        rewrite (deliver_genuine _ _ _ _ _ Hst Ht Hurl) in Hp. discriminate Hp.
      * cbn [app] in H. injection H as -> ->. inversion Hbefore as [|? ? Hb ?]; subst.
        pose proof (deliver_passing expectedState st b Hst Hb) as [Hpending _].
        congruence.
Qed.

(** X13. The promise of the listener resolves with a code exactly when
    that code came, before the five minutes were over, with the first
    request that was not for another path, and this request carried the
    expected state and no error; every arrival before it was a request
    whose URL parsed, to another path. A code that comes with another
    state, or after a request that was refused, or after a request whose
    URL did not parse, or after the timeout, never resolves the
    promise. *)
Theorem listener_resolves (expectedState code : string) (arrivals : list (Z * Event)) :
  promise (run_listener expectedState arrivals) = Resolved code ↔
  ∃ before t url after,
    arrivals = before ++ (t, Incoming (Ok url)) :: after
    ∧ Forall passing before
    ∧ t < 5 * 60 * 1000
    ∧ genuine expectedState code url.
Proof. unfold run_listener. apply run_from_waiting. now repeat split. Qed.

Example listener_resolves_after_favicon :
  promise (run_listener "s3cret"
             [(500, Incoming (Ok favicon_request)); (1000, Incoming (Ok genuine_callback));
              (2000, Incoming (Ok forged_callback))])
  = Resolved "abc".
Proof. reflexivity. Qed.

Example listener_rejects_forged_first :
  promise (run_listener "s3cret"
             [(1000, Incoming (Ok forged_callback)); (2000, Incoming (Ok genuine_callback))])
  = Rejected (Error "Invalid state parameter").
Proof. reflexivity. Qed.

Example listener_rejects_late_callback :
  promise (run_listener "s3cret" [(300000, Incoming (Ok genuine_callback))])
  = Rejected (Error "Authorization timeout").
Proof. reflexivity. Qed.

(** ** The callback listener: its replies *)

Lemma replies_reject (reason : JsError) (st : Listener) :
  replies (reject reason st) = replies st.
Proof. apply reject_fields. Qed.

Lemma replies_resolve (code : string) (st : Listener) :
  replies (resolve code st) = replies st.
Proof. apply resolve_fields. Qed.

Lemma replies_onTimeout (st : Listener) : replies (onTimeout st) = replies st.
Proof. unfold onTimeout. cbn [replies]. now rewrite replies_reject. Qed.

Lemma replies_fire_due (now : Z) (st : Listener) : replies (fire_due now st) = replies st.
Proof.
  unfold fire_due. destruct (timer st) as [due|]; [|reflexivity].
  destruct (due <=? now); [apply replies_onTimeout | reflexivity].
Qed.

(** A request gets one reply, and status 200 only if it is a redirect
    with the expected state, a code and no error. *)
Lemma replies_onRequest (expectedState : string) (url : URL) (st : Listener) :
  ∃ reply,
    replies (onRequest expectedState url st) = replies st ++ [reply]
    ∧ (reply_status reply = 200 → ∃ code, genuine expectedState code url).
Proof.
  unfold onRequest.
  destruct (String.eqb_spec (pathname url) "/callback") as [Hpath|_];
    [|eexists; split; [reflexivity | discriminate]].
  destruct (nonempty (searchParams_get "error" (searchParams url))) eqn:Herror;
    [rewrite replies_reject; eexists; split; [reflexivity | discriminate]|].
  destruct (decide (searchParams_get "state" (searchParams url) = Some expectedState))
    as [Hstate | Hstate].
  - rewrite bool_decide_eq_true_2 by exact Hstate. cbn [negb].
    destruct (searchParams_get "code" (searchParams url)) as [code|] eqn:Hcode;
      cbn [nonempty negb];
      [|rewrite replies_reject; eexists; split; [reflexivity | discriminate]].
    destruct (String.eqb_spec code "") as [->|Hne]; cbn [negb];
      [rewrite replies_reject; eexists; split; [reflexivity | discriminate]|].
    rewrite replies_resolve. eexists. split; [reflexivity|]. intros _.
    exists code. now repeat split.
  - rewrite bool_decide_eq_false_2 by exact Hstate. cbn [negb].
    rewrite replies_reject. eexists. split; [reflexivity | discriminate].
Qed.

Lemma replies_fold (expectedState : string) (arrivals : list (Z * Event)) :
  ∀ st, uncaught st = None →
  ∃ new,
    replies (fold_left (deliver expectedState) arrivals st) = replies st ++ new
    ∧ length new = length (List.filter is_request (handled arrivals))
    ∧ ∀ reply, reply ∈ new → reply_status reply = 200 →
               ∃ t url code,
                 (t, Incoming (Ok url)) ∈ arrivals ∧ genuine expectedState code url.
Proof.
  induction arrivals as [|a arrivals IH]; intros st Hrun.
  - exists []. cbn [fold_left]. rewrite app_nil_r. split; [reflexivity|].
    split; [reflexivity|]. intros reply H. now apply elem_of_nil in H.
  - cbn [fold_left handled].
    assert (Hfire : uncaught (fire_due a.1 st) = None).
    { unfold fire_due. destruct (timer st) as [due|]; [|exact Hrun].
      destruct (due <=? a.1); [|exact Hrun]. unfold onTimeout. cbn [uncaught].
      now rewrite (proj2 (proj2 (proj2 (proj2 (reject_fields _ _))))). }
    destruct a as [t [[url|e]|err]]; unfold deliver at 2, parses; cbn [fst snd] in *;
      rewrite Hrun.
    + cbn [onIncoming].
      destruct (IH (onRequest expectedState url (fire_due t st)))
        as (new & -> & Hlen & Hok); [now rewrite onRequest_uncaught|].
      destruct (replies_onRequest expectedState url (fire_due t st)) as (reply & -> & Hreply).
      rewrite replies_fire_due, <- app_assoc. exists (reply :: new).
      split; [reflexivity|]. split.
      * cbn [List.filter is_request snd length]. now rewrite Hlen.
      * intros r [-> | Hr]%elem_of_cons H200.
        -- destruct (Hreply H200) as [code Hcode]. exists t, url, code.
           split; [apply elem_of_cons; now left | exact Hcode].
        -- destruct (Hok r Hr H200) as (t' & url' & code & Hin & Hcode).
           exists t', url', code. split; [apply elem_of_cons; now right | exact Hcode].
    + cbn [onIncoming]. exists [].
      rewrite fold_exited by discriminate. cbn [replies exit_uncaught].
      rewrite replies_fire_due, app_nil_r. split; [reflexivity|]. split; [reflexivity|].
      intros reply H. now apply elem_of_nil in H.
    + destruct (IH (onError err (fire_due t st))) as (new & -> & Hlen & Hok).
      { unfold onError. now rewrite (proj2 (proj2 (proj2 (proj2 (reject_fields _ _))))). }
      unfold onError. rewrite replies_reject, replies_fire_due. exists new.
      split; [reflexivity|]. split; [exact Hlen|].
      intros r Hr H200. destruct (Hok r Hr H200) as (t' & url' & code & Hin & Hcode).
      exists t', url', code. split; [apply elem_of_cons; now right | exact Hcode].
Qed.

(** X14. The listener answers every request that reaches its handler
    with a URL that parses, once, whether its promise is settled or not;
    and it answers with status 200 only a redirect that carries the
    expected state, a code and no error. A request whose URL does not
    parse, and whatever comes after it, gets no answer. *)
Theorem listener_replies (expectedState : string) (arrivals : list (Z * Event)) :
  length (replies (run_listener expectedState arrivals))
  = length (List.filter is_request (handled arrivals))
  ∧ (∀ reply,
       reply ∈ replies (run_listener expectedState arrivals) →
       reply_status reply = 200 →
       ∃ t url code, (t, Incoming (Ok url)) ∈ arrivals ∧ genuine expectedState code url)
  ∧ (Forall (λ a, parses a = true) arrivals → handled arrivals = arrivals).
Proof.
  unfold run_listener.
  destruct (replies_fold expectedState arrivals startCallbackServer eq_refl)
    as (new & Hnew & Hlen & Hok).
  assert (Hidle : ∀ st, replies (idle st) = replies st).
  { intros st. unfold idle. destruct (uncaught st); [reflexivity|].
    destruct (timer st); [apply replies_onTimeout | reflexivity]. }
  rewrite Hidle, Hnew. cbn [replies startCallbackServer app].
  split; [exact Hlen|]. split; [exact Hok|]. clear.
  induction 1 as [|a l Ha _ IH]; [reflexivity|]. cbn [handled]. now rewrite Ha, IH.
Qed.

Example listener_replies_until_double_slash :
  map reply_status
    (replies (run_listener "s3cret"
                [(100, Incoming (Ok favicon_request)); (500, double_slash_request);
                 (1000, Incoming (Ok genuine_callback))]))
  = [404].
Proof. reflexivity. Qed.


(** ** The API client: listing, deleting, and where the token goes *)

Lemma prefix_sapp (a b : string) : String.prefix a (a +:+ b) = true.
Proof.
  induction a as [|c a IH]; [now destruct b|]. rewrite sapp_cons. cbn [String.prefix].
  now destruct (ascii_dec c c).
Qed.

Lemma request_of_to_api (this : LinkedInClient) (endpoint : string) (options : RequestInit) :
  startsWith endpoint "http" = false → to_api (request_of this endpoint options) = true.
Proof.
  intros H. unfold to_api, request_of. cbn [url]. rewrite H. apply prefix_sapp.
Qed.

Lemma request_of_bearer (this : LinkedInClient) (endpoint : string) (options : RequestInit) :
  bearer this (request_of this endpoint options) = true.
Proof. apply bool_decide_eq_true_2. unfold request_of. cbn [headers]. now left. Qed.

Lemma slash_not_http (rest : string) : startsWith (String "/" rest) "http" = false.
Proof. reflexivity. Qed.

Lemma uri_safe_sapp (a b : string) : uri_safe (a +:+ b) = uri_safe a && uri_safe b.
Proof.
  induction a as [|c a IH]; [reflexivity|]. rewrite sapp_cons. cbn [uri_safe].
  now rewrite IH, andb_assoc.
Qed.

Lemma uri_safe_bytes (s : string) : uri_safe (uri_bytes s) = true.
Proof.
  induction s as [|c s IH]; [reflexivity|]. cbn [uri_bytes]. rewrite uri_safe_sapp, IH.
  rewrite andb_true_r. clear. each_ascii c; reflexivity.
Qed.

Section ClientMoreFacts.

Variable net : Network.

Lemma request_answer (this : LinkedInClient) (endpoint : string) (options : RequestInit)
    (log : list Exchange) :
  request net this endpoint options log
  = (answer_outcome (net log (request_of this endpoint options)),
     log ++ [(request_of this endpoint options, net log (request_of this endpoint options))]).
Proof. apply request_run. Qed.

Lemma listing_run (this : LinkedInClient) (endpoint : string) (log : list Exchange) :
  (response ← request net this endpoint no_init;
   elements ← lift (get response "elements");
   mret (js_or elements (VArr []))) log
  = (match answer_outcome (net log (request_of this endpoint no_init)) with
     | Ok response => elements_of response
     | Throw e => Throw e
     end,
     log ++ [(request_of this endpoint no_init, net log (request_of this endpoint no_init))]).
Proof.
  rewrite bind_run, request_answer.
  destruct (answer_outcome _) as [response|e]; [|reflexivity].
  rewrite lift_run. unfold elements_of. now destruct (get response "elements").
Qed.

Lemma elements_of_truthy (response result : jsval) :
  elements_of response = Ok result → truthy result = true.
Proof.
  unfold elements_of. destruct (get response "elements") as [elements|]; [|discriminate].
  intros [= <-]. unfold js_or. now destruct (truthy elements) eqn:E.
Qed.

Lemma elements_of_spec (response : jsval) :
  (response = VNull → elements_of response = Throw TypeError)
  ∧ (∀ props, response = VObj props →
       elements_of response
       = Ok (match assoc_get "elements" props with
             | Some elements => if truthy elements then elements else VArr []
             | None => VArr []
             end)).
Proof.
  split; [now intros ->|]. intros props ->. unfold elements_of, js_or. cbn [get].
  now destruct (assoc_get "elements" props).
Qed.

(** X15. [getOrganizations] makes one request, a GET to the API with the
    token. Its result is never a falsy value: it is the [elements] of
    the answer if they are there and truthy, and the empty array
    otherwise, as on a 2xx answer with an empty body; it fails when the
    request fails, and with a TypeError on a body that is the JSON text
    [null]. *)
Theorem getOrganizations_result (this : LinkedInClient) (log : list Exchange) :
  ∃ request answer,
    (getOrganizations net this log).2 = log ++ [(request, answer)]
    ∧ answer = net log request
    ∧ method request = None ∧ body request = None
    ∧ to_api request = true ∧ bearer this request = true
    ∧ (∀ e, answer_outcome answer = Throw e → (getOrganizations net this log).1 = Throw e)
    ∧ (∀ result, (getOrganizations net this log).1 = Ok result → truthy result = true)
    ∧ (answer_outcome answer = Ok VNull →
       (getOrganizations net this log).1 = Throw TypeError)
    ∧ (∀ props,
         answer_outcome answer = Ok (VObj props) →
         (getOrganizations net this log).1
         = Ok (match assoc_get "elements" props with
               | Some elements => if truthy elements then elements else VArr []
               | None => VArr []
               end))
    ∧ (∀ response,
         answer = Ok response → ok response = true → responseText response = "" →
         (getOrganizations net this log).1 = Ok (VArr [])).
Proof.
  unfold getOrganizations. rewrite listing_run. cbn [fst snd].
  eexists _, _. split; [reflexivity|]. split; [reflexivity|].
  split; [reflexivity|]. split; [reflexivity|].
  split; [now apply request_of_to_api|]. split; [apply request_of_bearer|].
  set (answer := net log _).
  split; [now intros e ->|]. split; [|split; [|split]].
  - intros result. destruct (answer_outcome answer) as [response|e]; [|discriminate].
    apply elements_of_truthy.
  - now intros ->.
  - intros props ->. now apply elements_of_spec.
  - intros response -> Hok Hempty. unfold answer_outcome, outcome_of.
    now rewrite Hok, Hempty.
Qed.

(** X16. [getPosts] asks for the identity first. If that fails, or if
    the member URN cannot be encoded, it makes no other request.
    Otherwise it makes one more, a GET to the posts of the author, whose
    URN is written with unreserved characters and percent escapes alone,
    so that nothing in the profile can add a parameter to the query, and
    with the count that was asked for, or ten. Its result is read like
    that of [getOrganizations]. *)
Theorem getPosts_run (this : LinkedInClient) (count : option Z) (log : list Exchange) :
  ∃ identity log1,
    getMemberUrn net this log = (identity, log1)
    ∧ (∀ e, identity = Throw e → getPosts net this count log = (Throw e, log1))
    ∧ ∀ authorUrn,
        identity = Ok authorUrn →
        (has_lone_surrogate authorUrn = true →
         getPosts net this count log = (Throw (Error "URI malformed"), log1))
        ∧ (has_lone_surrogate authorUrn = false →
           ∃ encodedUrn request,
             encodeURIComponent authorUrn = Ok encodedUrn
             ∧ uri_safe encodedUrn = true
             ∧ request
               = request_of this
                   ("/ugcPosts?q=authors&authors=List(" +:+ encodedUrn +:+ ")&count="
                    +:+ Number_toString (default 10 count)) no_init
             ∧ to_api request = true
             ∧ getPosts net this count log
               = (match answer_outcome (net log1 request) with
                  | Ok response => elements_of response
                  | Throw e => Throw e
                  end,
                  log1 ++ [(request, net log1 request)])).
Proof.
  destruct (getMemberUrn net this log) as [identity log1] eqn:Hid.
  exists identity, log1. split; [reflexivity|].
  unfold getPosts. rewrite bind_run, Hid.
  split; [now intros e ->|]. intros authorUrn ->.
  rewrite lift_run. unfold encodeURIComponent.
  split; intros Hs; rewrite Hs; [reflexivity|].
  eexists _, _. split; [reflexivity|]. split; [apply uri_safe_bytes|].
  split; [reflexivity|]. split; [now apply request_of_to_api|].
  apply listing_run.
Qed.

(** X17. [deletePost] makes one request: a DELETE to the posts of the
    API with the post id after the slash as it was given, whatever it
    holds. It succeeds exactly when the answer is 2xx with a body that
    is empty or JSON. *)
Theorem deletePost_outcome (this : LinkedInClient) (postId : string) (log : list Exchange) :
  ∃ request answer,
    (deletePost net this postId log).2 = log ++ [(request, answer)]
    ∧ answer = net log request
    ∧ url request = "https://api.linkedin.com/v2/ugcPosts/" +:+ postId
    ∧ method request = Some "DELETE" ∧ body request = None
    ∧ bearer this request = true
    ∧ ((deletePost net this postId log).1 = Ok tt ↔
       ∃ response,
         answer = Ok response ∧ ok response = true
         ∧ (responseText response = "" ∨ JSON.parse (responseText response) ≠ None)).
Proof.
  unfold deletePost. rewrite bind_run, request_answer.
  eexists _, _. split.
  { destruct (answer_outcome _); reflexivity. }
  split; [reflexivity|]. split.
  { unfold request_of, API_BASE. cbn [url]. rewrite sapp_cons.
    rewrite slash_not_http. sapp. reflexivity. }
  split; [reflexivity|]. split; [reflexivity|]. split; [apply request_of_bearer|].
  set (answer := net log _). split.
  - destruct answer as [response|e]; cbn [answer_outcome]; [|discriminate].
    unfold outcome_of. intros H. exists response. split; [reflexivity|].
    destruct (ok response); cbn [negb] in H.
    + split; [reflexivity|].
      destruct (String.eqb_spec (responseText response) ""); [now left | right].
      now destruct (JSON.parse (responseText response)).
    + destruct (get _ "message"); [|discriminate H].
      destruct (ToString _); discriminate H.
  - intros (response & -> & Hok & Hbody). cbn [answer_outcome]. unfold outcome_of.
    rewrite Hok. cbn [negb].
    destruct (String.eqb_spec (responseText response) ""); [reflexivity|].
    destruct Hbody as [Hbody | Hbody]; [contradiction|].
    now destruct (JSON.parse (responseText response)).
Qed.

(** X18. [getMemberUrn] makes one request, for the identity of the
    member, and puts its [sub] after "urn:li:person:". A profile without
    [sub], as the one of an empty body, does not make it fail: the URN
    then ends in "undefined". *)
Theorem getMemberUrn_urn (this : LinkedInClient) (log : list Exchange) :
  ∃ answer,
    answer = net log (request_of this USERINFO_URL no_init)
    ∧ (getMemberUrn net this log).2 = log ++ [(request_of this USERINFO_URL no_init, answer)]
    ∧ (∀ e, answer_outcome answer = Throw e → (getMemberUrn net this log).1 = Throw e)
    ∧ (answer_outcome answer = Ok VNull → (getMemberUrn net this log).1 = Throw TypeError)
    ∧ ∀ props,
        answer_outcome answer = Ok (VObj props) →
        (∀ sub, assoc_get "sub" props = Some (VStr sub) →
                (getMemberUrn net this log).1 = Ok ("urn:li:person:" +:+ sub))
        ∧ (∀ n, assoc_get "sub" props = Some (VNum n) →
                (getMemberUrn net this log).1 = Ok ("urn:li:person:" +:+ Number_toString n))
        ∧ (assoc_get "sub" props = None →
           (getMemberUrn net this log).1 = Ok "urn:li:person:undefined").
Proof.
  eexists. split; [reflexivity|].
  unfold getMemberUrn, getProfile. rewrite bind_run, request_answer.
  set (answer := net log _). split.
  { destruct (answer_outcome answer) as [profile|]; [|reflexivity].
    rewrite lift_run. destruct (get profile "sub") as [sub|]; [|reflexivity].
    rewrite lift_run. now destruct (ToString sub). }
  split; [now intros e ->|]. split; [now intros ->|].
  intros props ->. rewrite lift_run. cbn [get].
  split; [|split]; [intros sub -> | intros n -> | intros ->]; reflexivity.
Qed.

(** X19. Where the token goes, for the calls that send no image: every
    request of [getProfile], [getMemberUrn], [createPost],
    [createOrganizationPost], [getPosts], [getOrganizations] and
    [deletePost] goes to the API, with the token of the client. *)
Theorem requests_to_api (this : LinkedInClient) (log : list Exchange) :
  confined this log (getProfile net this log)
  ∧ confined this log (getMemberUrn net this log)
  ∧ (∀ options, confined this log (createPost net this options log))
  ∧ (∀ organizationId options,
       confined this log (createOrganizationPost net this organizationId options log))
  ∧ (∀ count, confined this log (getPosts net this count log))
  ∧ confined this log (getOrganizations net this log)
  ∧ (∀ postId, confined this log (deletePost net this postId log)).
Proof.
  unfold confined.
  assert (Hone : ∀ endpoint options l,
             startsWith endpoint "http" = false ∨ endpoint = USERINFO_URL →
             Forall (λ e : Exchange, to_api e.1 = true ∧ bearer this e.1 = true)
               [(request_of this endpoint options, net l (request_of this endpoint options))]).
  { intros endpoint options l H. repeat constructor; cbn [fst].
    - destruct H as [H | ->]; [now apply request_of_to_api | reflexivity].
    - apply request_of_bearer. }
  assert (Hid : ∃ answer,
             getMemberUrn net this log
             = (answer, log ++ [(request_of this USERINFO_URL no_init,
                                 net log (request_of this USERINFO_URL no_init))])).
  { unfold getMemberUrn, getProfile. rewrite bind_run, request_answer.
    destruct (answer_outcome _) as [profile|]; [|eauto].
    rewrite lift_run. destruct (get profile "sub") as [sub|]; [|eauto].
    rewrite lift_run. destruct (ToString sub); eauto. }
  destruct Hid as [identity Hid].
  split; [|split; [|split; [|split; [|split; [|split]]]]].
  - unfold getProfile. rewrite request_answer. eexists. split; [reflexivity|].
    apply Hone. now right.
  - rewrite Hid. eexists. split; [reflexivity|]. apply Hone. now right.
  - intros options. unfold createPost. rewrite bind_run, Hid.
    destruct identity as [authorUrn|]; [|eexists; split; [reflexivity | apply Hone; now right]].
    rewrite request_answer. cbn [snd]. rewrite <- app_assoc. eexists. split; [reflexivity|].
    apply Forall_app. split; apply Hone; [now right | now left].
  - intros organizationId options. unfold createOrganizationPost. rewrite request_answer.
    eexists. split; [reflexivity|]. apply Hone. now left.
  - intros count. unfold getPosts. rewrite bind_run, Hid.
    destruct identity as [authorUrn|]; [|eexists; split; [reflexivity | apply Hone; now right]].
    rewrite lift_run.
    destruct (encodeURIComponent authorUrn) as [encodedUrn|];
      [|eexists; split; [reflexivity | apply Hone; now right]].
    rewrite listing_run. cbn [snd]. rewrite <- app_assoc. eexists. split; [reflexivity|].
    apply Forall_app. split; apply Hone; [now right | now left].
  - unfold getOrganizations. rewrite listing_run. eexists. split; [reflexivity|].
    apply Hone. now left.
  - intros postId. unfold deletePost. rewrite bind_run, request_answer.
    exists [(request_of this ("/ugcPosts/" +:+ postId) DELETE,
             net log (request_of this ("/ugcPosts/" +:+ postId) DELETE))].
    split; [now destruct (answer_outcome _)|]. apply Hone. left. now rewrite sapp_cons.
Qed.

End ClientMoreFacts.

(** ** Image posts: where the token goes, and what is published *)

Section ImagePostFacts.

Variable net : Network.
Variable existsSync : string → bool.
Variable readFileSync : string → Result string.
Variable HOME : option string.
Variable path_join : string → string → string.

(** The run ends here with the exchanges [new], all of them allowed. *)
Ltac confine new :=
  exists new;
  split; [cbn [snd]; rewrite <- ?app_assoc; reflexivity|];
  repeat (apply Forall_cons_2;
          [ cbn [fst];
            first
              [ left; split; [apply request_of_to_api; reflexivity | apply request_of_bearer]
              | right; left; split; [assumption | reflexivity]
              | right; right; eexists _, _; reflexivity ] |]);
  apply Forall_nil_2.

Lemma upload_steps_requests (this : LinkedInClient) (ownerUrn : string)
    (options : CreatePostOptions) (imageUrl : string) (log : list Exchange) :
  ∃ new,
    (upload_steps net existsSync readFileSync HOME path_join this ownerUrn options imageUrl
       log).2 = log ++ new
    ∧ Forall (λ e : Exchange, image_request this imageUrl e.1) new.
Proof.
  unfold upload_steps, registerImageUpload.
  rewrite bind_run, request_answer.
  match goal with
  | |- context [answer_outcome (net log ?req)] => set (reg := (req, net log req)) in *
  end.
  assert (Hstop : ∃ new, log ++ [reg] = log ++ new
                         ∧ Forall (λ e : Exchange, image_request this imageUrl e.1) new)
    by (confine [reg]).
  destruct (answer_outcome _) as [registerResponse|e]; [|exact Hstop].
  repeat (rewrite lift_run; cbv beta iota;
          try match goal with
            | |- context [match ?x with Ok _ => _ | Throw _ => _ end] =>
                destruct x; [|exact Hstop]
            end).
  clear Hstop. unfold getImageBuffer. fold (image_file HOME path_join imageUrl).
  destruct (isLocalPath imageUrl) eqn:Elocal.
  - destruct (existsSync (image_file HOME path_join imageUrl)); cbn [negb];
      [|confine [reg]].
    rewrite lift_run.
    destruct (readFileSync (image_file HOME path_join imageUrl)) as [imageBuffer|e];
      [|confine [reg]].
    rewrite lift_run. destruct (ToString _) as [target|e]; [|confine [reg]].
    rewrite fetch_run. fold (upload_request this target imageBuffer).
    destruct (net (log ++ [reg]) (upload_request this target imageBuffer))
      as [uploadResponse|e] eqn:Enet;
      [|confine [reg; (upload_request this target imageBuffer, @Throw Response e)]].
    destruct (ok uploadResponse); cbn [negb];
      [|confine [reg; (upload_request this target imageBuffer, Ok uploadResponse)]].
    rewrite request_answer.
    match goal with
    | |- context [answer_outcome (net ?l ?req)] =>
        confine [reg; (upload_request this target imageBuffer, Ok uploadResponse);
                 (req, net l req)]
    end.
  - rewrite bind_run, fetch_run. fold (source_request imageUrl).
    destruct (net (log ++ [reg]) (source_request imageUrl)) as [response|e] eqn:Esrc;
      [|confine [reg; (source_request imageUrl, @Throw Response e)]].
    destruct (ok response); cbn [negb];
      [|confine [reg; (source_request imageUrl, Ok response)]].
    unfold mret, Call_ret. cbv iota beta.
    rewrite lift_run. destruct (ToString _) as [target|e];
      [|confine [reg; (source_request imageUrl, Ok response)]].
    rewrite fetch_run. fold (upload_request this target (responseText response)).
    destruct (net _ (upload_request this target (responseText response)))
      as [uploadResponse|e] eqn:Enet;
      [|confine [reg; (source_request imageUrl, Ok response);
                 (upload_request this target (responseText response), @Throw Response e)]].
    destruct (ok uploadResponse); cbn [negb];
      [|confine [reg; (source_request imageUrl, Ok response);
                 (upload_request this target (responseText response), Ok uploadResponse)]].
    rewrite request_answer.
    match goal with
    | |- context [answer_outcome (net ?l ?req)] =>
        confine [reg; (source_request imageUrl, Ok response);
                 (upload_request this target (responseText response), Ok uploadResponse);
                 (req, net l req)]
    end.
Qed.

(** X20. Where the token goes in an image post: every request of
    [createImagePost] and [createOrganizationImagePost] is a request to
    the API with the token, or the PUT of the image bytes to an upload
    URL, or, for an image that is no local file, the fetch of the image
    from its URL. That fetch carries no header: the host of the image
    does not get the token. *)
Theorem image_requests_confined (this : LinkedInClient) (organizationId : string)
    (options : CreatePostOptions) (imageUrl : string) (log : list Exchange) :
  (∃ new,
      (createImagePost net existsSync readFileSync HOME path_join this options imageUrl
         log).2 = log ++ new
      ∧ Forall (λ e : Exchange, image_request this imageUrl e.1) new)
  ∧ (∃ new,
        (createOrganizationImagePost net existsSync readFileSync HOME path_join this
           organizationId options imageUrl log).2 = log ++ new
        ∧ Forall (λ e : Exchange, image_request this imageUrl e.1) new)
  ∧ headers (source_request imageUrl) = [].
Proof.
  split; [|split; [|reflexivity]].
  - rewrite createImagePost_steps, bind_run.
    destruct (getMemberUrn_result net this log) as (identity & -> & _).
    assert (Hid : image_request this imageUrl (request_of this USERINFO_URL no_init)).
    { left. split; [reflexivity | apply request_of_bearer]. }
    destruct identity as [authorUrn|e].
    + destruct (upload_steps_requests this authorUrn options imageUrl
                  (log ++ [(request_of this USERINFO_URL no_init,
                            net log (request_of this USERINFO_URL no_init))]))
        as (new & -> & Hnew).
      eexists. split; [rewrite <- app_assoc; reflexivity|].
      now apply Forall_cons_2.
    + eexists. split; [reflexivity|]. apply Forall_cons_2; [exact Hid | apply Forall_nil_2].
  - rewrite createOrganizationImagePost_steps. apply upload_steps_requests.
Qed.

Lemma answer_outcome_Ok (answer : Result Response) (v : jsval) :
  answer_outcome answer = Ok v → ∃ response, answer = Ok response ∧ outcome_of response = Ok v.
Proof. destruct answer as [response|]; [eauto | discriminate]. Qed.

Lemma upload_steps_flow (this : LinkedInClient) (ownerUrn : string)
    (options : CreatePostOptions) (imageUrl : string) (log log' : list Exchange)
    (result : jsval) :
  upload_steps net existsSync readFileSync HOME path_join this ownerUrn options imageUrl log
  = (Ok result, log') →
  ∃ new, log' = log ++ new
         ∧ image_flow readFileSync HOME path_join this ownerUrn options imageUrl new result.
Proof.
  unfold upload_steps, registerImageUpload.
  rewrite bind_run, request_answer. fold (register_request this ownerUrn).
  destruct (answer_outcome (net log (register_request this ownerUrn)))
    as [registerResponse|] eqn:Hreg; [|discriminate].
  apply answer_outcome_Ok in Hreg as (registered & Hnet & Hregistered). rewrite Hnet.
  rewrite lift_run. destruct (get registerResponse "value") as [value|] eqn:Hvalue;
    [|discriminate].
  rewrite lift_run. destruct (get value "uploadMechanism") as [mechanism|] eqn:Hmechanism;
    [|discriminate].
  rewrite lift_run.
  destruct (get mechanism "com.linkedin.digitalmedia.uploading.MediaUploadHttpRequest")
    as [httpRequest|] eqn:Hhttp; [|discriminate].
  rewrite lift_run. destruct (get httpRequest "uploadUrl") as [uploadUrl|] eqn:Hurl;
    [|discriminate].
  rewrite lift_run, lift_run. destruct (get value "asset") as [asset|] eqn:Hasset;
    [|discriminate].
  destruct (stringify_defined 0 (image_payload ownerUrn options asset)) as [data Hdata];
    [discriminate|].
  rewrite Hdata.
  assert (Hnames : ∀ target, ToString uploadUrl = Ok target →
                             registration_names registerResponse target asset).
  { intros target Htarget. exists value, mechanism, httpRequest, uploadUrl. now repeat split. }
  unfold getImageBuffer. fold (image_file HOME path_join imageUrl).
  destruct (isLocalPath imageUrl) eqn:Elocal.
  - destruct (existsSync (image_file HOME path_join imageUrl)); cbn [negb]; [|discriminate].
    rewrite lift_run.
    destruct (readFileSync (image_file HOME path_join imageUrl)) as [imageBuffer|] eqn:Hread;
      [|discriminate].
    rewrite lift_run. destruct (ToString uploadUrl) as [target|] eqn:Htarget; [|discriminate].
    rewrite fetch_run. fold (upload_request this target imageBuffer).
    destruct (net _ (upload_request this target imageBuffer)) as [uploaded|] eqn:Hput;
      [|discriminate].
    destruct (ok uploaded) eqn:Hok; cbn [negb]; [|discriminate].
    rewrite request_answer, request_of_publish.
    intros [= Hresult <-].
    apply answer_outcome_Ok in Hresult as (published & Hnet' & Hpublished). rewrite Hnet'.
    eexists. split; [rewrite <- !app_assoc; reflexivity|].
    exists registered, registerResponse, target, asset, [], imageBuffer, uploaded, data,
      published.
    rewrite Elocal. repeat split; try assumption; try reflexivity. now apply Hnames.
  - rewrite bind_run, fetch_run. fold (source_request imageUrl).
    destruct (net _ (source_request imageUrl)) as [response|] eqn:Hsrc; [|discriminate].
    destruct (ok response) eqn:Hfetched; cbn [negb]; [|discriminate].
    unfold mret, Call_ret. cbv iota beta.
    rewrite lift_run. destruct (ToString uploadUrl) as [target|] eqn:Htarget; [|discriminate].
    rewrite fetch_run. fold (upload_request this target (responseText response)).
    destruct (net _ (upload_request this target (responseText response)))
      as [uploaded|] eqn:Hput; [|discriminate].
    destruct (ok uploaded) eqn:Hok; cbn [negb]; [|discriminate].
    rewrite request_answer, request_of_publish.
    intros [= Hresult <-].
    apply answer_outcome_Ok in Hresult as (published & Hnet' & Hpublished). rewrite Hnet'.
    eexists. split; [rewrite <- !app_assoc; reflexivity|].
    exists registered, registerResponse, target, asset, [(source_request imageUrl, Ok response)],
      (responseText response), uploaded, data, published.
    rewrite Elocal. repeat split; try assumption; try reflexivity; [now apply Hnames | eauto].
Qed.

(** X21. An image post that succeeds. [createOrganizationImagePost]
    registers the upload for the organization; it PUTs the bytes it read
    from the file, or fetched from the URL of the image, to the URL that
    the answer to the registration names; and the post it publishes has
    the same organization for its author and the asset of that answer
    for its media. [createImagePost] looks up the member first and does
    the same for the member's URN. No other exchange is made. *)
Theorem image_post_flow (this : LinkedInClient) (organizationId : string)
    (options : CreatePostOptions) (imageUrl : string) (log log' : list Exchange)
    (result : jsval) :
  (createOrganizationImagePost net existsSync readFileSync HOME path_join this
     organizationId options imageUrl log = (Ok result, log') →
   ∃ new, log' = log ++ new
          ∧ image_flow readFileSync HOME path_join this
              ("urn:li:organization:" +:+ organizationId) options imageUrl new result)
  ∧ (createImagePost net existsSync readFileSync HOME path_join this options imageUrl log
     = (Ok result, log') →
     ∃ authorUrn identity new,
       getMemberUrn net this log
       = (Ok authorUrn, log ++ [(request_of this USERINFO_URL no_init, identity)])
       ∧ log' = log ++ [(request_of this USERINFO_URL no_init, identity)] ++ new
       ∧ image_flow readFileSync HOME path_join this authorUrn options imageUrl new result).
Proof.
  split.
  - rewrite createOrganizationImagePost_steps. apply upload_steps_flow.
  - rewrite createImagePost_steps, bind_run.
    destruct (getMemberUrn_result net this log) as (identity & Hid & _). rewrite Hid.
    destruct identity as [authorUrn|]; [|discriminate].
    intros H. apply upload_steps_flow in H as (new & -> & Hflow).
    exists authorUrn, (net log (request_of this USERINFO_URL no_init)), new.
    split; [reflexivity|]. split; [now rewrite <- app_assoc | exact Hflow].
Qed.

End ImagePostFacts.

(** ** What is published *)

(** The optional fields of the options one by one: absent, empty, or a
    text that is not empty. *)
Ltac each_option options :=
  destruct options as [? ? ? [?|] [?|] [?|]];
  cbn [articleUrl articleTitle articleDescription text visibility nonempty optional];
  repeat match goal with
    | |- context [String.eqb ?s ""] => destruct (String.eqb s "")
    end;
  cbn [negb].

(** X22. The body of every publish request reads back as a post of the
    author it was built for, in the state PUBLISHED, with the text of
    the options, character by character, and their visibility, or
    PUBLIC if they have none: for [createPost], [createOrganizationPost]
    and the two image posts, whose media is the asset that was
    registered. *)
Theorem payloads_publish (author organizationId asset : string) (options : CreatePostOptions) :
  (∃ data, JSON.stringify 0 (createPost_payload author options) = Some data
           ∧ publishes data author options)
  ∧ (∃ data, JSON.stringify 0 (createOrganizationPost_payload organizationId options)
             = Some data
             ∧ publishes data ("urn:li:organization:" +:+ organizationId) options)
  ∧ (∃ data parsed,
        JSON.stringify 0 (image_payload author options (VStr asset)) = Some data
        ∧ publishes data author options
        ∧ JSON.parse data = Some parsed
        ∧ get_path parsed ["specificContent"; "com.linkedin.ugc.ShareContent"; "media"]
          = Ok (VArr [VObj [("status", VStr "READY"); ("media", VStr asset)]])
        ∧ get_path parsed ["specificContent"; "com.linkedin.ugc.ShareContent";
                           "shareMediaCategory"]
          = Ok (VStr "IMAGE")).
Proof.
  assert (Hreads : ∀ payload,
             JSON.plain payload = true → payload ≠ VUndefined →
             ∃ data, JSON.stringify 0 payload = Some data
                     ∧ JSON.parse data = Some (JSON.clean payload)).
  { intros payload Hplain Hdef.
    destruct (stringify_defined 0 payload Hdef) as [data Hdata].
    exists data. split; [exact Hdata | now apply (parse_stringify 0)]. }
  split; [|split].
  - destruct (Hreads (createPost_payload author options)) as (data & Hdata & Hparse);
      [unfold createPost_payload; each_option options; reflexivity | discriminate |].
    exists data. split; [exact Hdata|]. eexists. split; [exact Hparse|].
    unfold createPost_payload. each_option options; now repeat split.
  - destruct (Hreads (createOrganizationPost_payload organizationId options))
      as (data & Hdata & Hparse); [reflexivity | discriminate |].
    exists data. split; [exact Hdata|]. eexists. split; [exact Hparse|].
    now repeat split.
  - destruct (Hreads (image_payload author options (VStr asset)))
      as (data & Hdata & Hparse); [reflexivity | discriminate |].
    exists data, (JSON.clean (image_payload author options (VStr asset))).
    split; [exact Hdata|]. split; [|now repeat split].
    eexists. split; [exact Hparse|]. now repeat split.
Qed.

Lemma image_post_flow_witness :
  ∃ new,
    (createOrganizationImagePost (upstream 201) one_file_exists one_file_read None join_slash
       test_client "777" plain_options "/tmp/cat.png" []).2 = [] ++ new
    ∧ image_flow one_file_read None join_slash test_client "urn:li:organization:777"
        plain_options "/tmp/cat.png" new (VObj [("id", VStr "urn:li:share:9")]).
Proof.
  apply (proj1 (image_post_flow (upstream 201) one_file_exists one_file_read None join_slash
                  test_client "777" plain_options "/tmp/cat.png" [] _
                  (VObj [("id", VStr "urn:li:share:9")]))).
  vm_compute. reflexivity.
Defined.

(** The listing calls against the mocked upstream, which knows neither
    endpoint: the identity is asked for first, and the 404 fails the call. *)
Example getPosts_unknown_endpoint :
  (getPosts (upstream 201) test_client None []).1
  = Throw (Error "LinkedIn API Error (404): ")
  ∧ map (λ e : Exchange, url e.1) (getPosts (upstream 201) test_client None []).2
    = ["https://api.linkedin.com/v2/userinfo";
       "https://api.linkedin.com/v2/ugcPosts?q=authors&authors=List(urn%3Ali%3Aperson%3A42)&count=10"].
Proof. split; vm_compute; reflexivity. Qed.

Example deletePost_test :
  map (λ e : Exchange, (method e.1, url e.1))
    (deletePost net_plain_ok test_client "urn:li:share:123" []).2
  = [(Some "DELETE", "https://api.linkedin.com/v2/ugcPosts/urn:li:share:123")].
Proof. vm_compute. reflexivity. Qed.
